(** * MobBob control program: command parser and motion sequencer

    A shallow embedding of [MobBob-Control-Bluetooth.ino].  The sketch has two
    engines: a byte-at-a-time command parser ([loop_Parser]) and a keyframe
    animation sequencer ([loop_Animation]).  Both work on global variables;
    here the globals are the fields of explicit state records and every
    function of the sketch becomes a function on those records.

    What the sketch hands to its collaborators (lines printed on the serial
    port, positions written to the servos) is returned as a list of events. *)

From Stdlib Require Import ZArith List String Ascii Bool Lia.
Import ListNotations.
Open Scope Z_scope.

(* ------------------------------------------------------------------ *)
(** ** Machine integers *)

(** Two's-complement reading of [x] on [w] bits. *)
Definition wrap (w x : Z) : Z :=
  let r := x mod 2 ^ w in
  if r <? 2 ^ (w - 1) then r else r - 2 ^ w.

(** What the sketch leaves to the board and its toolchain:
    - the width of [int]: 16 bits on the AVR boards the sketch names, 32 on
      ARM boards; C guarantees at least 16, and [int] is never wider than
      [long], which has 32 bits on every Arduino board;
    - the floating-point evaluation of the interpolation expression
      [start + ((target - start) * (elapsed / (float) duration))], converted
      back to [int], given as a function of
      [start], [target], [elapsed] and [duration]. *)
Record Platform := {
  int_bits : Z;
  int_bits_ge_16 : 16 <= int_bits;
  int_bits_le_32 : int_bits <= 32;
  tween : Z -> Z -> Z -> Z -> Z
}.

Definition to_int (P : Platform) (x : Z) : Z := wrap (int_bits P) x.
Definition to_long (x : Z) : Z := wrap 32 x.
Definition INT_MAX (P : Platform) : Z := 2 ^ (int_bits P - 1) - 1.

(** The value of a [char] holding the byte [c]: signed, eight bits, as on
    the AVR boards.  (Where [char] is unsigned the parser takes the same
    branches: a byte above 127 is outside every range it tests, from below
    here, from above there.) *)
Definition char_val (c : ascii) : Z := wrap 8 (Z.of_N (N_of_ascii c)).

(* ------------------------------------------------------------------ *)
(** ** Parser variables *)

Definition START_CHAR : ascii := "<"%char.
Definition END_CHAR   : ascii := ">"%char.
Definition SEP_CHAR   : ascii := ","%char.

Definition PARSER_WAITING : Z := 0.
Definition PARSER_COMMAND : Z := 1.
Definition PARSER_PARAM1  : Z := 2.
Definition PARSER_PARAM2  : Z := 3.
Definition PARSER_PARAM3  : Z := 4.
Definition PARSER_PARAM4  : Z := 5.
Definition PARSER_PARAM5  : Z := 6.
Definition PARSER_EXECUTE : Z := 7.

Definition CMD_LENGTH : Z := 2.
Definition MAX_PARAM_LENGTH : Z := 6.

Record Parser := {
  currParserState   : Z;
  currCmd0          : ascii;
  currCmd1          : ascii;
  currCmdIndex      : Z;
  currParam1Val     : Z;
  currParam2Val     : Z;
  currParam3Val     : Z;
  currParam4Val     : Z;
  currParam5Val     : Z;
  currParamIndex    : Z;
  currParamNegative : bool
}.

Definition set_currParserState (v : Z) (p : Parser) : Parser :=
  {| currParserState := v; currCmd0 := currCmd0 p; currCmd1 := currCmd1 p;
     currCmdIndex := currCmdIndex p;
     currParam1Val := currParam1Val p; currParam2Val := currParam2Val p;
     currParam3Val := currParam3Val p; currParam4Val := currParam4Val p;
     currParam5Val := currParam5Val p;
     currParamIndex := currParamIndex p;
     currParamNegative := currParamNegative p |}.

Definition set_currCmd0 (v : ascii) (p : Parser) : Parser :=
  {| currParserState := currParserState p; currCmd0 := v; currCmd1 := currCmd1 p;
     currCmdIndex := currCmdIndex p;
     currParam1Val := currParam1Val p; currParam2Val := currParam2Val p;
     currParam3Val := currParam3Val p; currParam4Val := currParam4Val p;
     currParam5Val := currParam5Val p;
     currParamIndex := currParamIndex p;
     currParamNegative := currParamNegative p |}.

Definition set_currCmd1 (v : ascii) (p : Parser) : Parser :=
  {| currParserState := currParserState p; currCmd0 := currCmd0 p; currCmd1 := v;
     currCmdIndex := currCmdIndex p;
     currParam1Val := currParam1Val p; currParam2Val := currParam2Val p;
     currParam3Val := currParam3Val p; currParam4Val := currParam4Val p;
     currParam5Val := currParam5Val p;
     currParamIndex := currParamIndex p;
     currParamNegative := currParamNegative p |}.

Definition set_currCmdIndex (v : Z) (p : Parser) : Parser :=
  {| currParserState := currParserState p; currCmd0 := currCmd0 p;
     currCmd1 := currCmd1 p; currCmdIndex := v;
     currParam1Val := currParam1Val p; currParam2Val := currParam2Val p;
     currParam3Val := currParam3Val p; currParam4Val := currParam4Val p;
     currParam5Val := currParam5Val p;
     currParamIndex := currParamIndex p;
     currParamNegative := currParamNegative p |}.

Definition set_currParam1Val (v : Z) (p : Parser) : Parser :=
  {| currParserState := currParserState p; currCmd0 := currCmd0 p;
     currCmd1 := currCmd1 p; currCmdIndex := currCmdIndex p;
     currParam1Val := v; currParam2Val := currParam2Val p;
     currParam3Val := currParam3Val p; currParam4Val := currParam4Val p;
     currParam5Val := currParam5Val p;
     currParamIndex := currParamIndex p;
     currParamNegative := currParamNegative p |}.

Definition set_currParam2Val (v : Z) (p : Parser) : Parser :=
  {| currParserState := currParserState p; currCmd0 := currCmd0 p;
     currCmd1 := currCmd1 p; currCmdIndex := currCmdIndex p;
     currParam1Val := currParam1Val p; currParam2Val := v;
     currParam3Val := currParam3Val p; currParam4Val := currParam4Val p;
     currParam5Val := currParam5Val p;
     currParamIndex := currParamIndex p;
     currParamNegative := currParamNegative p |}.

Definition set_currParam3Val (v : Z) (p : Parser) : Parser :=
  {| currParserState := currParserState p; currCmd0 := currCmd0 p;
     currCmd1 := currCmd1 p; currCmdIndex := currCmdIndex p;
     currParam1Val := currParam1Val p; currParam2Val := currParam2Val p;
     currParam3Val := v; currParam4Val := currParam4Val p;
     currParam5Val := currParam5Val p;
     currParamIndex := currParamIndex p;
     currParamNegative := currParamNegative p |}.

Definition set_currParam4Val (v : Z) (p : Parser) : Parser :=
  {| currParserState := currParserState p; currCmd0 := currCmd0 p;
     currCmd1 := currCmd1 p; currCmdIndex := currCmdIndex p;
     currParam1Val := currParam1Val p; currParam2Val := currParam2Val p;
     currParam3Val := currParam3Val p; currParam4Val := v;
     currParam5Val := currParam5Val p;
     currParamIndex := currParamIndex p;
     currParamNegative := currParamNegative p |}.

Definition set_currParam5Val (v : Z) (p : Parser) : Parser :=
  {| currParserState := currParserState p; currCmd0 := currCmd0 p;
     currCmd1 := currCmd1 p; currCmdIndex := currCmdIndex p;
     currParam1Val := currParam1Val p; currParam2Val := currParam2Val p;
     currParam3Val := currParam3Val p; currParam4Val := currParam4Val p;
     currParam5Val := v;
     currParamIndex := currParamIndex p;
     currParamNegative := currParamNegative p |}.

Definition set_currParamIndex (v : Z) (p : Parser) : Parser :=
  {| currParserState := currParserState p; currCmd0 := currCmd0 p;
     currCmd1 := currCmd1 p; currCmdIndex := currCmdIndex p;
     currParam1Val := currParam1Val p; currParam2Val := currParam2Val p;
     currParam3Val := currParam3Val p; currParam4Val := currParam4Val p;
     currParam5Val := currParam5Val p;
     currParamIndex := v;
     currParamNegative := currParamNegative p |}.

Definition set_currParamNegative (v : bool) (p : Parser) : Parser :=
  {| currParserState := currParserState p; currCmd0 := currCmd0 p;
     currCmd1 := currCmd1 p; currCmdIndex := currCmdIndex p;
     currParam1Val := currParam1Val p; currParam2Val := currParam2Val p;
     currParam3Val := currParam3Val p; currParam4Val := currParam4Val p;
     currParam5Val := currParam5Val p;
     currParamIndex := currParamIndex p;
     currParamNegative := v |}.

(** The globals as the C start-up code and [setup_Parser] leave them:
    [currCmd] is initialised to ["--"], the rest is zero. *)
Definition setup_Parser : Parser :=
  {| currParserState := PARSER_WAITING;
     currCmd0 := "-"%char; currCmd1 := "-"%char; currCmdIndex := 0;
     currParam1Val := 0; currParam2Val := 0; currParam3Val := 0;
     currParam4Val := 0; currParam5Val := 0;
     currParamIndex := 0; currParamNegative := false |}.

(* ------------------------------------------------------------------ *)
(** ** The parser's state machine (first half of [loop_Parser]) *)

(** One of the five parameter states.  In the sketch the five branches are
    written out one after the other; they differ in the variable they fill
    ([get]/[set]) and in the state a separator leads to.  [PARSER_PARAM5] has
    no separator branch at all ([next = None]): there a comma falls through
    to the digit test. *)
Definition param_state (P : Platform)
    (get : Parser -> Z) (set : Z -> Parser -> Parser) (next : option Z)
    (p : Parser) (c : ascii) : Parser :=
  let apply_sign (q : Parser) :=
    if currParamNegative q then set (to_int P (-1 * get q)) q else q in
  let after_sep :=
    if Ascii.eqb c END_CHAR then
      set_currParserState PARSER_EXECUTE (apply_sign p)
    else if (currParamIndex p =? 0) && Ascii.eqb c "-"%char then
      set_currParamIndex (to_int P (currParamIndex p + 1))
        (set_currParamNegative true p)
    else if (currParamIndex p >=? MAX_PARAM_LENGTH)
            || (char_val c <? char_val "0"%char)
            || (char_val c >? char_val "9"%char) then
      set_currParserState PARSER_WAITING p
    else
      let currDigitVal := to_int P (char_val c - char_val "0"%char) in
      set_currParamIndex (to_int P (currParamIndex p + 1))
        (set (to_int P (to_int P (get p * 10) + currDigitVal)) p) in
  match next with
  | Some nextState =>
      if Ascii.eqb c SEP_CHAR then
        set_currParamNegative false
          (set_currParamIndex 0
             (set_currParserState nextState (apply_sign p)))
      else after_sep
  | None => after_sep
  end.

Definition parse_char (P : Platform) (p : Parser) (c : ascii) : Parser :=
  if currParserState p =? PARSER_WAITING then
    if Ascii.eqb c START_CHAR then
      {| currParserState := PARSER_COMMAND;
         currCmd0 := "-"%char; currCmd1 := "-"%char; currCmdIndex := 0;
         currParam1Val := 0; currParam2Val := 0; currParam3Val := 0;
         currParam4Val := 0; currParam5Val := 0;
         currParamIndex := currParamIndex p;
         currParamNegative := currParamNegative p |}
    else p
  else if currParserState p =? PARSER_COMMAND then
    if Ascii.eqb c SEP_CHAR then
      if currCmdIndex p =? CMD_LENGTH then
        set_currParamNegative false
          (set_currParamIndex 0 (set_currParserState PARSER_PARAM1 p))
      else set_currParserState PARSER_WAITING p
    else if Ascii.eqb c END_CHAR then
      if currCmdIndex p =? CMD_LENGTH then
        set_currParserState PARSER_EXECUTE p
      else set_currParserState PARSER_WAITING p
    else if (currCmdIndex p >=? CMD_LENGTH)
            || (char_val c <? char_val "A"%char)
            || (char_val c >? char_val "Z"%char) then
      set_currParserState PARSER_WAITING p
    else
      (* currCmd[currCmdIndex] = c, with currCmdIndex 0 or 1 here *)
      let q := if currCmdIndex p =? 0 then set_currCmd0 c p
               else set_currCmd1 c p in
      set_currCmdIndex (to_int P (currCmdIndex p + 1)) q
  else if currParserState p =? PARSER_PARAM1 then
    param_state P currParam1Val set_currParam1Val (Some PARSER_PARAM2) p c
  else if currParserState p =? PARSER_PARAM2 then
    param_state P currParam2Val set_currParam2Val (Some PARSER_PARAM3) p c
  else if currParserState p =? PARSER_PARAM3 then
    param_state P currParam3Val set_currParam3Val (Some PARSER_PARAM4) p c
  else if currParserState p =? PARSER_PARAM4 then
    param_state P currParam4Val set_currParam4Val (Some PARSER_PARAM5) p c
  else if currParserState p =? PARSER_PARAM5 then
    param_state P currParam5Val set_currParam5Val None p c
  else p.

(** A completed command, as the handler reads it from the parser variables:
    the two letters and the five parameter variables (a parameter the
    sender left out is still 0 from the reset at ['<']). *)
Record Command := {
  cmd0 : ascii; cmd1 : ascii;
  param1 : Z; param2 : Z; param3 : Z; param4 : Z; param5 : Z
}.

Definition command_of (p : Parser) : Command :=
  {| cmd0 := currCmd0 p; cmd1 := currCmd1 p;
     param1 := currParam1Val p; param2 := currParam2Val p;
     param3 := currParam3Val p; param4 := currParam4Val p;
     param5 := currParam5Val p |}.

(** The parser's side of one call of [loop_Parser] with a byte available:
    run the state machine on the byte; if that completes a command, hand it
    over and go back to waiting. *)
Definition parser_step (P : Platform) (p : Parser) (c : ascii)
  : Parser * option Command :=
  let q := parse_char P p c in
  if currParserState q =? PARSER_EXECUTE then
    (set_currParserState PARSER_WAITING q, Some (command_of q))
  else (q, None).

(** Feeding bytes one per call; the commands handed over, in order. *)
Fixpoint feed (P : Platform) (p : Parser) (s : list ascii)
  : Parser * list Command :=
  match s with
  | [] => (p, [])
  | c :: s' =>
      let '(q, d) := parser_step P p c in
      let '(r, ds) := feed P q s' in
      (r, match d with Some x => x :: ds | None => ds end)
  end.

Definition dispatches (P : Platform) (s : string) : list Command :=
  snd (feed P setup_Parser (list_ascii_of_string s)).

(* ------------------------------------------------------------------ *)
(** ** Servo calibration and keyframe helpers *)

Definition FRONT_JOINT_HIPS : Z := 1.

Definition LEFT_HIP_CENTRE   : Z := 1580.
Definition LEFT_FOOT_CENTRE  : Z := 1410.
Definition RIGHT_HIP_CENTRE  : Z := 1500.
Definition RIGHT_FOOT_CENTRE : Z := 1465.

Definition TWEEN_TIME_VALUE : Z := 0.
Definition LEFT_HIP_VALUE   : Z := 1.
Definition LEFT_FOOT_VALUE  : Z := 2.
Definition RIGHT_HIP_VALUE  : Z := 3.
Definition RIGHT_FOOT_VALUE : Z := 4.

Definition FOOT_DELTA : Z := 150.
Definition HIP_DELTA  : Z := FRONT_JOINT_HIPS * 120.

Definition LeftHipCentre (P : Platform) : Z := LEFT_HIP_CENTRE.
Definition LeftHipIn (P : Platform) (millisecs : Z) : Z :=
  to_int P (LEFT_HIP_CENTRE + to_int P (FRONT_JOINT_HIPS * millisecs)).
Definition LeftHipOut (P : Platform) (millisecs : Z) : Z :=
  to_int P (LEFT_HIP_CENTRE - to_int P (FRONT_JOINT_HIPS * millisecs)).

Definition RightHipCentre (P : Platform) : Z := RIGHT_HIP_CENTRE.
Definition RightHipIn (P : Platform) (millisecs : Z) : Z :=
  to_int P (RIGHT_HIP_CENTRE - to_int P (FRONT_JOINT_HIPS * millisecs)).
Definition RightHipOut (P : Platform) (millisecs : Z) : Z :=
  to_int P (RIGHT_HIP_CENTRE + to_int P (FRONT_JOINT_HIPS * millisecs)).

Definition LeftFootFlat (P : Platform) : Z := LEFT_FOOT_CENTRE.
Definition LeftFootUp (P : Platform) (millisecs : Z) : Z :=
  to_int P (LEFT_FOOT_CENTRE - millisecs).
Definition LeftFootDown (P : Platform) (millisecs : Z) : Z :=
  to_int P (LEFT_FOOT_CENTRE + millisecs).

Definition RightFootFlat (P : Platform) : Z := RIGHT_FOOT_CENTRE.
Definition RightFootUp (P : Platform) (millisecs : Z) : Z :=
  to_int P (RIGHT_FOOT_CENTRE + millisecs).
Definition RightFootDown (P : Platform) (millisecs : Z) : Z :=
  to_int P (RIGHT_FOOT_CENTRE - millisecs).

(* ------------------------------------------------------------------ *)
(** ** Keyframe animation data

    An animation is an [int [][5]] array: row 0 holds the number of frames,
    rows 1.. are the keyframes [{ millis, leftHip, leftFoot, rightHip,
    rightFoot }].  The sketch passes animations around as pointers to these
    global arrays; a pointer is modelled by the array's name, the null
    pointer by [None], and the arrays themselves live in the [mem] field of
    the sequencer state (two of them are written at run time). *)

Inductive AnimName :=
| standStraightAnim | walkForwardAnim | walkBackwardAnim | walkEndAnim
| turnLeftAnim | turnRightAnim | shakeHeadAnim
| wobbleAnim | wobbleLeftAnim | wobbleRightAnim
| tapFeetAnim | tapLeftFootAnim | tapRightFootAnim | bounceAnim
| shakeLegsAnim | shakeLeftLegAnim | shakeRightLegAnim
| setServosAnim1 | setServosAnim2.

Definition AnimName_eq_dec (x y : AnimName) : {x = y} + {x <> y}.
Proof. decide equality. Defined.

Definition AnimData := list (list Z).

(** [d[r][c]].  An index outside the array is undefined behaviour in C; the
    model reads 0 there. *)
Definition cell (d : AnimData) (r c : Z) : Z :=
  nth (Z.to_nat c) (nth (Z.to_nat r) d []) 0.

Fixpoint list_set {A} (l : list A) (i : nat) (v : A) : list A :=
  match l, i with
  | [], _ => []
  | _ :: t, O => v :: t
  | h :: t, S j => h :: list_set t j v
  end.

(** [d[r][c] = v] (nothing is written outside the array). *)
Definition set_cell (d : AnimData) (r c : Z) (v : Z) : AnimData :=
  list_set d (Z.to_nat r) (list_set (nth (Z.to_nat r) d []) (Z.to_nat c) v).

Definition NumOfFrames (animData : AnimData) : Z := cell animData 0 0.

Definition standStraightAnim_data (P : Platform) : AnimData :=
  [ [1; 0; 0; 0; 0];
    [300; LeftHipCentre P; LeftFootFlat P; RightHipCentre P; RightFootFlat P] ].

Definition walkForwardAnim_data (P : Platform) : AnimData :=
  [ [8; 0; 0; 0; 0];
    [300; LeftHipCentre P; LeftFootUp P FOOT_DELTA; RightHipCentre P; RightFootDown P FOOT_DELTA];
    [300; LeftHipIn P HIP_DELTA; LeftFootUp P FOOT_DELTA; RightHipOut P HIP_DELTA; RightFootDown P FOOT_DELTA];
    [300; LeftHipIn P HIP_DELTA; LeftFootFlat P; RightHipOut P HIP_DELTA; RightFootFlat P];
    [300; LeftHipIn P HIP_DELTA; LeftFootDown P FOOT_DELTA; RightHipOut P HIP_DELTA; RightFootUp P FOOT_DELTA];
    [300; LeftHipCentre P; LeftFootDown P FOOT_DELTA; RightHipCentre P; RightFootUp P FOOT_DELTA];
    [300; LeftHipOut P HIP_DELTA; LeftFootDown P FOOT_DELTA; RightHipIn P HIP_DELTA; RightFootUp P FOOT_DELTA];
    [300; LeftHipOut P HIP_DELTA; LeftFootFlat P; RightHipIn P HIP_DELTA; RightFootFlat P];
    [300; LeftHipOut P HIP_DELTA; LeftFootUp P FOOT_DELTA; RightHipIn P HIP_DELTA; RightFootDown P FOOT_DELTA] ].

Definition walkBackwardAnim_data (P : Platform) : AnimData :=
  [ [8; 0; 0; 0; 0];
    [300; LeftHipCentre P; LeftFootUp P FOOT_DELTA; RightHipCentre P; RightFootDown P FOOT_DELTA];
    [300; LeftHipOut P HIP_DELTA; LeftFootUp P FOOT_DELTA; RightHipIn P HIP_DELTA; RightFootDown P FOOT_DELTA];
    [300; LeftHipOut P HIP_DELTA; LeftFootFlat P; RightHipIn P HIP_DELTA; RightFootFlat P];
    [300; LeftHipOut P HIP_DELTA; LeftFootDown P FOOT_DELTA; RightHipIn P HIP_DELTA; RightFootUp P FOOT_DELTA];
    [300; LeftHipCentre P; LeftFootDown P FOOT_DELTA; RightHipCentre P; RightFootUp P FOOT_DELTA];
    [300; LeftHipIn P HIP_DELTA; LeftFootDown P FOOT_DELTA; RightHipOut P HIP_DELTA; RightFootUp P FOOT_DELTA];
    [300; LeftHipIn P HIP_DELTA; LeftFootFlat P; RightHipOut P HIP_DELTA; RightFootFlat P];
    [300; LeftHipIn P HIP_DELTA; LeftFootUp P FOOT_DELTA; RightHipOut P HIP_DELTA; RightFootDown P FOOT_DELTA] ].

Definition walkEndAnim_data (P : Platform) : AnimData :=
  [ [2; 0; 0; 0; 0];
    [300; LeftHipCentre P; LeftFootUp P FOOT_DELTA; RightHipCentre P; RightFootDown P FOOT_DELTA];
    [300; LeftHipCentre P; LeftFootFlat P; RightHipCentre P; RightFootFlat P] ].

Definition turnLeftAnim_data (P : Platform) : AnimData :=
  [ [6; 0; 0; 0; 0];
    [300; LeftHipCentre P; LeftFootUp P FOOT_DELTA; RightHipCentre P; RightFootDown P FOOT_DELTA];
    [300; LeftHipIn P HIP_DELTA; LeftFootUp P FOOT_DELTA; RightHipIn P HIP_DELTA; RightFootDown P FOOT_DELTA];
    [300; LeftHipIn P HIP_DELTA; LeftFootFlat P; RightHipIn P HIP_DELTA; RightFootFlat P];
    [300; LeftHipIn P HIP_DELTA; LeftFootDown P FOOT_DELTA; RightHipIn P HIP_DELTA; RightFootUp P FOOT_DELTA];
    [300; LeftHipCentre P; LeftFootDown P FOOT_DELTA; RightHipCentre P; RightFootUp P FOOT_DELTA];
    [300; LeftHipCentre P; LeftFootFlat P; RightHipCentre P; RightFootFlat P] ].

Definition turnRightAnim_data (P : Platform) : AnimData :=
  [ [6; 0; 0; 0; 0];
    [300; LeftHipCentre P; LeftFootDown P FOOT_DELTA; RightHipCentre P; RightFootUp P FOOT_DELTA];
    [300; LeftHipIn P HIP_DELTA; LeftFootDown P FOOT_DELTA; RightHipIn P HIP_DELTA; RightFootUp P FOOT_DELTA];
    [300; LeftHipIn P HIP_DELTA; LeftFootFlat P; RightHipIn P HIP_DELTA; RightFootFlat P];
    [300; LeftHipIn P HIP_DELTA; LeftFootUp P FOOT_DELTA; RightHipIn P HIP_DELTA; RightFootDown P FOOT_DELTA];
    [300; LeftHipCentre P; LeftFootUp P FOOT_DELTA; RightHipCentre P; RightFootDown P FOOT_DELTA];
    [300; LeftHipCentre P; LeftFootFlat P; RightHipCentre P; RightFootFlat P] ].

Definition shakeHeadAnim_data (P : Platform) : AnimData :=
  [ [4; 0; 0; 0; 0];
    [150; LeftHipOut P HIP_DELTA; LeftFootFlat P; RightHipIn P HIP_DELTA; RightFootFlat P];
    [150; LeftHipCentre P; LeftFootFlat P; RightHipCentre P; RightFootFlat P];
    [150; LeftHipIn P HIP_DELTA; LeftFootFlat P; RightHipOut P HIP_DELTA; RightFootFlat P];
    [150; LeftHipCentre P; LeftFootFlat P; RightHipCentre P; RightFootFlat P] ].

Definition wobbleAnim_data (P : Platform) : AnimData :=
  [ [4; 0; 0; 0; 0];
    [300; LeftHipCentre P; LeftFootUp P FOOT_DELTA; RightHipCentre P; RightFootDown P FOOT_DELTA];
    [300; LeftHipCentre P; LeftFootFlat P; RightHipCentre P; RightFootFlat P];
    [300; LeftHipCentre P; LeftFootDown P FOOT_DELTA; RightHipCentre P; RightFootUp P FOOT_DELTA];
    [300; LeftHipCentre P; LeftFootFlat P; RightHipCentre P; RightFootFlat P] ].

Definition wobbleLeftAnim_data (P : Platform) : AnimData :=
  [ [2; 0; 0; 0; 0];
    [300; LeftHipCentre P; LeftFootUp P FOOT_DELTA; RightHipCentre P; RightFootDown P FOOT_DELTA];
    [300; LeftHipCentre P; LeftFootFlat P; RightHipCentre P; RightFootFlat P] ].

Definition wobbleRightAnim_data (P : Platform) : AnimData :=
  [ [2; 0; 0; 0; 0];
    [300; LeftHipCentre P; LeftFootDown P FOOT_DELTA; RightHipCentre P; RightFootUp P FOOT_DELTA];
    [300; LeftHipCentre P; LeftFootFlat P; RightHipCentre P; RightFootFlat P] ].

Definition tapFeetAnim_data (P : Platform) : AnimData :=
  [ [2; 0; 0; 0; 0];
    [500; LeftHipCentre P; LeftFootUp P FOOT_DELTA; RightHipCentre P; RightFootUp P FOOT_DELTA];
    [500; LeftHipCentre P; LeftFootFlat P; RightHipCentre P; RightFootFlat P] ].

Definition tapLeftFootAnim_data (P : Platform) : AnimData :=
  [ [2; 0; 0; 0; 0];
    [500; LeftHipCentre P; LeftFootUp P FOOT_DELTA; RightHipCentre P; RightFootFlat P];
    [500; LeftHipCentre P; LeftFootFlat P; RightHipCentre P; RightFootFlat P] ].

Definition tapRightFootAnim_data (P : Platform) : AnimData :=
  [ [2; 0; 0; 0; 0];
    [500; LeftHipCentre P; LeftFootFlat P; RightHipCentre P; RightFootUp P FOOT_DELTA];
    [500; LeftHipCentre P; LeftFootFlat P; RightHipCentre P; RightFootFlat P] ].

Definition bounceAnim_data (P : Platform) : AnimData :=
  [ [2; 0; 0; 0; 0];
    [500; LeftHipCentre P; LeftFootDown P 300; RightHipCentre P; RightFootDown P 300];
    [500; LeftHipCentre P; LeftFootFlat P; RightHipCentre P; RightFootFlat P] ].

Definition shakeLegsAnim_data (P : Platform) : AnimData :=
  [ [14; 0; 0; 0; 0];
    [300; LeftHipCentre P; LeftFootUp P FOOT_DELTA; RightHipCentre P; RightFootDown P FOOT_DELTA];
    [100; LeftHipCentre P; LeftFootUp P FOOT_DELTA; RightHipIn P HIP_DELTA; RightFootDown P FOOT_DELTA];
    [100; LeftHipCentre P; LeftFootUp P FOOT_DELTA; RightHipCentre P; RightFootDown P FOOT_DELTA];
    [100; LeftHipCentre P; LeftFootUp P FOOT_DELTA; RightHipOut P HIP_DELTA; RightFootDown P FOOT_DELTA];
    [100; LeftHipCentre P; LeftFootUp P FOOT_DELTA; RightHipCentre P; RightFootDown P FOOT_DELTA];
    [100; LeftHipCentre P; LeftFootUp P FOOT_DELTA; RightHipIn P HIP_DELTA; RightFootDown P FOOT_DELTA];
    [100; LeftHipCentre P; LeftFootUp P FOOT_DELTA; RightHipCentre P; RightFootDown P FOOT_DELTA];
    [300; LeftHipCentre P; LeftFootFlat P; RightHipCentre P; RightFootFlat P];
    [300; LeftHipCentre P; LeftFootDown P FOOT_DELTA; RightHipCentre P; RightFootUp P FOOT_DELTA];
    [100; LeftHipIn P HIP_DELTA; LeftFootDown P FOOT_DELTA; RightHipCentre P; RightFootUp P FOOT_DELTA];
    [100; LeftHipCentre P; LeftFootDown P FOOT_DELTA; RightHipCentre P; RightFootUp P FOOT_DELTA];
    [100; LeftHipOut P HIP_DELTA; LeftFootDown P FOOT_DELTA; RightHipCentre P; RightFootUp P FOOT_DELTA];
    [100; LeftHipCentre P; LeftFootDown P FOOT_DELTA; RightHipCentre P; RightFootUp P FOOT_DELTA];
    [300; LeftHipCentre P; LeftFootFlat P; RightHipCentre P; RightFootFlat P] ].

Definition shakeLeftLegAnim_data (P : Platform) : AnimData :=
  [ [12; 0; 0; 0; 0];
    [300; LeftHipCentre P; LeftFootDown P FOOT_DELTA; RightHipCentre P; RightFootUp P FOOT_DELTA];
    [100; LeftHipIn P HIP_DELTA; LeftFootDown P FOOT_DELTA; RightHipCentre P; RightFootUp P FOOT_DELTA];
    [100; LeftHipCentre P; LeftFootDown P FOOT_DELTA; RightHipCentre P; RightFootUp P FOOT_DELTA];
    [100; LeftHipOut P HIP_DELTA; LeftFootDown P FOOT_DELTA; RightHipCentre P; RightFootUp P FOOT_DELTA];
    [100; LeftHipCentre P; LeftFootDown P FOOT_DELTA; RightHipCentre P; RightFootUp P FOOT_DELTA];
    [100; LeftHipIn P HIP_DELTA; LeftFootDown P FOOT_DELTA; RightHipCentre P; RightFootUp P FOOT_DELTA];
    [100; LeftHipCentre P; LeftFootDown P FOOT_DELTA; RightHipCentre P; RightFootUp P FOOT_DELTA];
    [100; LeftHipOut P HIP_DELTA; LeftFootDown P FOOT_DELTA; RightHipCentre P; RightFootUp P FOOT_DELTA];
    [100; LeftHipCentre P; LeftFootDown P FOOT_DELTA; RightHipCentre P; RightFootUp P FOOT_DELTA];
    [100; LeftHipIn P HIP_DELTA; LeftFootDown P FOOT_DELTA; RightHipCentre P; RightFootUp P FOOT_DELTA];
    [100; LeftHipCentre P; LeftFootDown P FOOT_DELTA; RightHipCentre P; RightFootUp P FOOT_DELTA];
    [300; LeftHipCentre P; LeftFootFlat P; RightHipCentre P; RightFootFlat P] ].

Definition shakeRightLegAnim_data (P : Platform) : AnimData :=
  [ [12; 0; 0; 0; 0];
    [300; LeftHipCentre P; LeftFootUp P FOOT_DELTA; RightHipCentre P; RightFootDown P FOOT_DELTA];
    [100; LeftHipCentre P; LeftFootUp P FOOT_DELTA; RightHipIn P HIP_DELTA; RightFootDown P FOOT_DELTA];
    [100; LeftHipCentre P; LeftFootUp P FOOT_DELTA; RightHipCentre P; RightFootDown P FOOT_DELTA];
    [100; LeftHipCentre P; LeftFootUp P FOOT_DELTA; RightHipOut P HIP_DELTA; RightFootDown P FOOT_DELTA];
    [100; LeftHipCentre P; LeftFootUp P FOOT_DELTA; RightHipCentre P; RightFootDown P FOOT_DELTA];
    [100; LeftHipCentre P; LeftFootUp P FOOT_DELTA; RightHipIn P HIP_DELTA; RightFootDown P FOOT_DELTA];
    [100; LeftHipCentre P; LeftFootUp P FOOT_DELTA; RightHipCentre P; RightFootDown P FOOT_DELTA];
    [100; LeftHipCentre P; LeftFootUp P FOOT_DELTA; RightHipOut P HIP_DELTA; RightFootDown P FOOT_DELTA];
    [100; LeftHipCentre P; LeftFootUp P FOOT_DELTA; RightHipCentre P; RightFootDown P FOOT_DELTA];
    [100; LeftHipCentre P; LeftFootUp P FOOT_DELTA; RightHipIn P HIP_DELTA; RightFootDown P FOOT_DELTA];
    [100; LeftHipCentre P; LeftFootUp P FOOT_DELTA; RightHipCentre P; RightFootDown P FOOT_DELTA];
    [300; LeftHipCentre P; LeftFootFlat P; RightHipCentre P; RightFootFlat P] ].

Definition setServosAnim1_data (P : Platform) : AnimData :=
  [ [1; 0; 0; 0; 0];
    [0; LeftHipCentre P; LeftFootFlat P; RightHipCentre P; RightFootFlat P] ].

Definition setServosAnim2_data (P : Platform) : AnimData :=
  [ [1; 0; 0; 0; 0];
    [0; LeftHipCentre P; LeftFootFlat P; RightHipCentre P; RightFootFlat P] ].

Definition initial_mem (P : Platform) (n : AnimName) : AnimData :=
  match n with
  | standStraightAnim => standStraightAnim_data P
  | walkForwardAnim => walkForwardAnim_data P
  | walkBackwardAnim => walkBackwardAnim_data P
  | walkEndAnim => walkEndAnim_data P
  | turnLeftAnim => turnLeftAnim_data P
  | turnRightAnim => turnRightAnim_data P
  | shakeHeadAnim => shakeHeadAnim_data P
  | wobbleAnim => wobbleAnim_data P
  | wobbleLeftAnim => wobbleLeftAnim_data P
  | wobbleRightAnim => wobbleRightAnim_data P
  | tapFeetAnim => tapFeetAnim_data P
  | tapLeftFootAnim => tapLeftFootAnim_data P
  | tapRightFootAnim => tapRightFootAnim_data P
  | bounceAnim => bounceAnim_data P
  | shakeLegsAnim => shakeLegsAnim_data P
  | shakeLeftLegAnim => shakeLeftLegAnim_data P
  | shakeRightLegAnim => shakeRightLegAnim_data P
  | setServosAnim1 => setServosAnim1_data P
  | setServosAnim2 => setServosAnim2_data P
  end.

(* ------------------------------------------------------------------ *)
(** ** Sequencer variables *)

(** The four servo positions ([currLeftHip] .. / [startLeftHip] ..). *)
Record Joints := {
  LeftHip : Z; LeftFoot : Z; RightHip : Z; RightFoot : Z
}.

Definition set_LeftHip (v : Z) (j : Joints) : Joints :=
  {| LeftHip := v; LeftFoot := LeftFoot j;
     RightHip := RightHip j; RightFoot := RightFoot j |}.
Definition set_LeftFoot (v : Z) (j : Joints) : Joints :=
  {| LeftHip := LeftHip j; LeftFoot := v;
     RightHip := RightHip j; RightFoot := RightFoot j |}.
Definition set_RightHip (v : Z) (j : Joints) : Joints :=
  {| LeftHip := LeftHip j; LeftFoot := LeftFoot j;
     RightHip := v; RightFoot := RightFoot j |}.
Definition set_RightFoot (v : Z) (j : Joints) : Joints :=
  {| LeftHip := LeftHip j; LeftFoot := LeftFoot j;
     RightHip := RightHip j; RightFoot := v |}.

(** A completion string: the two characters of a [char [3]] buffer. *)
Definition Tag : Type := ascii * ascii.

Definition no_tag : Tag := ("-"%char, "-"%char).

Record Anim := {
  timeAtLastAnimUpdate : Z;
  currAnim : option AnimName;
  finishAnim : option AnimName;
  timeAtStartOfFrame : Z;
  targetFrame : Z;
  animNumLoops : Z;
  animCompleteStr : Tag;
  animInProgress : bool;
  nextAnim : option AnimName;
  nextFinishAnim : option AnimName;
  nextAnimNumLoops : Z;
  nextAnimCompleteStr : Tag;
  interruptInProgressAnim : bool;
  currPos : Joints;
  startPos : Joints;
  mem : AnimName -> AnimData
}.

Definition set_timeAtLastAnimUpdate (v : Z) (a : Anim) : Anim :=
  {| timeAtLastAnimUpdate := v; currAnim := currAnim a;
     finishAnim := finishAnim a; timeAtStartOfFrame := timeAtStartOfFrame a;
     targetFrame := targetFrame a; animNumLoops := animNumLoops a;
     animCompleteStr := animCompleteStr a; animInProgress := animInProgress a;
     nextAnim := nextAnim a; nextFinishAnim := nextFinishAnim a;
     nextAnimNumLoops := nextAnimNumLoops a;
     nextAnimCompleteStr := nextAnimCompleteStr a;
     interruptInProgressAnim := interruptInProgressAnim a;
     currPos := currPos a; startPos := startPos a; mem := mem a |}.

Definition set_currAnim (v : option AnimName) (a : Anim) : Anim :=
  {| timeAtLastAnimUpdate := timeAtLastAnimUpdate a; currAnim := v;
     finishAnim := finishAnim a; timeAtStartOfFrame := timeAtStartOfFrame a;
     targetFrame := targetFrame a; animNumLoops := animNumLoops a;
     animCompleteStr := animCompleteStr a; animInProgress := animInProgress a;
     nextAnim := nextAnim a; nextFinishAnim := nextFinishAnim a;
     nextAnimNumLoops := nextAnimNumLoops a;
     nextAnimCompleteStr := nextAnimCompleteStr a;
     interruptInProgressAnim := interruptInProgressAnim a;
     currPos := currPos a; startPos := startPos a; mem := mem a |}.

Definition set_finishAnim (v : option AnimName) (a : Anim) : Anim :=
  {| timeAtLastAnimUpdate := timeAtLastAnimUpdate a; currAnim := currAnim a;
     finishAnim := v; timeAtStartOfFrame := timeAtStartOfFrame a;
     targetFrame := targetFrame a; animNumLoops := animNumLoops a;
     animCompleteStr := animCompleteStr a; animInProgress := animInProgress a;
     nextAnim := nextAnim a; nextFinishAnim := nextFinishAnim a;
     nextAnimNumLoops := nextAnimNumLoops a;
     nextAnimCompleteStr := nextAnimCompleteStr a;
     interruptInProgressAnim := interruptInProgressAnim a;
     currPos := currPos a; startPos := startPos a; mem := mem a |}.

Definition set_timeAtStartOfFrame (v : Z) (a : Anim) : Anim :=
  {| timeAtLastAnimUpdate := timeAtLastAnimUpdate a; currAnim := currAnim a;
     finishAnim := finishAnim a; timeAtStartOfFrame := v;
     targetFrame := targetFrame a; animNumLoops := animNumLoops a;
     animCompleteStr := animCompleteStr a; animInProgress := animInProgress a;
     nextAnim := nextAnim a; nextFinishAnim := nextFinishAnim a;
     nextAnimNumLoops := nextAnimNumLoops a;
     nextAnimCompleteStr := nextAnimCompleteStr a;
     interruptInProgressAnim := interruptInProgressAnim a;
     currPos := currPos a; startPos := startPos a; mem := mem a |}.

Definition set_targetFrame (v : Z) (a : Anim) : Anim :=
  {| timeAtLastAnimUpdate := timeAtLastAnimUpdate a; currAnim := currAnim a;
     finishAnim := finishAnim a; timeAtStartOfFrame := timeAtStartOfFrame a;
     targetFrame := v; animNumLoops := animNumLoops a;
     animCompleteStr := animCompleteStr a; animInProgress := animInProgress a;
     nextAnim := nextAnim a; nextFinishAnim := nextFinishAnim a;
     nextAnimNumLoops := nextAnimNumLoops a;
     nextAnimCompleteStr := nextAnimCompleteStr a;
     interruptInProgressAnim := interruptInProgressAnim a;
     currPos := currPos a; startPos := startPos a; mem := mem a |}.

Definition set_animNumLoops (v : Z) (a : Anim) : Anim :=
  {| timeAtLastAnimUpdate := timeAtLastAnimUpdate a; currAnim := currAnim a;
     finishAnim := finishAnim a; timeAtStartOfFrame := timeAtStartOfFrame a;
     targetFrame := targetFrame a; animNumLoops := v;
     animCompleteStr := animCompleteStr a; animInProgress := animInProgress a;
     nextAnim := nextAnim a; nextFinishAnim := nextFinishAnim a;
     nextAnimNumLoops := nextAnimNumLoops a;
     nextAnimCompleteStr := nextAnimCompleteStr a;
     interruptInProgressAnim := interruptInProgressAnim a;
     currPos := currPos a; startPos := startPos a; mem := mem a |}.

Definition set_animCompleteStr (v : Tag) (a : Anim) : Anim :=
  {| timeAtLastAnimUpdate := timeAtLastAnimUpdate a; currAnim := currAnim a;
     finishAnim := finishAnim a; timeAtStartOfFrame := timeAtStartOfFrame a;
     targetFrame := targetFrame a; animNumLoops := animNumLoops a;
     animCompleteStr := v; animInProgress := animInProgress a;
     nextAnim := nextAnim a; nextFinishAnim := nextFinishAnim a;
     nextAnimNumLoops := nextAnimNumLoops a;
     nextAnimCompleteStr := nextAnimCompleteStr a;
     interruptInProgressAnim := interruptInProgressAnim a;
     currPos := currPos a; startPos := startPos a; mem := mem a |}.

Definition set_animInProgress (v : bool) (a : Anim) : Anim :=
  {| timeAtLastAnimUpdate := timeAtLastAnimUpdate a; currAnim := currAnim a;
     finishAnim := finishAnim a; timeAtStartOfFrame := timeAtStartOfFrame a;
     targetFrame := targetFrame a; animNumLoops := animNumLoops a;
     animCompleteStr := animCompleteStr a; animInProgress := v;
     nextAnim := nextAnim a; nextFinishAnim := nextFinishAnim a;
     nextAnimNumLoops := nextAnimNumLoops a;
     nextAnimCompleteStr := nextAnimCompleteStr a;
     interruptInProgressAnim := interruptInProgressAnim a;
     currPos := currPos a; startPos := startPos a; mem := mem a |}.

Definition set_nextAnim (v : option AnimName) (a : Anim) : Anim :=
  {| timeAtLastAnimUpdate := timeAtLastAnimUpdate a; currAnim := currAnim a;
     finishAnim := finishAnim a; timeAtStartOfFrame := timeAtStartOfFrame a;
     targetFrame := targetFrame a; animNumLoops := animNumLoops a;
     animCompleteStr := animCompleteStr a; animInProgress := animInProgress a;
     nextAnim := v; nextFinishAnim := nextFinishAnim a;
     nextAnimNumLoops := nextAnimNumLoops a;
     nextAnimCompleteStr := nextAnimCompleteStr a;
     interruptInProgressAnim := interruptInProgressAnim a;
     currPos := currPos a; startPos := startPos a; mem := mem a |}.

Definition set_nextFinishAnim (v : option AnimName) (a : Anim) : Anim :=
  {| timeAtLastAnimUpdate := timeAtLastAnimUpdate a; currAnim := currAnim a;
     finishAnim := finishAnim a; timeAtStartOfFrame := timeAtStartOfFrame a;
     targetFrame := targetFrame a; animNumLoops := animNumLoops a;
     animCompleteStr := animCompleteStr a; animInProgress := animInProgress a;
     nextAnim := nextAnim a; nextFinishAnim := v;
     nextAnimNumLoops := nextAnimNumLoops a;
     nextAnimCompleteStr := nextAnimCompleteStr a;
     interruptInProgressAnim := interruptInProgressAnim a;
     currPos := currPos a; startPos := startPos a; mem := mem a |}.

Definition set_nextAnimNumLoops (v : Z) (a : Anim) : Anim :=
  {| timeAtLastAnimUpdate := timeAtLastAnimUpdate a; currAnim := currAnim a;
     finishAnim := finishAnim a; timeAtStartOfFrame := timeAtStartOfFrame a;
     targetFrame := targetFrame a; animNumLoops := animNumLoops a;
     animCompleteStr := animCompleteStr a; animInProgress := animInProgress a;
     nextAnim := nextAnim a; nextFinishAnim := nextFinishAnim a;
     nextAnimNumLoops := v; nextAnimCompleteStr := nextAnimCompleteStr a;
     interruptInProgressAnim := interruptInProgressAnim a;
     currPos := currPos a; startPos := startPos a; mem := mem a |}.

Definition set_nextAnimCompleteStr (v : Tag) (a : Anim) : Anim :=
  {| timeAtLastAnimUpdate := timeAtLastAnimUpdate a; currAnim := currAnim a;
     finishAnim := finishAnim a; timeAtStartOfFrame := timeAtStartOfFrame a;
     targetFrame := targetFrame a; animNumLoops := animNumLoops a;
     animCompleteStr := animCompleteStr a; animInProgress := animInProgress a;
     nextAnim := nextAnim a; nextFinishAnim := nextFinishAnim a;
     nextAnimNumLoops := nextAnimNumLoops a; nextAnimCompleteStr := v;
     interruptInProgressAnim := interruptInProgressAnim a;
     currPos := currPos a; startPos := startPos a; mem := mem a |}.

Definition set_interruptInProgressAnim (v : bool) (a : Anim) : Anim :=
  {| timeAtLastAnimUpdate := timeAtLastAnimUpdate a; currAnim := currAnim a;
     finishAnim := finishAnim a; timeAtStartOfFrame := timeAtStartOfFrame a;
     targetFrame := targetFrame a; animNumLoops := animNumLoops a;
     animCompleteStr := animCompleteStr a; animInProgress := animInProgress a;
     nextAnim := nextAnim a; nextFinishAnim := nextFinishAnim a;
     nextAnimNumLoops := nextAnimNumLoops a;
     nextAnimCompleteStr := nextAnimCompleteStr a;
     interruptInProgressAnim := v; currPos := currPos a;
     startPos := startPos a; mem := mem a |}.

Definition set_currPos (v : Joints) (a : Anim) : Anim :=
  {| timeAtLastAnimUpdate := timeAtLastAnimUpdate a; currAnim := currAnim a;
     finishAnim := finishAnim a; timeAtStartOfFrame := timeAtStartOfFrame a;
     targetFrame := targetFrame a; animNumLoops := animNumLoops a;
     animCompleteStr := animCompleteStr a; animInProgress := animInProgress a;
     nextAnim := nextAnim a; nextFinishAnim := nextFinishAnim a;
     nextAnimNumLoops := nextAnimNumLoops a;
     nextAnimCompleteStr := nextAnimCompleteStr a;
     interruptInProgressAnim := interruptInProgressAnim a; currPos := v;
     startPos := startPos a; mem := mem a |}.

Definition set_startPos (v : Joints) (a : Anim) : Anim :=
  {| timeAtLastAnimUpdate := timeAtLastAnimUpdate a; currAnim := currAnim a;
     finishAnim := finishAnim a; timeAtStartOfFrame := timeAtStartOfFrame a;
     targetFrame := targetFrame a; animNumLoops := animNumLoops a;
     animCompleteStr := animCompleteStr a; animInProgress := animInProgress a;
     nextAnim := nextAnim a; nextFinishAnim := nextFinishAnim a;
     nextAnimNumLoops := nextAnimNumLoops a;
     nextAnimCompleteStr := nextAnimCompleteStr a;
     interruptInProgressAnim := interruptInProgressAnim a;
     currPos := currPos a; startPos := v; mem := mem a |}.

Definition set_mem (v : AnimName -> AnimData) (a : Anim) : Anim :=
  {| timeAtLastAnimUpdate := timeAtLastAnimUpdate a; currAnim := currAnim a;
     finishAnim := finishAnim a; timeAtStartOfFrame := timeAtStartOfFrame a;
     targetFrame := targetFrame a; animNumLoops := animNumLoops a;
     animCompleteStr := animCompleteStr a; animInProgress := animInProgress a;
     nextAnim := nextAnim a; nextFinishAnim := nextFinishAnim a;
     nextAnimNumLoops := nextAnimNumLoops a;
     nextAnimCompleteStr := nextAnimCompleteStr a;
     interruptInProgressAnim := interruptInProgressAnim a;
     currPos := currPos a; startPos := startPos a; mem := v |}.

(* ------------------------------------------------------------------ *)
(** ** What the sketch sends out *)

(** - [Println s]: one line [s] written to the serial port (the sketch
      prints a line in up to three pieces; the event is the whole line);
    - [Positioned pos]: the [UpdateServos()] call of [setup_Animation];
    - [Resolved a f pos]: the [UpdateServos()] call of the frame switch,
      made after keyframe [f] of animation [a] was copied to the servo
      variables, now [pos];
    - [Tweened a f elapsed duration pos]: the [UpdateServos()] call after
      interpolating towards keyframe [f] of [a]; [elapsed] and [duration]
      are the operands of the division that computes [frameTimeFraction]. *)
Inductive Event :=
| Println (s : string)
| Positioned (pos : Joints)
| Resolved (a : option AnimName) (f : Z) (pos : Joints)
| Tweened (a : option AnimName) (f : Z) (elapsed duration : Z) (pos : Joints).

Definition tag_string (t : Tag) : string :=
  String (fst t) (String (snd t) EmptyString).

(** ["<" animCompleteStr ">"] and ["<" animCompleteStr ",-1>"]. *)
Definition complete_line (t : Tag) : string :=
  ("<" ++ tag_string t ++ ">")%string.
Definition interrupted_line (t : Tag) : string :=
  ("<" ++ tag_string t ++ ",-1>")%string.

(* ------------------------------------------------------------------ *)
(** ** Queueing animations *)

Definition millisBetweenAnimUpdate : Z := 20.

Definition PlayAnimNumTimes (animToPlay finish : option AnimName)
    (numTimes : Z) (completeStr : option Tag) (a : Anim) : Anim :=
  let a := set_nextAnim animToPlay a in
  let a := set_nextFinishAnim finish a in
  let a := set_nextAnimNumLoops numTimes a in
  match completeStr with
  | None => set_nextAnimCompleteStr no_tag a
  | Some s => set_nextAnimCompleteStr s a
  end.

Definition PlayAnim (animToPlay finish : option AnimName)
    (completeStr : option Tag) (a : Anim) : Anim :=
  PlayAnimNumTimes animToPlay finish 1 completeStr a.

Definition LoopAnim (animToPlay finish : option AnimName)
    (completeStr : option Tag) (a : Anim) : Anim :=
  PlayAnimNumTimes animToPlay finish (-1) completeStr a.

Definition StopAnim (completeStr : option Tag) (a : Anim) : Anim :=
  PlayAnimNumTimes (Some standStraightAnim) None 1 completeStr a.

Definition StopAnimImmediate (completeStr : option Tag) (a : Anim) : Anim :=
  let a := set_interruptInProgressAnim true a in
  PlayAnimNumTimes (Some standStraightAnim) None 1 completeStr a.

Definition ptr_eqb (p q : option AnimName) : bool :=
  match p, q with
  | None, None => true
  | Some x, Some y => if AnimName_eq_dec x y then true else false
  | _, _ => false
  end.

(** The buffer [SetServos] picks for [tweenServoData]. *)
Definition tweenServoData (a : Anim) : AnimName :=
  if negb (ptr_eqb (currAnim a) (Some setServosAnim1))
  then setServosAnim1 else setServosAnim2.

(** [m] with the array [n] replaced by [d]. *)
Definition store (m : AnimName -> AnimData) (n : AnimName) (d : AnimData)
  : AnimName -> AnimData :=
  fun x => if AnimName_eq_dec x n then d else m x.

Definition SetServos (P : Platform)
    (tweenTime leftHip leftFoot rightHip rightFoot : Z)
    (completeStr : option Tag) (a : Anim) : Anim :=
  let a := match completeStr with
           | None => set_nextAnimCompleteStr no_tag a
           | Some s => set_nextAnimCompleteStr s a
           end in
  let buf := tweenServoData a in
  let d := mem a buf in
  let d := set_cell d 1 TWEEN_TIME_VALUE tweenTime in
  let d := set_cell d 1 LEFT_HIP_VALUE   (LeftHipIn P leftHip) in
  let d := set_cell d 1 LEFT_FOOT_VALUE  (LeftFootUp P leftFoot) in
  let d := set_cell d 1 RIGHT_HIP_VALUE  (RightHipIn P rightHip) in
  let d := set_cell d 1 RIGHT_FOOT_VALUE (RightFootUp P rightFoot) in
  let a := set_mem (store (mem a) buf d) a in
  PlayAnim (Some buf) None completeStr a.

(* ------------------------------------------------------------------ *)
(** ** [setup_Animation] *)

Definition centre_pose : Joints :=
  {| LeftHip := LEFT_HIP_CENTRE; LeftFoot := LEFT_FOOT_CENTRE;
     RightHip := RIGHT_HIP_CENTRE; RightFoot := RIGHT_FOOT_CENTRE |}.

(** The sequencer variables after [setup_Animation], [now] being what
    [millis()] returned; variables the function does not assign have their
    static initial value. *)
Definition setup_Animation (P : Platform) (now : Z) : Anim :=
  {| timeAtLastAnimUpdate := now;
     currAnim := None; finishAnim := None;
     timeAtStartOfFrame := 0; targetFrame := 0; animNumLoops := 0;
     animCompleteStr := no_tag;
     animInProgress := false;
     nextAnim := None; nextFinishAnim := None; nextAnimNumLoops := 0;
     nextAnimCompleteStr := no_tag;
     interruptInProgressAnim := false;
     currPos := centre_pose; startPos := centre_pose;
     mem := initial_mem P |}.

(* ------------------------------------------------------------------ *)
(** ** [loop_Animation] *)

(** The array a pointer refers to.  The sketch only dereferences [currAnim]
    while [animInProgress] is set, and then it is not null. *)
Definition deref (a : Anim) (p : option AnimName) : AnimData :=
  match p with Some n => mem a n | None => [] end.

Definition is_null (p : option AnimName) : bool :=
  match p with None => true | Some _ => false end.

(** Start the queued animation: taken when something is queued and either
    nothing is playing or an interrupt was requested. *)
Definition start_next_anim (a : Anim) (currTime : Z) : Anim * list Event :=
  if negb (is_null (nextAnim a))
     && (negb (animInProgress a) || interruptInProgressAnim a) then
    let '(a, ev) :=
      if interruptInProgressAnim a then
        let ev := [Println (interrupted_line (animCompleteStr a))] in
        let a := set_startPos (currPos a) a in
        let a := set_interruptInProgressAnim false a in
        (a, ev)
      else (a, []) in
    let a := set_currAnim (nextAnim a) a in
    let a := set_finishAnim (nextFinishAnim a) a in
    let a := set_animCompleteStr (nextAnimCompleteStr a) a in
    let a := set_nextAnim None a in
    let a := set_nextFinishAnim None a in
    let a := set_nextAnimCompleteStr no_tag a in
    let a := set_animNumLoops (nextAnimNumLoops a) a in
    let a := set_timeAtStartOfFrame currTime a in
    let a := set_targetFrame 1 a in
    let a := set_animInProgress true a in
    (a, ev)
  else (a, []).

(** The end of the last pass: switch to the finish animation if there is
    one, else report completion.  (The sketch has this block twice, under
    the "looping forever, something queued" case and under the final
    [else].) *)
Definition finish_or_report (a : Anim) (currTime : Z) : Anim * list Event :=
  if negb (is_null (finishAnim a)) then
    let a := set_currAnim (finishAnim a) a in
    let a := set_finishAnim None a in
    let a := set_animNumLoops 1 a in
    let a := set_timeAtStartOfFrame currTime a in
    let a := set_targetFrame 1 a in
    let a := set_animInProgress true a in
    (a, [])
  else (a, [Println (complete_line (animCompleteStr a))]).

(** Copy the target keyframe's values to the servo variables, leaving out
    the negative ones. *)
Definition resolve_frame (d : AnimData) (f : Z) (pos : Joints) : Joints :=
  let pos := if cell d f LEFT_HIP_VALUE >=? 0
             then set_LeftHip (cell d f LEFT_HIP_VALUE) pos else pos in
  let pos := if cell d f LEFT_FOOT_VALUE >=? 0
             then set_LeftFoot (cell d f LEFT_FOOT_VALUE) pos else pos in
  let pos := if cell d f RIGHT_HIP_VALUE >=? 0
             then set_RightHip (cell d f RIGHT_HIP_VALUE) pos else pos in
  let pos := if cell d f RIGHT_FOOT_VALUE >=? 0
             then set_RightFoot (cell d f RIGHT_FOOT_VALUE) pos else pos in
  pos.

(** The frame switch: taken while an animation is in progress, it moves on
    to the next keyframe once the time in the current one exceeds its tween
    time, and decides what follows the last keyframe. *)
Definition switch_frame (P : Platform) (a : Anim) (currTime : Z)
  : Anim * list Event :=
  let timeInCurrFrame := to_int P (to_long (currTime - timeAtStartOfFrame a)) in
  if timeInCurrFrame
       >? cell (deref a (currAnim a)) (targetFrame a) TWEEN_TIME_VALUE then
    let a := set_currPos
               (resolve_frame (deref a (currAnim a)) (targetFrame a) (currPos a))
               a in
    let ev := [Resolved (currAnim a) (targetFrame a) (currPos a)] in
    let a := set_startPos (currPos a) a in
    let a := set_targetFrame (to_int P (targetFrame a + 1)) a in
    let a := set_timeAtStartOfFrame currTime a in
    if targetFrame a >? NumOfFrames (deref a (currAnim a)) then
      let a := set_animInProgress false a in
      if (animNumLoops a <? 0) && is_null (nextAnim a) then
        (LoopAnim (currAnim a) (finishAnim a) (Some (animCompleteStr a)) a, ev)
      else if (animNumLoops a <? 0) && negb (is_null (nextAnim a)) then
        let '(a, ev') := finish_or_report a currTime in (a, ev ++ ev')
      else if (animNumLoops a >? 1) && is_null (nextAnim a) then
        (PlayAnimNumTimes (currAnim a) (finishAnim a)
           (to_int P (animNumLoops a - 1)) (Some (animCompleteStr a)) a, ev)
      else
        let '(a, ev') := finish_or_report a currTime in (a, ev ++ ev')
    else (a, ev)
  else (a, []).

(** One interpolated servo value: untouched when the keyframe's value is
    negative. *)
Definition tween_joint (P : Platform) (d : AnimData) (f column : Z)
    (elapsed : Z) (startVal currVal : Z) : Z :=
  if cell d f column >=? 0
  then tween P startVal (cell d f column) elapsed (cell d f TWEEN_TIME_VALUE)
  else currVal.

(** The interpolation towards the target keyframe. *)
Definition tween_servos (P : Platform) (a : Anim) (currTime : Z)
  : Anim * list Event :=
  let d := deref a (currAnim a) in
  let f := targetFrame a in
  let elapsed := to_long (currTime - timeAtStartOfFrame a) in
  let pos :=
    {| LeftHip   := tween_joint P d f LEFT_HIP_VALUE elapsed
                      (LeftHip (startPos a)) (LeftHip (currPos a));
       LeftFoot  := tween_joint P d f LEFT_FOOT_VALUE elapsed
                      (LeftFoot (startPos a)) (LeftFoot (currPos a));
       RightHip  := tween_joint P d f RIGHT_HIP_VALUE elapsed
                      (RightHip (startPos a)) (RightHip (currPos a));
       RightFoot := tween_joint P d f RIGHT_FOOT_VALUE elapsed
                      (RightFoot (startPos a)) (RightFoot (currPos a)) |} in
  (set_currPos pos a,
   [Tweened (currAnim a) f elapsed (cell d f TWEEN_TIME_VALUE) pos]).

(** The update of the animation being played: the frame switch, and the
    interpolation if an animation is still in progress after it. *)
Definition update_current_anim (P : Platform) (a : Anim) (currTime : Z)
  : Anim * list Event :=
  if animInProgress a then
    let '(a, ev2) := switch_frame P a currTime in
    if animInProgress a then
      let '(a, ev3) := tween_servos P a currTime in
      (a, ev2 ++ ev3)
    else (a, ev2)
  else (a, []).

(** One call of [loop_Animation], [currTime] being what [millis()]
    returned. *)
Definition loop_Animation (P : Platform) (a : Anim) (currTime : Z)
  : Anim * list Event :=
  if to_long (timeAtLastAnimUpdate a + millisBetweenAnimUpdate) >? currTime
  then (a, [])
  else
    let a := set_timeAtLastAnimUpdate currTime a in
    let '(a, ev1) := start_next_anim a currTime in
    let '(a, ev2) := update_current_anim P a currTime in
    (a, ev1 ++ ev2).

(* ------------------------------------------------------------------ *)
(** ** The command handler (second half of [loop_Parser]) *)

Definition is_cmd (c : Command) (x y : ascii) : bool :=
  Ascii.eqb (cmd0 c) x && Ascii.eqb (cmd1 c) y.

(** [numTimes] as every animation command computes it. *)
Definition numTimes_of (c : Command) : Z :=
  if param1 c <? 0 then -1 else param1 c.

Definition handle_command (P : Platform) (c : Command) (a : Anim)
  : Anim * list Event :=
  let play anim finish tag :=
    (PlayAnimNumTimes (Some anim) finish (numTimes_of c) (Some tag) a, []) in
  if is_cmd c "O" "K" then (a, [Println "<OK>"])
  else if is_cmd c "S" "V" then
    let tweenTime := if param1 c <? 0 then 0 else param1 c in
    (SetServos P tweenTime (param2 c) (param3 c) (param4 c) (param5 c)
       (Some ("S", "V")%char) a, [])
  else if is_cmd c "S" "T" then (StopAnim (Some ("S", "T")%char) a, [])
  else if is_cmd c "S" "I" then
    (StopAnimImmediate (Some ("S", "I")%char) a, [])
  else if is_cmd c "F" "W" then
    play walkForwardAnim (Some walkEndAnim) ("F", "W")%char
  else if is_cmd c "B" "W" then
    play walkBackwardAnim (Some walkEndAnim) ("B", "W")%char
  else if is_cmd c "L" "T" then play turnLeftAnim None ("L", "T")%char
  else if is_cmd c "R" "T" then play turnRightAnim None ("R", "T")%char
  else if is_cmd c "S" "X" then play shakeHeadAnim None ("S", "X")%char
  else if is_cmd c "B" "X" then play bounceAnim None ("B", "X")%char
  else if is_cmd c "W" "X" then play wobbleAnim None ("W", "X")%char
  else if is_cmd c "W" "Y" then play wobbleLeftAnim None ("W", "Y")%char
  else if is_cmd c "W" "Z" then play wobbleRightAnim None ("W", "Z")%char
  else if is_cmd c "T" "X" then play tapFeetAnim None ("T", "X")%char
  else if is_cmd c "T" "Y" then play tapLeftFootAnim None ("T", "Y")%char
  else if is_cmd c "T" "Z" then play tapRightFootAnim None ("T", "Z")%char
  else if is_cmd c "L" "X" then play shakeLegsAnim None ("L", "X")%char
  else if is_cmd c "L" "Y" then play shakeLeftLegAnim None ("L", "Y")%char
  else if is_cmd c "L" "Z" then play shakeRightLegAnim None ("L", "Z")%char
  else (a, []).

(* ------------------------------------------------------------------ *)
(** ** The sketch as a whole *)

Record Robot := { parser : Parser; anim : Anim }.

(** [setup()]; the boot message of [setup_Parser] and the first
    [UpdateServos()] are its output. *)
Definition setup (P : Platform) (now : Z) : Robot * list Event :=
  ({| parser := setup_Parser; anim := setup_Animation P now |},
   [Println "<OK>"; Positioned centre_pose]).

(** One call of [loop_Parser]; [avail] is the byte [softwareSerial.read()]
    returns, if one is available. *)
Definition loop_Parser (P : Platform) (r : Robot) (avail : option ascii)
  : Robot * list Event :=
  match avail with
  | None => (r, [])
  | Some c =>
      let '(p, done) := parser_step P (parser r) c in
      match done with
      | Some cmd =>
          let '(a, ev) := handle_command P cmd (anim r) in
          ({| parser := p; anim := a |}, ev)
      | None => ({| parser := p; anim := anim r |}, [])
      end
  end.

(** One turn of [loop()]. *)
Definition loop (P : Platform) (r : Robot) (avail : option ascii) (now : Z)
  : Robot * list Event :=
  let '(r, ev1) := loop_Parser P r avail in
  let '(a, ev2) := loop_Animation P (anim r) now in
  ({| parser := parser r; anim := a |}, ev1 ++ ev2).

(** Many turns of [loop()], one per element of [inputs]. *)
Fixpoint run (P : Platform) (r : Robot) (inputs : list (option ascii * Z))
  : Robot * list Event :=
  match inputs with
  | [] => (r, [])
  | (avail, now) :: rest =>
      let '(r1, ev1) := loop P r avail now in
      let '(r2, ev2) := run P r1 rest in
      (r2, ev1 ++ ev2)
  end.

(** Many calls of [loop_Animation] with nothing arriving in between. *)
Fixpoint run_ticks (P : Platform) (a : Anim) (times : list Z)
  : Anim * list Event :=
  match times with
  | [] => (a, [])
  | now :: rest =>
      let '(a1, ev1) := loop_Animation P a now in
      let '(a2, ev2) := run_ticks P a1 rest in
      (a2, ev1 ++ ev2)
  end.

(** The lines printed, in order. *)
Fixpoint lines (evs : list Event) : list string :=
  match evs with
  | [] => []
  | Println s :: rest => s :: lines rest
  | _ :: rest => lines rest
  end.

(** What is seen of a playback: the keyframes reached and the lines
    printed. *)
Inductive Played :=
| Frame (a : AnimName) (f : Z)
| Line (s : string).

Fixpoint played (evs : list Event) : list Played :=
  match evs with
  | [] => []
  | Println s :: rest => Line s :: played rest
  | Resolved (Some a) f _ :: rest => Frame a f :: played rest
  | _ :: rest => played rest
  end.

(** A board to run examples on: 16-bit [int], and a [tween] that computes
    the interpolation exactly and truncates (with a zero tween time it
    stays at the start value; what the float arithmetic yields there is
    not modelled). *)
Definition exact_tween (startVal target elapsed duration : Z) : Z :=
  startVal + Z.quot ((target - startVal) * elapsed) duration.

Definition uno : Platform :=
  {| int_bits := 16;
     int_bits_ge_16 := Z.le_refl 16;
     int_bits_le_32 := ltac:(lia);
     tween := exact_tween |}.

(** The same with a 32-bit [int]. *)
Definition due : Platform :=
  {| int_bits := 32;
     int_bits_ge_16 := ltac:(lia);
     int_bits_le_32 := Z.le_refl 32;
     tween := exact_tween |}.

(* ------------------------------------------------------------------ *)
(** ** The command grammar, as text

    The wire format is ["<" CODE ("," PARAM){0,5} ">"].  The definitions
    below describe command texts independently of the state machine, so
    that the parser can be compared with them. *)

Definition is_upper (c : ascii) : bool :=
  (65 <=? Z.of_N (N_of_ascii c)) && (Z.of_N (N_of_ascii c) <=? 90).

Definition is_digit (c : ascii) : bool :=
  (48 <=? Z.of_N (N_of_ascii c)) && (Z.of_N (N_of_ascii c) <=? 57).

(** A parameter as written: a sign and digit characters. *)
Record ParamText := { negative : bool; digits : list ascii }.

(** A command as written: two letters and its parameters. *)
Record CommandText := {
  letter0 : ascii; letter1 : ascii; params : list ParamText
}.

Definition render_param (p : ParamText) : list ascii :=
  (if negative p then ["-"%char] else []) ++ digits p.

Definition render_command (c : CommandText) : list ascii :=
  START_CHAR :: letter0 c :: letter1 c
    :: flat_map (fun p => SEP_CHAR :: render_param p) (params c)
    ++ [END_CHAR].

(** The characters a parameter takes, sign included. *)
Definition param_length (p : ParamText) : nat :=
  ((if negative p then 1 else 0) + List.length (digits p))%nat.

(** Well-formed parameter: at least one digit, nothing but digits, and at
    most [MAX_PARAM_LENGTH] characters with the sign. *)
Definition wf_param (p : ParamText) : bool :=
  forallb is_digit (digits p)
  && (1 <=? List.length (digits p))%nat
  && (Z.of_nat (param_length p) <=? MAX_PARAM_LENGTH).

Definition wf_command (c : CommandText) : bool :=
  is_upper (letter0 c) && is_upper (letter1 c)
  && (List.length (params c) <=? 5)%nat
  && forallb wf_param (params c).

(** The number a digit string denotes. *)
Definition decimal_value (ds : list ascii) : Z :=
  fold_left (fun v d => v * 10 + (Z.of_N (N_of_ascii d) - 48)) ds 0.

Definition param_value (P : Platform) (p : ParamText) : Z :=
  to_int P (if negative p then - decimal_value (digits p)
            else decimal_value (digits p)).

(** The command with letters [l0 l1] and parameter values [v]; parameters
    left out are 0. *)
Definition command_with (l0 l1 : ascii) (v : list Z) : Command :=
  {| cmd0 := l0; cmd1 := l1;
     param1 := nth 0 v 0; param2 := nth 1 v 0; param3 := nth 2 v 0;
     param4 := nth 3 v 0; param5 := nth 4 v 0 |}.

(** The command a command text stands for. *)
Definition command_value (P : Platform) (c : CommandText) : Command :=
  command_with (letter0 c) (letter1 c) (map (param_value P) (params c)).

(** A character of line noise: anything but the start marker. *)
Definition is_noise (c : ascii) : bool := negb (Ascii.eqb c START_CHAR).

(** Commands with noise before each of them and after the last. *)
Definition noisy (segments : list (list ascii * CommandText))
    (trailer : list ascii) : list ascii :=
  flat_map (fun '(noise, c) => noise ++ render_command c) segments ++ trailer.

(** The same commands with the noise taken out. *)
Definition clean (segments : list (list ascii * CommandText)) : list ascii :=
  flat_map (fun '(_, c) => render_command c) segments.

(* ------------------------------------------------------------------ *)
(** ** Noise removal as the specification words it

    "The well-formed subsequence with noise removed": every piece of the
    input that matches the grammar
    ["<" CODE ("," PARAM){0,5} ">"], CODE two upper-case letters, PARAM an
    optional ['-'] and one to six digits, is kept; everything else goes. *)

Fixpoint digit_run (s : list ascii) : nat :=
  match s with
  | c :: s' => if is_digit c then S (digit_run s') else O
  | [] => O
  end.

(** Length of the PARAM at the head of [s], if there is one. *)
Definition spec_param_length (s : list ascii) : option nat :=
  let '(sign, body) :=
    match s with
    | c :: s' => if Ascii.eqb c "-"%char then (1%nat, s') else (O, s)
    | [] => (O, s)
    end in
  let d := digit_run body in
  if ((1 <=? d) && (d <=? 6))%nat then Some (sign + d)%nat else None.

(** Length of [("," PARAM){0,k} ">"] at the head of [s], if it is there. *)
Fixpoint spec_params_length (k : nat) (s : list ascii) : option nat :=
  match s with
  | c :: s' =>
      if Ascii.eqb c END_CHAR then Some 1%nat
      else if Ascii.eqb c SEP_CHAR then
        match k with
        | O => None
        | S k' =>
            match spec_param_length s' with
            | Some n =>
                match spec_params_length k' (skipn n s') with
                | Some m => Some (1 + n + m)%nat
                | None => None
                end
            | None => None
            end
        end
      else None
  | [] => None
  end.

(** Length of the grammatical command at the head of [s], if one starts
    there. *)
Definition spec_command_length (s : list ascii) : option nat :=
  match s with
  | lt :: x :: y :: rest =>
      if Ascii.eqb lt START_CHAR && is_upper x && is_upper y then
        match spec_params_length 5 rest with
        | Some n => Some (3 + n)%nat
        | None => None
        end
      else None
  | _ => None
  end.

(** [keep] counts the characters of a recognised command still to copy. *)
Fixpoint spec_strip_noise_from (keep : nat) (s : list ascii) : list ascii :=
  match s with
  | [] => []
  | c :: s' =>
      match keep with
      | S k => c :: spec_strip_noise_from k s'
      | O =>
          match spec_command_length s with
          | Some (S n) => c :: spec_strip_noise_from n s'
          | _ => spec_strip_noise_from O s'
          end
      end
  end.

Definition spec_strip_noise (s : string) : string :=
  string_of_list_ascii (spec_strip_noise_from O (list_ascii_of_string s)).

(* ------------------------------------------------------------------ *)
(** ** Writing numbers in decimal *)

Definition digit_char (d : Z) : ascii := ascii_of_N (Z.to_N (48 + d)).

(** The digits of [n >= 0], most significant first; [fuel] bounds their
    number. *)
Fixpoint decimal_digits (fuel : nat) (n : Z) : list ascii :=
  match fuel with
  | O => []
  | S fuel' =>
      (if n <? 10 then [] else decimal_digits fuel' (n / 10))
      ++ [digit_char (n mod 10)]
  end.

(** [n] as a parameter text: a minus sign when negative, then the digits
    of its absolute value without leading zeros. *)
Definition param_text_of (n : Z) : ParamText :=
  {| negative := n <? 0;
     digits := decimal_digits (S (Z.to_nat (Z.log2 (Z.abs n)))) (Z.abs n) |}.

(** The text ["<SV,0,n,0,0,0>"]. *)
Definition sv_command_text (n : Z) : CommandText :=
  {| letter0 := "S"; letter1 := "V";
     params := [param_text_of 0; param_text_of n; param_text_of 0;
                param_text_of 0; param_text_of 0] |}.

Definition sv_message (n : Z) : string :=
  string_of_list_ascii (render_command (sv_command_text n)).

(* ------------------------------------------------------------------ *)
(** ** Auxiliary definitions for the proofs *)

(** The parser variables with the five parameter values given as a list. *)
Definition parser_at (st : Z) (l0 l1 : ascii) (ci : Z) (vals : list Z)
    (idx : Z) (neg : bool) : Parser :=
  {| currParserState := st; currCmd0 := l0; currCmd1 := l1;
     currCmdIndex := ci;
     currParam1Val := nth 0 vals 0; currParam2Val := nth 1 vals 0;
     currParam3Val := nth 2 vals 0; currParam4Val := nth 3 vals 0;
     currParam5Val := nth 4 vals 0;
     currParamIndex := idx; currParamNegative := neg |}.

(** The value a parameter variable holds once its sign was applied. *)
Definition signed_value (P : Platform) (neg : bool) (v : Z) : Z :=
  if neg then to_int P (-1 * v) else v.

(** The tag a completion string argument stands for (["--"] for [NULL]). *)
Definition tag_of (completeStr : option Tag) : Tag :=
  match completeStr with Some t => t | None => no_tag end.

(** The servo positions after interpolating from [from] towards the
    stand-straight pose, [elapsed] into its tween time of 300. *)
Definition towards_centre (P : Platform) (from : Joints) (elapsed : Z)
  : Joints :=
  {| LeftHip   := tween P (LeftHip from) LEFT_HIP_CENTRE elapsed 300;
     LeftFoot  := tween P (LeftFoot from) LEFT_FOOT_CENTRE elapsed 300;
     RightHip  := tween P (RightHip from) RIGHT_HIP_CENTRE elapsed 300;
     RightFoot := tween P (RightFoot from) RIGHT_FOOT_CENTRE elapsed 300 |}.

(* ------------------------------------------------------------------ *)
(** ** What a playback looks like

    Definitions used to state what the sequencer plays: the keyframes of
    an animation in order, a number of passes, the finish animation, the
    completion line. *)

(** Keyframes [f], [f + 1], .., [count] of animation [c]. *)
Definition frames_from (c : AnimName) (f count : Z) : list Played :=
  map (fun k => Frame c (f + Z.of_nat k)) (seq 0 (Z.to_nat (count - f + 1))).

(** One full pass of the animation [c] as stored in [m]. *)
Definition pass (m : AnimName -> AnimData) (c : AnimName) : list Played :=
  frames_from c 1 (NumOfFrames (m c)).

Definition passes (n : nat) (p : list Played) : list Played :=
  List.concat (repeat p n).

(** What follows the last pass: the finish animation, if any, once, and
    then the completion line. *)
Definition ending (m : AnimName -> AnimData) (finish : option AnimName)
    (tag : Tag) : list Played :=
  match finish with Some f => pass m f | None => [] end
  ++ [Line (complete_line tag)].

(** The passes a loop count of zero or more stands for. *)
Definition loops_to_play (numLoops : Z) : nat := Z.to_nat (Z.max 1 numLoops).

(** The playback of one queued command. *)
Definition playback (m : AnimName -> AnimData) (c : AnimName)
    (finish : option AnimName) (numLoops : Z) (tag : Tag) : list Played :=
  passes (loops_to_play numLoops) (pass m c) ++ ending m finish tag.

(** What remains to be played in state [a] when nothing else is queued:
    the rest of the current pass, the passes still to come, the ending;
    or, between passes, the playback of what is queued. *)
Definition remaining (a : Anim) : list Played :=
  if animInProgress a then
    match currAnim a with
    | Some c =>
        frames_from c (targetFrame a) (NumOfFrames (mem a c))
        ++ passes (loops_to_play (animNumLoops a) - 1) (pass (mem a) c)
        ++ ending (mem a) (finishAnim a) (animCompleteStr a)
    | None => []
    end
  else
    match nextAnim a with
    | Some c =>
        playback (mem a) c (nextFinishAnim a) (nextAnimNumLoops a)
          (nextAnimCompleteStr a)
    | None => []
    end.

(** An animation pointer is playable on board [P] when it is null or its
    frame count is at least 1 and below [INT_MAX]. *)
Definition playable (P : Platform) (m : AnimName -> AnimData)
    (p : option AnimName) : Prop :=
  match p with
  | Some c => 1 <= NumOfFrames (m c) < INT_MAX P
  | None => True
  end.

(** The states of a playback that runs undisturbed: no interrupt pending,
    loop counts not negative; while an animation is in progress the target
    frame is one of its keyframes and the queue is empty. *)
Definition steady (P : Platform) (a : Anim) : Prop :=
  interruptInProgressAnim a = false
  /\ if animInProgress a then
       (exists c, currAnim a = Some c
                  /\ 1 <= targetFrame a <= NumOfFrames (mem a c)
                  /\ NumOfFrames (mem a c) < INT_MAX P)
       /\ nextAnim a = None
       /\ 0 <= animNumLoops a <= INT_MAX P
       /\ playable P (mem a) (finishAnim a)
     else
       match nextAnim a with
       | Some c =>
           1 <= NumOfFrames (mem a c) < INT_MAX P
           /\ 0 <= nextAnimNumLoops a <= INT_MAX P
           /\ playable P (mem a) (nextFinishAnim a)
       | None => True
       end.

(* ------------------------------------------------------------------ *)
(** ** Calls that come regularly

    Definitions used to state that a playback comes to its end: the calls
    of [loop_Animation] are at least one update period apart and at most
    [G] milliseconds, and no keyframe takes longer than [D]. *)

Definition all_anims : list AnimName :=
  [ standStraightAnim; walkForwardAnim; walkBackwardAnim; walkEndAnim;
    turnLeftAnim; turnRightAnim; shakeHeadAnim;
    wobbleAnim; wobbleLeftAnim; wobbleRightAnim;
    tapFeetAnim; tapLeftFootAnim; tapRightFootAnim; bounceAnim;
    shakeLegsAnim; shakeLeftLegAnim; shakeRightLegAnim;
    setServosAnim1; setServosAnim2 ].

(** No row of any array starts with a value above [D]. *)
Definition tween_times_within (m : AnimName -> AnimData) (D : Z) : bool :=
  forallb (fun n => forallb (fun row => nth 0 row 0 <=? D) (m n)) all_anims.

(** The calls at [times] follow the one at [prev]: each comes between
    [millisBetweenAnimUpdate] and [G] milliseconds after the one before,
    and [millis()] has not yet left the range of [long]. *)
Fixpoint paced (G prev : Z) (times : list Z) : bool :=
  match times with
  | [] => true
  | t :: rest =>
      (prev + millisBetweenAnimUpdate <=? t) && (t <=? prev + G)
      && (t <=? 2147483647) && paced G t rest
  end.

(** Calls a keyframe of at most [D] milliseconds can take, and one more. *)
Definition ticks_per_frame (D : Z) : Z := D / millisBetweenAnimUpdate + 2.

(** Twice the events still to play, plus one while something waits in the
    queue to be started. *)
Definition work_left (a : Anim) : Z :=
  2 * Z.of_nat (List.length (remaining a))
  + (if animInProgress a then 0
     else if is_null (nextAnim a) then 0 else 1).

(** A bound on the calls still needed to play what remains. *)
Definition ticks_left (D : Z) (a : Anim) : Z :=
  ticks_per_frame D * work_left a
  - (if animInProgress a
     then (timeAtLastAnimUpdate a - timeAtStartOfFrame a)
          / millisBetweenAnimUpdate
     else 0).

(** While a keyframe is the target, the time spent in it up to the last
    update is within its tween time's bound. *)
Definition timed (D : Z) (a : Anim) : Prop :=
  animInProgress a = true ->
  0 <= timeAtLastAnimUpdate a - timeAtStartOfFrame a <= D.

(** [n] calls, [period] milliseconds apart, the first one [period] after
    [from]. *)
Fixpoint ticks_every (period : Z) (n : nat) (from : Z) : list Z :=
  match n with
  | O => []
  | S k => (from + period) :: ticks_every period k (from + period)
  end.

(* ------------------------------------------------------------------ *)
(** ** Loop counts 0 and 1 *)

(** Two loop counts that are the same, or 0 and 1 in some order. *)
Definition loops_alike (x y : Z) : Prop :=
  x = y \/ (0 <= x <= 1 /\ 0 <= y <= 1).

(** Two sequencer states that differ at most in loop counts that are
    alike. *)
Definition alike (a b : Anim) : Prop :=
  timeAtLastAnimUpdate a = timeAtLastAnimUpdate b
  /\ currAnim a = currAnim b
  /\ finishAnim a = finishAnim b
  /\ timeAtStartOfFrame a = timeAtStartOfFrame b
  /\ targetFrame a = targetFrame b
  /\ loops_alike (animNumLoops a) (animNumLoops b)
  /\ animCompleteStr a = animCompleteStr b
  /\ animInProgress a = animInProgress b
  /\ nextAnim a = nextAnim b
  /\ nextFinishAnim a = nextFinishAnim b
  /\ loops_alike (nextAnimNumLoops a) (nextAnimNumLoops b)
  /\ nextAnimCompleteStr a = nextAnimCompleteStr b
  /\ interruptInProgressAnim a = interruptInProgressAnim b
  /\ currPos a = currPos b
  /\ startPos a = startPos b
  /\ mem a = mem b.

(* ------------------------------------------------------------------ *)
(** ** Naming the four joints *)

Inductive Joint := LeftHipJoint | LeftFootJoint | RightHipJoint | RightFootJoint.

(** The column of a keyframe that holds the joint's value. *)
Definition joint_column (j : Joint) : Z :=
  match j with
  | LeftHipJoint => LEFT_HIP_VALUE
  | LeftFootJoint => LEFT_FOOT_VALUE
  | RightHipJoint => RIGHT_HIP_VALUE
  | RightFootJoint => RIGHT_FOOT_VALUE
  end.

Definition joint_value (j : Joint) (pos : Joints) : Z :=
  match j with
  | LeftHipJoint => LeftHip pos
  | LeftFootJoint => LeftFoot pos
  | RightHipJoint => RightHip pos
  | RightFootJoint => RightFoot pos
  end.

(* ------------------------------------------------------------------ *)
(** ** Some states of a 16-bit board, used in examples *)

(** Walking forward, 40 ms into the first keyframe. *)
Definition walking_forward : Anim :=
  fst (run_ticks uno
         (PlayAnimNumTimes (Some walkForwardAnim) (Some walkEndAnim) 1
            (Some ("F"%char, "W"%char)) (setup_Animation uno 0))
         [20; 40; 60]).

(** ["<SV,200,100,2000,0,0>"] has just started: the left foot value of
    its keyframe is [1410 - 2000], below zero. *)
Definition foot_left_out : Anim :=
  fst (run_ticks uno
         (SetServos uno 200 100 2000 0 0 (Some ("S"%char, "V"%char))
            (setup_Animation uno 0))
         [20]).

(* ------------------------------------------------------------------ *)
(** ** What holds in every state the sketch reaches *)

(** The two arrays [SetServos] writes to. *)
Definition is_scratch (n : AnimName) : bool :=
  match n with
  | setServosAnim1 | setServosAnim2 => true
  | _ => false
  end.

(** The animation tables are as initialised, and [currAnim] is not null
    while an animation is in progress. *)
Definition sound (P : Platform) (a : Anim) : Prop :=
  (forall n, is_scratch n = false -> mem a n = initial_mem P n)
  /\ (animInProgress a = true -> currAnim a <> None).

(* ------------------------------------------------------------------ *)
(** ** The parser on arbitrary input

    Definitions used to state what the parser does with any sequence of
    bytes, well-formed or not. *)

(** The commands handed over while the bytes [s] come in after boot, one
    byte per call of [loop_Parser]. *)
Definition handed_over (P : Platform) (s : list ascii) : list Command :=
  snd (feed P setup_Parser s).

(** The parser variables after the bytes [s]. *)
Definition parser_after (P : Platform) (s : list ascii) : Parser :=
  fst (feed P setup_Parser s).

(** The condition under which [loop_Parser] executes
    [currCmd[currCmdIndex] = c]: the last branch of the [PARSER_COMMAND]
    state. *)
Definition stores_letter (p : Parser) (c : ascii) : bool :=
  (currParserState p =? PARSER_COMMAND)
  && negb (Ascii.eqb c SEP_CHAR) && negb (Ascii.eqb c END_CHAR)
  && negb ((currCmdIndex p >=? CMD_LENGTH)
           || (char_val c <? char_val "A"%char)
           || (char_val c >? char_val "Z"%char)).

(** The state and the two counters are within their ranges. *)
Definition parser_in_range (p : Parser) : Prop :=
  PARSER_WAITING <= currParserState p <= PARSER_PARAM5
  /\ 0 <= currCmdIndex p <= CMD_LENGTH
  /\ 0 <= currParamIndex p <= MAX_PARAM_LENGTH.

(** The letters stored so far are upper-case letters. *)
Definition letters_read (p : Parser) : Prop :=
  (currParserState p = PARSER_COMMAND ->
   (1 <= currCmdIndex p -> is_upper (currCmd0 p) = true)
   /\ (2 <= currCmdIndex p -> is_upper (currCmd1 p) = true))
  /\ (PARSER_PARAM1 <= currParserState p <= PARSER_PARAM5 ->
      is_upper (currCmd0 p) = true /\ is_upper (currCmd1 p) = true).

Definition code_is_upper (c : Command) : Prop :=
  is_upper (cmd0 c) = true /\ is_upper (cmd1 c) = true.

(** Whether a command text is under way: 1 unless the parser is waiting
    for a start marker. *)
Definition under_way (p : Parser) : nat :=
  if currParserState p =? PARSER_WAITING then 0%nat else 1%nat.

(** The values a parameter of at most six characters can take: six digits,
    or a sign and five. *)
Definition in_param_range (v : Z) : Prop := -99999 <= v <= 999999.

Definition params_in_range (c : Command) : Prop :=
  in_param_range (param1 c) /\ in_param_range (param2 c)
  /\ in_param_range (param3 c) /\ in_param_range (param4 c)
  /\ in_param_range (param5 c).

(** The digits read so far of the parameter under way. *)
Definition digits_read (p : Parser) : Z :=
  currParamIndex p - (if currParamNegative p then 1 else 0).

(** The parameter variables while a command is read: those already closed
    are in range, the one under way is the number its digits so far
    denote, the others are still zero. *)
Definition params_read (p : Parser) : Prop :=
  let done (v : Z) := in_param_range v in
  let now (v : Z) := 0 <= digits_read p /\ 0 <= v < 10 ^ digits_read p in
  let v1 := currParam1Val p in
  let v2 := currParam2Val p in
  let v3 := currParam3Val p in
  let v4 := currParam4Val p in
  let v5 := currParam5Val p in
  (currParserState p = PARSER_COMMAND ->
   v1 = 0 /\ v2 = 0 /\ v3 = 0 /\ v4 = 0 /\ v5 = 0)
  /\ (currParserState p = PARSER_PARAM1 ->
      now v1 /\ v2 = 0 /\ v3 = 0 /\ v4 = 0 /\ v5 = 0)
  /\ (currParserState p = PARSER_PARAM2 ->
      done v1 /\ now v2 /\ v3 = 0 /\ v4 = 0 /\ v5 = 0)
  /\ (currParserState p = PARSER_PARAM3 ->
      done v1 /\ done v2 /\ now v3 /\ v4 = 0 /\ v5 = 0)
  /\ (currParserState p = PARSER_PARAM4 ->
      done v1 /\ done v2 /\ done v3 /\ now v4 /\ v5 = 0)
  /\ (currParserState p = PARSER_PARAM5 ->
      done v1 /\ done v2 /\ done v3 /\ done v4 /\ now v5).

(** A parameter as the parser takes it: digits only, possibly none, and at
    most [MAX_PARAM_LENGTH] characters with the sign. *)
Definition accepted_param (p : ParamText) : bool :=
  forallb is_digit (digits p)
  && (Z.of_nat (param_length p) <=? MAX_PARAM_LENGTH).

Definition accepted_command (c : CommandText) : bool :=
  is_upper (letter0 c) && is_upper (letter1 c)
  && (List.length (params c) <=? 5)%nat
  && forallb accepted_param (params c).

(** A command text without its end marker. *)
Definition render_open (c : CommandText) : list ascii :=
  START_CHAR :: letter0 c :: letter1 c
    :: flat_map (fun p => SEP_CHAR :: render_param p) (params c).

(** A byte that belongs to no command text: not a marker, a separator, a
    minus sign, an upper-case letter or a digit (a line end, say). *)
Definition is_foreign (c : ascii) : bool :=
  negb (Ascii.eqb c START_CHAR) && negb (Ascii.eqb c END_CHAR)
  && negb (Ascii.eqb c SEP_CHAR) && negb (Ascii.eqb c "-"%char)
  && negb (is_upper c) && negb (is_digit c).

(** What may stand between a start marker and the character being read
    while a command text is still well-formed: up to two letters, or two
    letters and parameters, the last of which is being read. *)
Definition partial_text (s : list ascii) : Prop :=
  (forallb is_upper s = true /\ (List.length s <= 2)%nat)
  \/ exists l0 l1 ps p,
       s = l0 :: l1 :: flat_map (fun q => SEP_CHAR :: render_param q)
                         (ps ++ [p])
       /\ accepted_command
            {| letter0 := l0; letter1 := l1; params := ps ++ [p] |} = true.

(** Neither marker. *)
Definition is_inner (c : ascii) : bool :=
  negb (Ascii.eqb c START_CHAR) && negb (Ascii.eqb c END_CHAR).

(* ------------------------------------------------------------------ *)
(** ** What the sequencer keeps true while the sketch runs *)

(** The shape of an animation array: the frame count in [animData[0][0]]
    is at least 1, that many keyframe rows follow the first row, and every
    row has five values. *)
Definition well_shaped (d : AnimData) : bool :=
  (1 <=? NumOfFrames d)
  && (Z.of_nat (List.length d) =? NumOfFrames d + 1)
  && forallb (fun row => (List.length row =? 5)%nat) d.

(** [d[r][c]] lies inside the array. *)
Definition in_array (d : AnimData) (r c : Z) : bool :=
  (0 <=? r) && (r <? Z.of_nat (List.length d))
  && (0 <=? c) && (c <? Z.of_nat (List.length (nth (Z.to_nat r) d []))).

(** A scratch array as [SetServos] leaves it: one keyframe, its tween time
    not negative. *)
Definition scratch_shaped (d : AnimData) : Prop :=
  exists t lh lf rh rf,
    d = [[1; 0; 0; 0; 0]; [t; lh; lf; rh; rf]] /\ 0 <= t.

(** The predefined animations are as initialised, the two scratch
    animations have their shape. *)
Definition tables_kept (P : Platform) (m : AnimName -> AnimData) : Prop :=
  forall n, if is_scratch n then scratch_shaped (m n)
            else m n = initial_mem P n.

(** The joints the keyframe [f] of [d] gives a value to have that value. *)
Definition at_keyframe (d : AnimData) (f : Z) (pos : Joints) : Prop :=
  forall j, 0 <= cell d f (joint_column j) ->
            joint_value j pos = cell d f (joint_column j).

(** What holds of the sequencer variables between two calls of [loop()]:
    - the animation tables are kept;
    - while an animation is in progress, [currAnim] is not null and
      [targetFrame] is one of its keyframes;
    - an interrupt is only pending with something in the queue;
    - while no animation is in progress, the servos are where the last
      keyframe of the animation played last has put them. *)
Definition consistent (P : Platform) (a : Anim) : Prop :=
  tables_kept P (mem a)
  /\ (animInProgress a = true ->
      exists c, currAnim a = Some c
                /\ 1 <= targetFrame a <= NumOfFrames (mem a c))
  /\ (interruptInProgressAnim a = true -> nextAnim a <> None)
  /\ (animInProgress a = false ->
      forall c, currAnim a = Some c ->
                at_keyframe (mem a c) (NumOfFrames (mem a c)) (currPos a)).

(** The states the sketch reaches from [setup()]. *)
Definition reached (P : Platform) (t0 : Z) (inputs : list (option ascii * Z))
  : Robot :=
  fst (run P (fst (setup P t0)) inputs).

(** The reads [currAnim[targetFrame][..]] and [currAnim[0][0]] that
    [loop_Animation] makes in state [a] lie inside the array. *)
Definition reads_in_bounds (a : Anim) : Prop :=
  animInProgress a = true ->
  in_array (deref a (currAnim a)) 0 0 = true
  /\ forall k, 0 <= k <= 4 ->
       in_array (deref a (currAnim a)) (targetFrame a) k = true.

(** The divisor of an interpolation is positive, or zero while a scratch
    animation is played. *)
Definition divisor_kept (e : Event) : Prop :=
  match e with
  | Tweened a _ _ duration _ =>
      0 <= duration
      /\ (duration = 0 -> exists c, a = Some c /\ is_scratch c = true)
  | _ => True
  end.

(* ------------------------------------------------------------------ *)
(** ** Playing one [SetServos] command *)



(* ------------------------------------------------------------------ *)
(** ** A command queued while an animation plays *)







(* ------------------------------------------------------------------ *)
(** ** What the sequencer has printed *)

(** The bytes of [s] arriving one per turn of [loop()], [millis()]
    returning [t] in each of these turns. *)
Definition arriving (s : string) (t : Z) : list (option ascii * Z) :=
  map (fun c => (Some c, t)) (list_ascii_of_string s).

(** Turns of [loop()] in which nothing arrives, at the given times. *)
Definition idling (times : list Z) : list (option ascii * Z) :=
  map (fun t => (None, t)) times.

(** The lines [loop_Animation] prints in the turns of [loop()] over
    [inputs], in order: the reports of completed and of interrupted
    animations, without the replies of the command handler. *)
Fixpoint sequencer_lines (P : Platform) (r : Robot)
    (inputs : list (option ascii * Z)) : list string :=
  match inputs with
  | [] => []
  | (avail, now) :: rest =>
      lines (snd (loop_Animation P (anim (fst (loop_Parser P r avail))) now))
      ++ sequencer_lines P (fst (loop P r avail now)) rest
  end.

(** Nothing is in progress and nothing is queued. *)
Definition at_rest (a : Anim) : Prop :=
  animInProgress a = false /\ nextAnim a = None.

(** With the sequencer at rest, [animCompleteStr] is the tag of the
    completion reported last: either nothing was printed yet and the tag
    is the initial ["--"], or the last line the sequencer printed is the
    completion line of that tag. *)
Definition reported_last (a : Anim) (printed : list string) : Prop :=
  (printed = [] /\ animCompleteStr a = no_tag)
  \/ last printed ""%string = complete_line (animCompleteStr a).

(** The tag of a completion line ["<" tag ">"]; other lines have none. *)
Definition completion_tag (s : string) : option Tag :=
  match s with
  | String "<" (String c0 (String c1 (String ">" EmptyString))) =>
      Some (c0, c1)
  | _ => None
  end.

(** The tag of the animation that completed last according to the lines
    [printed], ["--"] if none of them reports a completion. *)
Definition completed_last (printed : list string) : Tag :=
  fold_left (fun t s => match completion_tag s with
                        | Some u => u
                        | None => t
                        end) printed no_tag.

(** ["<LT>"] is played to its end, then ["<FW,2>"] to the end of its
    first pass: the call at 5600 resolves the last keyframe of the walk
    and queues the second pass. *)
Definition between_passes : list (option ascii * Z) :=
  arriving "<LT>" 0 ++ idling [20; 400; 800; 1200; 1600; 2000; 2400]
  ++ arriving "<FW,2>" 2400
  ++ idling [2420; 2800; 3200; 3600; 4000; 4400; 4800; 5200; 5600].

(** ["<ST>"] is played to its end. *)
Definition stop_done : list (option ascii * Z) :=
  arriving "<ST>" 0 ++ idling [20; 400].

(* ================================================================== *)
(** * Properties *)

(* ------------------------------------------------------------------ *)
(** ** Machine integers *)

Lemma wrap_small (w x : Z) :
  0 < w -> - 2 ^ (w - 1) <= x < 2 ^ (w - 1) -> wrap w x = x.
Proof.
  intros Hw Hx. unfold wrap.
  assert (Hp : 2 ^ w = 2 * 2 ^ (w - 1)).
  { replace w with (Z.succ (w - 1)) at 1 by lia. apply Z.pow_succ_r. lia. }
  assert (Hpos : 0 < 2 ^ (w - 1)) by (apply Z.pow_pos_nonneg; lia).
  destruct (Z_lt_le_dec x 0) as [Hneg | Hnn].
  - assert (E : x mod 2 ^ w = x + 2 ^ w).
    { symmetry. apply Z.mod_unique with (q := -1); lia. }
    rewrite E. destruct (Z.ltb_spec (x + 2 ^ w) (2 ^ (w - 1))); lia.
  - rewrite Z.mod_small by lia.
    destruct (Z.ltb_spec x (2 ^ (w - 1))); lia.
Qed.

Lemma wrap_mod (w x : Z) : 0 < w -> wrap w x mod 2 ^ w = x mod 2 ^ w.
Proof.
  intros Hw. unfold wrap.
  assert (Hpos : 0 < 2 ^ w) by (apply Z.pow_pos_nonneg; lia).
  destruct (Z.ltb_spec (x mod 2 ^ w) (2 ^ (w - 1))).
  - apply Z.mod_mod. lia.
  - replace (x mod 2 ^ w - 2 ^ w) with (x mod 2 ^ w + (-1) * 2 ^ w) by lia.
    rewrite Z.mod_add by lia. apply Z.mod_mod. lia.
Qed.

Lemma wrap_congr (w x y : Z) :
  x mod 2 ^ w = y mod 2 ^ w -> wrap w x = wrap w y.
Proof. intros E. unfold wrap. rewrite E. reflexivity. Qed.

Lemma int_bits_pos (P : Platform) : 0 < int_bits P.
Proof. pose proof (int_bits_ge_16 P). lia. Qed.

Lemma INT_MAX_ge (P : Platform) : 32767 <= INT_MAX P.
Proof.
  unfold INT_MAX. pose proof (int_bits_ge_16 P).
  assert (2 ^ 15 <= 2 ^ (int_bits P - 1)) by (apply Z.pow_le_mono_r; lia).
  change (2 ^ 15) with 32768 in *. lia.
Qed.

Lemma to_int_id (P : Platform) (x : Z) :
  - INT_MAX P - 1 <= x <= INT_MAX P -> to_int P x = x.
Proof.
  intros H. apply wrap_small; [apply int_bits_pos | unfold INT_MAX in H; lia].
Qed.

Lemma to_int_small (P : Platform) (x : Z) :
  -32768 <= x <= 32767 -> to_int P x = x.
Proof. intros H. apply to_int_id. pose proof (INT_MAX_ge P). lia. Qed.

(** Wrapping an operand first does not change a wrapped sum, product or
    negation. *)
Lemma to_int_add_l (P : Platform) (x y : Z) :
  to_int P (to_int P x + y) = to_int P (x + y).
Proof.
  pose proof (int_bits_pos P).
  assert (0 < 2 ^ int_bits P) by (apply Z.pow_pos_nonneg; lia).
  apply wrap_congr. rewrite <- Z.add_mod_idemp_l by lia.
  unfold to_int. rewrite wrap_mod by lia.
  rewrite Z.add_mod_idemp_l by lia. reflexivity.
Qed.

Lemma to_int_add_r (P : Platform) (x y : Z) :
  to_int P (x + to_int P y) = to_int P (x + y).
Proof. rewrite (Z.add_comm x), to_int_add_l. f_equal. lia. Qed.

Lemma to_int_mul_l (P : Platform) (x y : Z) :
  to_int P (to_int P x * y) = to_int P (x * y).
Proof.
  pose proof (int_bits_pos P).
  assert (0 < 2 ^ int_bits P) by (apply Z.pow_pos_nonneg; lia).
  apply wrap_congr. rewrite <- Z.mul_mod_idemp_l by lia.
  unfold to_int. rewrite wrap_mod by lia.
  rewrite Z.mul_mod_idemp_l by lia. reflexivity.
Qed.

Lemma to_int_mul_r (P : Platform) (x y : Z) :
  to_int P (x * to_int P y) = to_int P (x * y).
Proof. rewrite (Z.mul_comm x), to_int_mul_l. f_equal. lia. Qed.

Lemma to_long_id (x : Z) : -2147483648 <= x <= 2147483647 -> to_long x = x.
Proof. intros H. apply wrap_small; [lia|]. change (2 ^ (32 - 1)) with 2147483648. lia. Qed.

(* ------------------------------------------------------------------ *)
(** ** The parser on well-formed command texts *)

Lemma feed_app (P : Platform) (s1 s2 : list ascii) (p : Parser) :
  feed P p (s1 ++ s2) =
  (fst (feed P (fst (feed P p s1)) s2),
   snd (feed P p s1) ++ snd (feed P (fst (feed P p s1)) s2)).
Proof.
  revert p. induction s1 as [|c s1 IH]; intros p; simpl.
  - destruct (feed P p s2); reflexivity.
  - destruct (parser_step P p c) as [q d]. rewrite IH.
    destruct (feed P q s1) as [r ds]. simpl.
    destruct (feed P r s2) as [r' ds']. simpl.
    destruct d; reflexivity.
Qed.

(** While waiting, anything but the start marker is dropped. *)
Lemma feed_noise (P : Platform) (s : list ascii) (p : Parser) :
  currParserState p = PARSER_WAITING ->
  forallb is_noise s = true ->
  feed P p s = (p, []).
Proof.
  intros Hst. induction s as [|c s IH]; simpl; intros Hn; [reflexivity|].
  apply andb_prop in Hn. destruct Hn as [Hc Hs].
  unfold parser_step, parse_char. rewrite Hst. simpl.
  unfold is_noise in Hc. apply negb_true_iff in Hc. rewrite Hc.
  rewrite Hst. simpl. rewrite (IH Hs). reflexivity.
Qed.

Lemma upper_facts (c : ascii) :
  is_upper c = true ->
  Ascii.eqb c SEP_CHAR = false /\ Ascii.eqb c END_CHAR = false
  /\ (char_val c <? char_val "A") = false
  /\ (char_val c >? char_val "Z") = false.
Proof.
  destruct c as [[] [] [] [] [] [] [] []]; vm_compute; intros H;
    try discriminate H; repeat split.
Qed.

Lemma digit_facts (c : ascii) :
  is_digit c = true ->
  Ascii.eqb c SEP_CHAR = false /\ Ascii.eqb c END_CHAR = false
  /\ Ascii.eqb c "-" = false
  /\ (char_val c <? char_val "0") = false
  /\ (char_val c >? char_val "9") = false
  /\ char_val c - char_val "0" = Z.of_N (N_of_ascii c) - 48
  /\ 0 <= Z.of_N (N_of_ascii c) - 48 <= 9.
Proof.
  destruct c as [[] [] [] [] [] [] [] []]; vm_compute; intros H;
    try discriminate H; repeat split; intros E; discriminate E.
Qed.

(** In each of the five parameter states the state number is [2 + i] and
    the variable filled is the [i]-th of the five. *)
Ltac five_slots i vals :=
  destruct vals as [|v1 [|v2 [|v3 [|v4 [|v5 [|]]]]]]; try discriminate;
  destruct i as [|[|[|[|[|]]]]]; try lia.

Lemma digit_step (P : Platform) (i : nat) l0 l1 ci vals idx neg c :
  (i < 5)%nat -> List.length vals = 5%nat ->
  0 <= idx < MAX_PARAM_LENGTH -> is_digit c = true ->
  parse_char P (parser_at (2 + Z.of_nat i) l0 l1 ci vals idx neg) c =
  parser_at (2 + Z.of_nat i) l0 l1 ci
    (list_set vals i
       (to_int P (nth i vals 0 * 10 + (Z.of_N (N_of_ascii c) - 48))))
    (idx + 1) neg.
Proof.
  intros Hi Hlen Hidx Hd.
  destruct (digit_facts c Hd) as (E1 & E2 & E3 & E4 & E5 & E6 & E7).
  assert (Eidx : (idx >=? MAX_PARAM_LENGTH) = false)
    by (rewrite Z.geb_leb; apply Z.leb_nle; lia).
  assert (Ei : to_int P (idx + 1) = idx + 1)
    by (apply to_int_small; unfold MAX_PARAM_LENGTH in *; lia).
  five_slots i vals;
    unfold parse_char, parser_at, param_state; simpl;
    rewrite ?E1, ?E2, ?E3, ?E4, ?E5, ?E6, ?Eidx, ?andb_false_r; simpl;
    rewrite Ei, to_int_add_l, to_int_add_r; reflexivity.
Qed.

Lemma list_set_length {A} (l : list A) (i : nat) (v : A) :
  List.length (list_set l i v) = List.length l.
Proof.
  revert i. induction l as [|h t IH]; intros [|i]; simpl; auto.
Qed.

Lemma list_set_nth_same {A} (l : list A) (i : nat) (v d : A) :
  (i < List.length l)%nat -> nth i (list_set l i v) d = v.
Proof.
  revert i. induction l as [|h t IH]; intros [|i]; simpl; intros H;
    try lia; auto. apply IH. lia.
Qed.

Lemma list_set_twice {A} (l : list A) (i : nat) (u v : A) :
  list_set (list_set l i u) i v = list_set l i v.
Proof.
  revert i. induction l as [|h t IH]; intros [|i]; simpl; auto.
  f_equal. apply IH.
Qed.

Lemma list_set_same {A} (l : list A) (i : nat) (d : A) :
  (i < List.length l)%nat -> list_set l i (nth i l d) = l.
Proof.
  revert i. induction l as [|h t IH]; intros [|i]; simpl; intros H;
    try lia; auto. f_equal. apply IH. lia.
Qed.

Lemma list_set_app_zero (done : list Z) (n : nat) (v : Z) :
  list_set (done ++ repeat 0 (S n)) (List.length done) v
  = (done ++ [v]) ++ repeat 0 n.
Proof.
  induction done as [|h t IH]; simpl; [reflexivity|]. f_equal. exact IH.
Qed.

(** A run of digits is accumulated into the parameter variable. *)
Lemma digits_fed (P : Platform) (i : nat) l0 l1 ci neg (ds : list ascii) :
  forall vals idx v,
  (i < 5)%nat -> List.length vals = 5%nat ->
  forallb is_digit ds = true ->
  0 <= idx -> idx + Z.of_nat (List.length ds) <= MAX_PARAM_LENGTH ->
  nth i vals 0 = to_int P v ->
  feed P (parser_at (2 + Z.of_nat i) l0 l1 ci vals idx neg) ds =
  (parser_at (2 + Z.of_nat i) l0 l1 ci
     (list_set vals i
        (to_int P
           (fold_left (fun a d => a * 10 + (Z.of_N (N_of_ascii d) - 48))
              ds v)))
     (idx + Z.of_nat (List.length ds)) neg, []).
Proof.
  induction ds as [|c ds IH]; intros vals idx v Hi Hlen Hd Hidx Hmax Hv.
  - simpl. rewrite <- Hv, list_set_same, Z.add_0_r by lia. reflexivity.
  - simpl in Hd. apply andb_prop in Hd. destruct Hd as [Hc Hds].
    cbn [feed]. unfold parser_step.
    cbn [List.length] in Hmax.
    assert (Hr : 0 <= idx < MAX_PARAM_LENGTH) by (clear - Hidx Hmax; lia).
    rewrite digit_step by auto.
    replace (currParserState _ =? PARSER_EXECUTE) with false
      by (five_slots i vals; reflexivity).
    rewrite (IH _ _ (v * 10 + (Z.of_N (N_of_ascii c) - 48))); auto.
    + rewrite list_set_twice. cbn [fold_left List.length].
      replace (idx + 1 + Z.of_nat (List.length ds))
        with (idx + Z.of_nat (S (List.length ds))) by (clear; lia).
      reflexivity.
    + rewrite list_set_length. exact Hlen.
    + clear - Hidx; lia.
    + clear - Hmax; lia.
    + rewrite list_set_nth_same by (clear - Hi Hlen; lia). rewrite Hv.
      rewrite <- to_int_add_l, to_int_mul_l, to_int_add_l. reflexivity.
Qed.

(** A minus sign at the start of a parameter. *)
Lemma minus_step (P : Platform) (i : nat) l0 l1 ci vals neg :
  (i < 5)%nat -> List.length vals = 5%nat ->
  parse_char P (parser_at (2 + Z.of_nat i) l0 l1 ci vals 0 neg) "-" =
  parser_at (2 + Z.of_nat i) l0 l1 ci vals 1 true.
Proof.
  intros Hi Hlen.
  assert (E : to_int P 1 = 1) by (apply to_int_small; lia).
  five_slots i vals; unfold parse_char, parser_at, param_state; simpl;
    rewrite E; reflexivity.
Qed.

(** A separator closes a parameter and opens the next one; there is none
    after the fifth. *)
Lemma sep_step (P : Platform) (i : nat) l0 l1 ci vals idx neg :
  (i < 4)%nat -> List.length vals = 5%nat ->
  parse_char P (parser_at (2 + Z.of_nat i) l0 l1 ci vals idx neg) SEP_CHAR =
  parser_at (2 + Z.of_nat (S i)) l0 l1 ci
    (list_set vals i (signed_value P neg (nth i vals 0))) 0 false.
Proof.
  intros Hi Hlen.
  five_slots i vals; unfold parse_char, parser_at, param_state; simpl;
    destruct neg; reflexivity.
Qed.

(** The end marker closes a parameter and completes the command. *)
Lemma end_step (P : Platform) (i : nat) l0 l1 ci vals idx neg :
  (i < 5)%nat -> List.length vals = 5%nat ->
  parse_char P (parser_at (2 + Z.of_nat i) l0 l1 ci vals idx neg) END_CHAR =
  parser_at PARSER_EXECUTE l0 l1 ci
    (list_set vals i (signed_value P neg (nth i vals 0))) idx neg.
Proof.
  intros Hi Hlen.
  five_slots i vals; unfold parse_char, parser_at, param_state; simpl;
    destruct neg; reflexivity.
Qed.

Lemma signed_value_to_int (P : Platform) (neg : bool) (v : Z) :
  signed_value P neg (to_int P v) = to_int P (if neg then - v else v).
Proof.
  unfold signed_value. destruct neg; [|reflexivity].
  rewrite to_int_mul_r. f_equal; try lia.
Qed.

(** A whole well-formed parameter, fed to the state that reads the
    [i]-th variable while that variable is still 0. *)
Lemma param_fed (P : Platform) (i : nat) l0 l1 ci vals (p : ParamText) :
  (i < 5)%nat -> List.length vals = 5%nat -> nth i vals 0 = 0 ->
  wf_param p = true ->
  feed P (parser_at (2 + Z.of_nat i) l0 l1 ci vals 0 false) (render_param p)
  = (parser_at (2 + Z.of_nat i) l0 l1 ci
       (list_set vals i (to_int P (decimal_value (digits p))))
       (Z.of_nat (param_length p)) (negative p), []).
Proof.
  intros Hi Hlen Hz Hwf.
  unfold wf_param in Hwf.
  apply andb_prop in Hwf. destruct Hwf as [Hwf Hmax].
  apply andb_prop in Hwf. destruct Hwf as [Hdig Hne].
  apply Z.leb_le in Hmax.
  assert (Hz' : nth i vals 0 = to_int P 0)
    by (rewrite Hz; symmetry; apply to_int_small; lia).
  unfold render_param, param_length, decimal_value in *.
  destruct (negative p).
  - cbn [app feed]. unfold parser_step. rewrite minus_step by auto.
    replace (currParserState _ =? PARSER_EXECUTE) with false
      by (five_slots i vals; reflexivity).
    rewrite (digits_fed P i l0 l1 ci true (digits p) vals 1 0); auto; try lia.
    replace (1 + Z.of_nat (List.length (digits p)))
      with (Z.of_nat (1 + List.length (digits p))) by (clear; lia).
    reflexivity.
  - cbn [app].
    rewrite (digits_fed P i l0 l1 ci false (digits p) vals 0 0); auto; try lia.
Qed.

Lemma nth_app_zeros (l : list Z) (n j : nat) :
  nth j (l ++ repeat 0 n) 0 = nth j l 0.
Proof.
  destruct (Nat.lt_ge_cases j (List.length l)) as [H | H].
  - apply app_nth1. exact H.
  - rewrite app_nth2 by exact H. rewrite (nth_overflow l) by exact H.
    generalize (j - List.length l)%nat. clear.
    induction n as [|n IH]; intros [|k]; simpl; auto.
Qed.

Lemma command_with_zeros (l0 l1 : ascii) (l : list Z) (n : nat) :
  command_with l0 l1 (l ++ repeat 0 n) = command_with l0 l1 l.
Proof. unfold command_with. rewrite !nth_app_zeros. reflexivity. Qed.

Lemma command_of_parser_at st l0 l1 ci vals idx neg :
  command_of (parser_at st l0 l1 ci vals idx neg) = command_with l0 l1 vals.
Proof. reflexivity. Qed.

(** The parameters of a command, from the first character of a parameter
    up to the end marker: the values land in the variables one after the
    other, and the end marker completes the command. *)
Lemma params_fed (P : Platform) l0 l1 ci (ps : list ParamText) :
  forall (p : ParamText) (done : list Z) (n : nat),
  (List.length done + n = 5)%nat -> (1 + List.length ps <= n)%nat ->
  wf_param p = true -> forallb wf_param ps = true ->
  exists q,
    feed P
      (parser_at (2 + Z.of_nat (List.length done)) l0 l1 ci
         (done ++ repeat 0 n) 0 false)
      (render_param p
       ++ flat_map (fun p' => SEP_CHAR :: render_param p') ps ++ [END_CHAR])
    = (q, [command_with l0 l1 (done ++ map (param_value P) (p :: ps))])
    /\ currParserState q = PARSER_WAITING.
Proof.
  induction ps as [|p' ps IH]; intros p done n Hn Hps Hp Hall.
  - destruct n as [|n]; [simpl in Hps; lia|].
    assert (Hlen : List.length (done ++ repeat 0 (S n)) = 5%nat)
      by (rewrite length_app, repeat_length; exact Hn).
    assert (Hi : (List.length done < 5)%nat) by lia.
    assert (Hz : nth (List.length done) (done ++ repeat 0 (S n)) 0 = 0)
      by (rewrite app_nth2, Nat.sub_diag by lia; reflexivity).
    rewrite feed_app, (param_fed P _ l0 l1 ci _ p Hi Hlen Hz Hp).
    cbn [fst snd flat_map app feed]. unfold parser_step.
    rewrite end_step by (auto; rewrite list_set_length; exact Hlen).
    cbn [currParserState parser_at]. rewrite Z.eqb_refl.
    eexists. split; [apply f_equal2; [reflexivity|] | reflexivity].
    rewrite command_of_parser_at, list_set_twice.
    rewrite list_set_nth_same by lia.
    rewrite signed_value_to_int, list_set_app_zero, command_with_zeros.
    reflexivity.
  - destruct n as [|n]; [simpl in Hps; lia|].
    simpl in Hall. apply andb_prop in Hall. destruct Hall as [Hp' Hall].
    assert (Hlen : List.length (done ++ repeat 0 (S n)) = 5%nat)
      by (rewrite length_app, repeat_length; exact Hn).
    assert (Hi : (List.length done < 4)%nat) by (simpl in Hps; lia).
    assert (Hi5 : (List.length done < 5)%nat) by lia.
    assert (Hz : nth (List.length done) (done ++ repeat 0 (S n)) 0 = 0)
      by (rewrite app_nth2, Nat.sub_diag by lia; reflexivity).
    rewrite feed_app, (param_fed P _ l0 l1 ci _ p Hi5 Hlen Hz Hp).
    cbn [fst snd flat_map app feed]. unfold parser_step.
    rewrite sep_step by (auto; rewrite list_set_length; exact Hlen).
    replace (currParserState _ =? PARSER_EXECUTE) with false.
    2:{ cbn [currParserState parser_at]. symmetry. apply Z.eqb_neq.
        unfold PARSER_EXECUTE. lia. }
    rewrite list_set_twice, list_set_nth_same by lia.
    rewrite signed_value_to_int, list_set_app_zero.
    change (to_int P (if negative p then - decimal_value (digits p)
                      else decimal_value (digits p)))
      with (param_value P p).
    destruct (IH p' (done ++ [param_value P p]) n) as (q & Hq & Hst); auto.
    + rewrite length_app. simpl. lia.
    + simpl in Hps. lia.
    + replace (List.length (done ++ [param_value P p]))
        with (S (List.length done)) in Hq by (rewrite length_app; simpl; lia).
      rewrite <- (app_assoc (render_param p')), Hq. cbn [fst snd app].
      exists q. split; [|exact Hst].
      rewrite <- app_assoc. reflexivity.
Qed.

(** The start marker and the two letters. *)
Lemma header_fed (P : Platform) (p : Parser) (l0 l1 : ascii) :
  currParserState p = PARSER_WAITING ->
  is_upper l0 = true -> is_upper l1 = true ->
  feed P p [START_CHAR; l0; l1] =
  (parser_at PARSER_COMMAND l0 l1 2 (repeat 0 5)
     (currParamIndex p) (currParamNegative p), []).
Proof.
  intros Hst H0 H1.
  destruct (upper_facts l0 H0) as (A1 & A2 & A3 & A4).
  destruct (upper_facts l1 H1) as (B1 & B2 & B3 & B4).
  assert (E1 : to_int P 1 = 1) by (apply to_int_small; lia).
  assert (E2 : to_int P 2 = 2) by (apply to_int_small; lia).
  cbn [feed]. unfold parser_step, parse_char. rewrite Hst. simpl.
  rewrite A1, A2, A3, A4. simpl. rewrite E1. simpl.
  rewrite B1, B2, B3, B4. simpl. rewrite E2. reflexivity.
Qed.

(** A well-formed command text, fed to a waiting parser, is handed over
    as exactly the command it stands for, and the parser waits again. *)
Lemma command_fed (P : Platform) (p : Parser) (c : CommandText) :
  currParserState p = PARSER_WAITING ->
  wf_command c = true ->
  exists q,
    feed P p (render_command c) = (q, [command_value P c])
    /\ currParserState q = PARSER_WAITING.
Proof.
  intros Hst Hwf. unfold wf_command in Hwf.
  apply andb_prop in Hwf. destruct Hwf as [Hwf Hall].
  apply andb_prop in Hwf. destruct Hwf as [Hwf Hlen].
  apply andb_prop in Hwf. destruct Hwf as [H0 H1].
  apply Nat.leb_le in Hlen.
  unfold render_command, command_value.
  change (START_CHAR :: letter0 c :: letter1 c
            :: flat_map (fun p0 => SEP_CHAR :: render_param p0) (params c)
            ++ [END_CHAR])
    with ([START_CHAR; letter0 c; letter1 c]
            ++ flat_map (fun p0 => SEP_CHAR :: render_param p0) (params c)
            ++ [END_CHAR]).
  rewrite feed_app, (header_fed P p _ _ Hst H0 H1). cbn [fst snd app].
  destruct (params c) as [|p0 ps].
  - cbn [flat_map app feed map]. eexists.
    split; [reflexivity | reflexivity].
  - cbn [flat_map app feed]. unfold parser_step.
    change (parse_char P
              (parser_at PARSER_COMMAND (letter0 c) (letter1 c) 2
                 (repeat 0 5) (currParamIndex p) (currParamNegative p))
              SEP_CHAR)
      with (parser_at (2 + Z.of_nat (@List.length Z [])) (letter0 c)
              (letter1 c) 2 ([] ++ repeat 0 5) 0 false).
    replace (currParserState _ =? PARSER_EXECUTE) with false by reflexivity.
    simpl in Hall. apply andb_prop in Hall. destruct Hall as [Hp0 Hps].
    destruct (params_fed P (letter0 c) (letter1 c) 2 ps p0 [] 5%nat)
      as (q & Hq & Hq'); auto.
    rewrite <- app_assoc, Hq. exists q. split; [reflexivity | exact Hq'].
Qed.

Lemma dispatches_list (P : Platform) (l : list ascii) :
  dispatches P (string_of_list_ascii l) = snd (feed P setup_Parser l).
Proof.
  unfold dispatches. rewrite list_ascii_of_string_of_list_ascii. reflexivity.
Qed.

(** Commands separated by marker-free noise: one hand-over per command. *)
Lemma noisy_fed (P : Platform) (segments : list (list ascii * CommandText))
    (trailer : list ascii) :
  forall p,
  currParserState p = PARSER_WAITING ->
  forallb (fun '(noise, c) => forallb is_noise noise && wf_command c)
    segments = true ->
  forallb is_noise trailer = true ->
  snd (feed P p (noisy segments trailer))
  = map (fun '(_, c) => command_value P c) segments.
Proof.
  unfold noisy.
  induction segments as [|[noise c] segs IH]; intros p Hst Hsegs Htr.
  - simpl. rewrite feed_noise by assumption. reflexivity.
  - simpl in Hsegs. apply andb_prop in Hsegs. destruct Hsegs as [Hseg Hsegs].
    apply andb_prop in Hseg. destruct Hseg as [Hnoise Hc].
    cbn [flat_map map]. rewrite <- !app_assoc.
    rewrite feed_app, (feed_noise P noise p Hst Hnoise). cbn [fst snd app].
    destruct (command_fed P p c Hst Hc) as (q & Hq & Hq').
    rewrite feed_app, Hq. cbn [fst snd app].
    rewrite (IH q Hq' Hsegs Htr). reflexivity.
Qed.

Lemma clean_as_noisy (segments : list (list ascii * CommandText)) :
  clean segments = noisy (map (fun '(_, c) => ([], c)) segments) [].
Proof.
  unfold clean, noisy. rewrite app_nil_r.
  induction segments as [|[noise c] segs IH]; simpl; [reflexivity|].
  rewrite IH. reflexivity.
Qed.

Lemma clean_segments_ok (segments : list (list ascii * CommandText)) :
  forallb (fun '(noise, c) => forallb is_noise noise && wf_command c)
    segments = true ->
  forallb (fun '(noise, c) => forallb is_noise noise && wf_command c)
    (map (fun '(_, c) => ([], c)) segments) = true.
Proof.
  induction segments as [|[noise c] segs IH]; simpl; [reflexivity|].
  intros H. apply andb_prop in H. destruct H as [H1 H2].
  apply andb_prop in H1. destruct H1 as [_ Hc].
  rewrite Hc, (IH H2). reflexivity.
Qed.

(** C1 (as amended).  For every input made of well-formed commands with
    noise in front of each and after the last, where the noise contains no
    start marker ['<'], feeding the input one byte at a time hands over
    the same commands as feeding the commands alone, namely the command
    each text stands for, in order.  (The example of the claim,
    ["garbage<FW,3>junk<ST>"], is such an input.) *)
Theorem parser_drops_marker_free_noise (P : Platform)
    (segments : list (list ascii * CommandText)) (trailer : list ascii) :
  forallb (fun '(noise, c) => forallb is_noise noise && wf_command c)
    segments = true ->
  forallb is_noise trailer = true ->
  dispatches P (string_of_list_ascii (noisy segments trailer))
  = dispatches P (string_of_list_ascii (clean segments))
  /\ dispatches P (string_of_list_ascii (noisy segments trailer))
     = map (fun '(_, c) => command_value P c) segments.
Proof.
  intros Hsegs Htr. rewrite !dispatches_list.
  assert (E : snd (feed P setup_Parser (noisy segments trailer))
              = map (fun '(_, c) => command_value P c) segments)
    by (apply noisy_fed; auto).
  split; [|exact E]. rewrite E, clean_as_noisy.
  rewrite noisy_fed; auto using clean_segments_ok.
  rewrite map_map. apply map_ext. intros [noise c]. reflexivity.
Qed.

(** The claim's example, obtained from the theorem. *)
Lemma parser_drops_marker_free_noise_witness :
  let FW3 := {| letter0 := "F"; letter1 := "W";
                params := [{| negative := false; digits := ["3"%char] |}] |} in
  let ST := {| letter0 := "S"; letter1 := "T"; params := [] |} in
  let segments := [(list_ascii_of_string "garbage", FW3);
                   (list_ascii_of_string "junk", ST)] in
  forallb (fun '(noise, c) => forallb is_noise noise && wf_command c)
    segments = true
  /\ forallb is_noise [] = true
  /\ dispatches uno "garbage<FW,3>junk<ST>" = dispatches uno "<FW,3><ST>"
  /\ dispatches uno "garbage<FW,3>junk<ST>"
     = [ {| cmd0 := "F"; cmd1 := "W"; param1 := 3; param2 := 0;
            param3 := 0; param4 := 0; param5 := 0 |};
         {| cmd0 := "S"; cmd1 := "T"; param1 := 0; param2 := 0;
            param3 := 0; param4 := 0; param5 := 0 |} ].
Proof.
  intros FW3 ST segments.
  split; [reflexivity|]. split; [reflexivity|].
  exact (parser_drops_marker_free_noise uno segments [] eq_refl eq_refl).
Defined.

(** C1 (counterexample).  A start marker inside an unfinished command is
    swallowed with it: of ["<<OK>"] nothing is handed over, although the
    well-formed command ["<OK>"] is what remains once the stray ['<'] is
    removed. *)
Lemma resync_counterexample :
  spec_strip_noise "<<OK>" = "<OK>"%string
  /\ dispatches uno "<<OK>" = []
  /\ dispatches uno (spec_strip_noise "<<OK>")
     = [ {| cmd0 := "O"; cmd1 := "K"; param1 := 0; param2 := 0;
            param3 := 0; param4 := 0; param5 := 0 |} ]
  /\ ~ (forall s, dispatches uno s = dispatches uno (spec_strip_noise s)).
Proof.
  split; [reflexivity|]. split; [reflexivity|]. split; [reflexivity|].
  intros H. specialize (H "<<OK>"%string). vm_compute in H. discriminate H.
Qed.

(* ------------------------------------------------------------------ *)
(** ** Numbers written in decimal and read back *)

Lemma digit_char_is_digit (d : Z) :
  0 <= d <= 9 ->
  is_digit (digit_char d) = true
  /\ Z.of_N (N_of_ascii (digit_char d)) - 48 = d.
Proof.
  intros H.
  assert (C : d = 0 \/ d = 1 \/ d = 2 \/ d = 3 \/ d = 4 \/ d = 5 \/ d = 6
              \/ d = 7 \/ d = 8 \/ d = 9) by lia.
  repeat (destruct C as [-> | C]; [split; reflexivity|]).
  subst d. split; reflexivity.
Qed.

Lemma decimal_value_snoc (l : list ascii) (c : ascii) :
  decimal_value (l ++ [c])
  = decimal_value l * 10 + (Z.of_N (N_of_ascii c) - 48).
Proof. unfold decimal_value. rewrite fold_left_app. reflexivity. Qed.

Lemma decimal_digits_are_digits (fuel : nat) :
  forall n, 0 <= n -> forallb is_digit (decimal_digits fuel n) = true.
Proof.
  induction fuel as [|f IH]; intros n Hn; [reflexivity|].
  cbn [decimal_digits]. rewrite forallb_app. apply andb_true_intro. split.
  - destruct (n <? 10); [reflexivity|]. apply IH.
    apply Z.div_pos; lia.
  - cbn [forallb]. rewrite andb_true_r.
    apply digit_char_is_digit. pose proof (Z.mod_pos_bound n 10). lia.
Qed.

Lemma decimal_digits_value (fuel : nat) :
  forall n, 0 <= n < 10 ^ Z.of_nat fuel ->
  decimal_value (decimal_digits fuel n) = n.
Proof.
  induction fuel as [|f IH]; intros n Hn.
  - simpl in Hn. assert (n = 0) by lia. subst n. reflexivity.
  - cbn [decimal_digits]. rewrite decimal_value_snoc.
    pose proof (Z.mod_pos_bound n 10 ltac:(lia)) as Hm.
    rewrite (proj2 (digit_char_is_digit (n mod 10) ltac:(lia))).
    destruct (Z.ltb_spec n 10) as [Hlt | Hge].
    + rewrite Z.mod_small by lia. reflexivity.
    + rewrite IH.
      * pose proof (Z.div_mod n 10 ltac:(lia)). lia.
      * rewrite Nat2Z.inj_succ, Z.pow_succ_r in Hn by lia.
        split; [apply Z.div_pos; lia|].
        apply Z.div_lt_upper_bound; lia.
Qed.

Lemma decimal_digits_length (fuel : nat) :
  forall n k, 0 <= n < 10 ^ Z.of_nat (S k) ->
  (1 <= List.length (decimal_digits (S fuel) n) <= S k)%nat.
Proof.
  induction fuel as [|f IH]; intros n k Hn.
  - cbn [decimal_digits]. destruct (n <? 10); simpl; lia.
  - change (decimal_digits (S (S f)) n)
      with ((if n <? 10 then [] else decimal_digits (S f) (n / 10))
            ++ [digit_char (n mod 10)]).
    rewrite length_app. cbn [List.length].
    destruct (Z.ltb_spec n 10) as [Hlt | Hge]; [simpl; lia|].
    destruct k as [|k].
    + change (10 ^ Z.of_nat 1) with 10 in Hn. lia.
    + assert (Hd : 0 <= n / 10 < 10 ^ Z.of_nat (S k)).
      { rewrite (Nat2Z.inj_succ (S k)), Z.pow_succ_r in Hn by lia.
        split; [apply Z.div_pos; lia|].
        apply Z.div_lt_upper_bound; lia. }
      specialize (IH _ _ Hd). lia.
Qed.

Lemma enough_fuel (n : Z) :
  0 <= n -> n < 10 ^ Z.of_nat (S (Z.to_nat (Z.log2 n))).
Proof.
  intros Hn. rewrite Nat2Z.inj_succ, Z2Nat.id by apply Z.log2_nonneg.
  destruct (Z.eq_dec n 0) as [-> | Hnz]; [reflexivity|].
  pose proof (Z.log2_spec n ltac:(lia)) as [_ Hlt].
  pose proof (Z.log2_nonneg n).
  assert (2 ^ Z.succ (Z.log2 n) <= 10 ^ Z.succ (Z.log2 n))
    by (apply Z.pow_le_mono_l; lia).
  lia.
Qed.

(** Every integer of at most six characters is a well-formed parameter
    text, and the text denotes the integer. *)
Lemma param_text_of_ok (P : Platform) (n : Z) :
  -99999 <= n <= 999999 ->
  wf_param (param_text_of n) = true
  /\ param_value P (param_text_of n) = to_int P n.
Proof.
  intros Hn. unfold wf_param, param_value, param_length, param_text_of.
  cbn [negative digits].
  set (fuel := Z.to_nat (Z.log2 (Z.abs n))).
  assert (Hv : decimal_value (decimal_digits (S fuel) (Z.abs n)) = Z.abs n).
  { apply decimal_digits_value. split; [lia|]. apply enough_fuel. lia. }
  rewrite Hv. split.
  - rewrite decimal_digits_are_digits by lia. cbn [andb].
    apply andb_true_intro. split.
    + apply Nat.leb_le.
      apply (decimal_digits_length fuel (Z.abs n) 5).
      change (10 ^ Z.of_nat 6) with 1000000. lia.
    + apply Z.leb_le. unfold MAX_PARAM_LENGTH.
      destruct (Z.ltb_spec n 0) as [Hneg | Hpos].
      * pose proof (decimal_digits_length fuel (Z.abs n) 4) as H.
        change (10 ^ Z.of_nat 5) with 100000 in H. lia.
      * pose proof (decimal_digits_length fuel (Z.abs n) 5) as H.
        change (10 ^ Z.of_nat 6) with 1000000 in H. lia.
  - f_equal. destruct (Z.ltb_spec n 0); lia.
Qed.

(** C2 (as amended).  For every integer [n] in [[-99999, 999999]] that
    the board's [int] can hold (with its negation), feeding the parser the
    text ["<SV,0,n,0,0,0>"] hands over exactly one command, [SV], whose
    second parameter is [n], sign included. *)
Theorem sv_param_round_trip (P : Platform) (n : Z) :
  -99999 <= n <= 999999 ->
  - INT_MAX P <= n <= INT_MAX P ->
  dispatches P (sv_message n)
  = [ {| cmd0 := "S"; cmd1 := "V"; param1 := 0; param2 := n;
         param3 := 0; param4 := 0; param5 := 0 |} ].
Proof.
  intros Hn Hint. unfold sv_message. rewrite dispatches_list.
  destruct (param_text_of_ok P n Hn) as [Hwf Hval].
  destruct (command_fed P setup_Parser (sv_command_text n) eq_refl)
    as (q & Hq & _).
  - unfold wf_command, sv_command_text. cbn [letter0 letter1 params].
    cbn [forallb]. rewrite Hwf. reflexivity.
  - rewrite Hq. cbn [snd]. unfold command_value, sv_command_text.
    cbn [letter0 letter1 params map command_with nth].
    rewrite Hval, to_int_id by lia.
    replace (param_value P (param_text_of 0)) with 0; [reflexivity|].
    symmetry. apply (to_int_small P 0). lia.
Qed.

Lemma sv_param_round_trip_witness :
  (-99999 <= -1234 <= 999999
   /\ - INT_MAX uno <= -1234 <= INT_MAX uno
   /\ dispatches uno "<SV,0,-1234,0,0,0>"
      = [ {| cmd0 := "S"; cmd1 := "V"; param1 := 0; param2 := -1234;
             param3 := 0; param4 := 0; param5 := 0 |} ])
  /\ (-99999 <= 999999 <= 999999
      /\ - INT_MAX due <= 999999 <= INT_MAX due
      /\ dispatches due "<SV,0,999999,0,0,0>"
         = [ {| cmd0 := "S"; cmd1 := "V"; param1 := 0; param2 := 999999;
                param3 := 0; param4 := 0; param5 := 0 |} ])
  /\ (-99999 <= -99999 <= 999999
      /\ - INT_MAX due <= -99999 <= INT_MAX due
      /\ dispatches due "<SV,0,-99999,0,0,0>"
         = [ {| cmd0 := "S"; cmd1 := "V"; param1 := 0; param2 := -99999;
                param3 := 0; param4 := 0; param5 := 0 |} ]).
Proof.
  split; [|split].
  - split; [lia|]. split; [vm_compute; split; discriminate|].
    apply (sv_param_round_trip uno (-1234));
      [lia | vm_compute; split; discriminate].
  - split; [lia|]. split; [vm_compute; split; discriminate|].
    apply (sv_param_round_trip due 999999);
      [lia | vm_compute; split; discriminate].
  - split; [lia|]. split; [vm_compute; split; discriminate|].
    apply (sv_param_round_trip due (-99999));
      [lia | vm_compute; split; discriminate].
Defined.

(** C2 (counterexample).  The minus sign counts as one of the six
    characters of a parameter, so a negative number of six digits is
    rejected at its last digit: of ["<SV,0,-100000,0,0,0>"] nothing is
    handed over, on a 16-bit board as on any other. *)
Lemma sv_six_digit_negative_counterexample :
  sv_message (-100000) = "<SV,0,-100000,0,0,0>"%string
  /\ dispatches uno (sv_message (-100000)) = []
  /\ dispatches due (sv_message (-100000)) = []
  /\ ~ (forall n, -999999 <= n <= 999999 ->
        exists c, dispatches uno (sv_message n) = [c] /\ param2 c = n).
Proof.
  split; [reflexivity|]. split; [reflexivity|]. split; [reflexivity|].
  intros H. destruct (H (-100000) ltac:(lia)) as (c & Hc & _).
  vm_compute in Hc. discriminate Hc.
Qed.

(* ------------------------------------------------------------------ *)
(** ** The queue of one *)

(** C5.  Queueing overwrites: an animation queued right after another
    leaves the sequencer in the very state it would be in had the first
    never been queued, so whatever the sketch does from then on (what it
    plays, what it prints) is the same as without the first; and whatever
    the state before, the queue holds exactly what was queued last. *)
Theorem enqueue_last_writer_wins (P : Platform) (a : Anim)
    (anim1 finish1 : option AnimName) (n1 : Z) (tag1 : option Tag)
    (anim2 finish2 : option AnimName) (n2 : Z) (tag2 : option Tag) :
  let both := PlayAnimNumTimes anim2 finish2 n2 tag2
                (PlayAnimNumTimes anim1 finish1 n1 tag1 a) in
  let second := PlayAnimNumTimes anim2 finish2 n2 tag2 a in
  both = second
  /\ (forall p inputs,
        run P {| parser := p; anim := both |} inputs
        = run P {| parser := p; anim := second |} inputs)
  /\ nextAnim both = anim2 /\ nextFinishAnim both = finish2
  /\ nextAnimNumLoops both = n2
  /\ nextAnimCompleteStr both
     = match tag2 with Some t => t | None => no_tag end.
Proof.
  assert (E : PlayAnimNumTimes anim2 finish2 n2 tag2
                (PlayAnimNumTimes anim1 finish1 n1 tag1 a)
              = PlayAnimNumTimes anim2 finish2 n2 tag2 a)
    by (destruct tag1, tag2; reflexivity).
  cbv zeta. rewrite E. split; [reflexivity|]. split; [reflexivity|].
  destruct tag2; repeat split; reflexivity.
Qed.

(* ------------------------------------------------------------------ *)
(** ** [SetServos] and the animation being played *)

Lemma ptr_eqb_eq (p q : option AnimName) : ptr_eqb p q = true <-> p = q.
Proof.
  destruct p as [x|], q as [y|]; simpl; try (split; congruence).
  destruct (AnimName_eq_dec x y); split; congruence.
Qed.

Lemma tweenServoData_not_current (a : Anim) :
  Some (tweenServoData a) <> currAnim a.
Proof.
  unfold tweenServoData.
  destruct (ptr_eqb (currAnim a) (Some setServosAnim1)) eqn:E; simpl.
  - apply ptr_eqb_eq in E. rewrite E. discriminate.
  - intros H. symmetry in H. apply ptr_eqb_eq in H. congruence.
Qed.

(** C9.  The buffer [SetServos] writes to is one of the two reserved
    arrays and is never the array [currAnim] points to; no other array is
    touched, so the data of the animation being played is what it was,
    and [currAnim] still points to it. *)
Theorem SetServos_spares_current (P : Platform) (a : Anim)
    (tweenTime leftHip leftFoot rightHip rightFoot : Z)
    (completeStr : option Tag) :
  let a' := SetServos P tweenTime leftHip leftFoot rightHip rightFoot
              completeStr a in
  let buf := tweenServoData a in
  (buf = setServosAnim1 \/ buf = setServosAnim2)
  /\ Some buf <> currAnim a
  /\ nextAnim a' = Some buf
  /\ (forall n, n <> buf -> mem a' n = mem a n)
  /\ currAnim a' = currAnim a
  /\ deref a' (currAnim a') = deref a (currAnim a).
Proof.
  cbv zeta.
  assert (Hbuf : forall b,
            tweenServoData
              match completeStr with
              | Some s => set_nextAnimCompleteStr s b
              | None => set_nextAnimCompleteStr no_tag b
              end = tweenServoData b)
    by (intros b; destruct completeStr; reflexivity).
  assert (Hmem : forall n, n <> tweenServoData a ->
            mem (SetServos P tweenTime leftHip leftFoot rightHip rightFoot
                   completeStr a) n = mem a n).
  { intros n Hn. unfold SetServos. rewrite Hbuf.
    destruct completeStr; cbn; unfold store;
      destruct (AnimName_eq_dec n (tweenServoData a)); congruence. }
  assert (Hcur : currAnim (SetServos P tweenTime leftHip leftFoot rightHip
                             rightFoot completeStr a) = currAnim a)
    by (destruct completeStr; reflexivity).
  pose proof (tweenServoData_not_current a) as Hne.
  split; [|split; [|split; [|split; [|split]]]]; auto.
  - unfold tweenServoData. destruct (negb _); auto.
  - unfold SetServos. rewrite Hbuf. destruct completeStr; reflexivity.
  - rewrite Hcur. unfold deref. destruct (currAnim a) as [c|]; [|reflexivity].
    apply Hmem. congruence.
Qed.

(* ------------------------------------------------------------------ *)
(** ** Stop immediate *)

Lemma tick_runs (a : Anim) (now : Z) :
  to_long (timeAtLastAnimUpdate a + millisBetweenAnimUpdate) <= now ->
  (to_long (timeAtLastAnimUpdate a + millisBetweenAnimUpdate) >? now) = false.
Proof. intros H. rewrite Z.gtb_ltb. apply Z.ltb_ge. exact H. Qed.

Lemma no_time_elapsed (P : Platform) (now : Z) :
  to_int P (to_long (now - now)) = 0.
Proof. rewrite Z.sub_diag. apply (to_int_small P 0). lia. Qed.

(** A call of [loop_Animation] that is not skipped, in terms of its
    blocks. *)
Lemma loop_Animation_runs (P : Platform) (a : Anim) (now : Z) :
  to_long (timeAtLastAnimUpdate a + millisBetweenAnimUpdate) <= now ->
  loop_Animation P a now =
  let s1 := start_next_anim (set_timeAtLastAnimUpdate now a) now in
  let s2 := update_current_anim P (fst s1) now in
  (fst s2, snd s1 ++ snd s2).
Proof.
  intros Hrun. unfold loop_Animation. rewrite (tick_runs a now Hrun).
  cbv zeta.
  destruct (start_next_anim (set_timeAtLastAnimUpdate now a) now) as [a1 e1].
  cbn [fst snd]. destruct (update_current_anim P a1 now) as [a2 e2].
  reflexivity.
Qed.

Lemma update_current_anim_eq (P : Platform) (a : Anim) (now : Z) :
  update_current_anim P a now =
  if animInProgress a then
    let s2 := switch_frame P a now in
    if animInProgress (fst s2) then
      let s3 := tween_servos P (fst s2) now in
      (fst s3, snd s2 ++ snd s3)
    else s2
  else (a, []).
Proof.
  unfold update_current_anim. destruct (animInProgress a); [|reflexivity].
  cbv zeta. destruct (switch_frame P a now) as [a2 e2]. cbn [fst snd].
  destruct (animInProgress a2); reflexivity.
Qed.

Lemma loop_Animation_skipped (P : Platform) (a : Anim) (now : Z) :
  now < to_long (timeAtLastAnimUpdate a + millisBetweenAnimUpdate) ->
  loop_Animation P a now = (a, []).
Proof.
  intros H. unfold loop_Animation.
  replace (_ >? now) with true; [reflexivity|].
  symmetry. rewrite Z.gtb_ltb. apply Z.ltb_lt. exact H.
Qed.

(** Within a keyframe's tween time the frame switch does nothing. *)
Lemma switch_frame_wait (P : Platform) (a : Anim) (now : Z) :
  to_int P (to_long (now - timeAtStartOfFrame a))
    <= cell (deref a (currAnim a)) (targetFrame a) TWEEN_TIME_VALUE ->
  switch_frame P a now = (a, []).
Proof.
  intros H. unfold switch_frame.
  replace (_ >? _) with false; [reflexivity|].
  symmetry. rewrite Z.gtb_ltb. apply Z.ltb_ge. exact H.
Qed.

(** The call of [loop_Animation] that follows [StopAnimImmediate],
    whatever the sequencer was doing: the interrupt is reported with the
    tag found in [animCompleteStr], the stand-straight animation starts
    from the current positions. *)
Lemma stop_immediate_tick (P : Platform) (a : Anim) (now : Z)
    (tag : option Tag) :
  mem a standStraightAnim = standStraightAnim_data P ->
  to_long (timeAtLastAnimUpdate a + millisBetweenAnimUpdate) <= now ->
  loop_Animation P (StopAnimImmediate tag a) now =
  ({| timeAtLastAnimUpdate := now;
      currAnim := Some standStraightAnim; finishAnim := None;
      timeAtStartOfFrame := now; targetFrame := 1; animNumLoops := 1;
      animCompleteStr := tag_of tag;
      animInProgress := true;
      nextAnim := None; nextFinishAnim := None; nextAnimNumLoops := 1;
      nextAnimCompleteStr := no_tag;
      interruptInProgressAnim := false;
      currPos := towards_centre P (currPos a) 0;
      startPos := currPos a;
      mem := mem a |},
   [Println (interrupted_line (animCompleteStr a));
    Tweened (Some standStraightAnim) 1 0 300
      (towards_centre P (currPos a) 0)]).
Proof.
  intros Hmem Hrun.
  rewrite loop_Animation_runs
    by (destruct tag; exact Hrun).
  assert (E1 : start_next_anim
                 (set_timeAtLastAnimUpdate now (StopAnimImmediate tag a)) now
               = ({| timeAtLastAnimUpdate := now;
                     currAnim := Some standStraightAnim; finishAnim := None;
                     timeAtStartOfFrame := now; targetFrame := 1;
                     animNumLoops := 1;
                     animCompleteStr := tag_of tag;
                     animInProgress := true;
                     nextAnim := None; nextFinishAnim := None;
                     nextAnimNumLoops := 1;
                     nextAnimCompleteStr := no_tag;
                     interruptInProgressAnim := false;
                     currPos := currPos a;
                     startPos := currPos a;
                     mem := mem a |},
                  [Println (interrupted_line (animCompleteStr a))]))
    by (destruct tag; destruct a; unfold start_next_anim; cbn;
        rewrite orb_true_r; reflexivity).
  cbv zeta. rewrite E1. cbn [fst snd].
  rewrite update_current_anim_eq. cbv zeta. cbn [animInProgress].
  rewrite switch_frame_wait.
  2:{ cbn [timeAtStartOfFrame currAnim targetFrame deref mem].
      rewrite Hmem, no_time_elapsed. cbv. discriminate. }
  cbn [fst snd animInProgress]. unfold tween_servos.
  cbn [fst snd timeAtStartOfFrame currAnim targetFrame deref mem startPos
       currPos set_currPos timeAtLastAnimUpdate finishAnim animNumLoops
       animCompleteStr animInProgress nextAnim nextFinishAnim
       nextAnimNumLoops nextAnimCompleteStr interruptInProgressAnim app].
  rewrite Hmem, Z.sub_diag. reflexivity.
Qed.

(* ------------------------------------------------------------------ *)
(** ** An undisturbed playback, call by call *)

Lemma frames_from_cons (c : AnimName) (f count : Z) :
  f <= count ->
  frames_from c f count = Frame c f :: frames_from c (f + 1) count.
Proof.
  intros H. unfold frames_from.
  replace (Z.to_nat (count - f + 1)) with (S (Z.to_nat (count - (f + 1) + 1)))
    by lia.
  cbn [seq map]. rewrite <- seq_shift, map_map. f_equal.
  - f_equal. lia.
  - apply map_ext. intros k. f_equal. lia.
Qed.

Lemma frames_from_nil (c : AnimName) (f count : Z) :
  count < f -> frames_from c f count = [].
Proof.
  intros H. unfold frames_from.
  replace (Z.to_nat (count - f + 1)) with O by lia. reflexivity.
Qed.

Lemma passes_S (n : nat) (p : list Played) : passes (S n) p = p ++ passes n p.
Proof. reflexivity. Qed.

Lemma played_app (e1 e2 : list Event) :
  played (e1 ++ e2) = played e1 ++ played e2.
Proof.
  induction e1 as [|e e1 IH]; [reflexivity|].
  destruct e as [s | pos | [c|] f pos | c f el d pos]; simpl; rewrite IH;
    reflexivity.
Qed.

Lemma lines_app (e1 e2 : list Event) : lines (e1 ++ e2) = lines e1 ++ lines e2.
Proof.
  induction e1 as [|e e1 IH]; [reflexivity|].
  destruct e; simpl; rewrite IH; reflexivity.
Qed.

(** The interpolation moves the servos and nothing else. *)
Lemma tween_servos_plays (P : Platform) (a : Anim) (now : Z) :
  played (snd (tween_servos P a now)) = []
  /\ remaining (fst (tween_servos P a now)) = remaining a
  /\ (steady P a -> steady P (fst (tween_servos P a now)))
  /\ mem (fst (tween_servos P a now)) = mem a.
Proof.
  split; [reflexivity|]. split; [reflexivity|].
  split; [intros H; exact H | reflexivity].
Qed.

Arguments NumOfFrames : simpl never.
Arguments cell : simpl never.
Arguments complete_line : simpl never.
Arguments interrupted_line : simpl never.
Arguments frames_from : simpl never.
Arguments pass : simpl never.
Arguments passes : simpl never.
Arguments ending : simpl never.
Arguments playback : simpl never.
Arguments loops_to_play : simpl never.
Arguments to_int : simpl never.
Arguments to_long : simpl never.
Arguments resolve_frame : simpl never.
Arguments tween_joint : simpl never.

Lemma loops_to_play_last (l : Z) : l <= 1 -> (loops_to_play l - 1 = 0)%nat.
Proof. unfold loops_to_play. lia. Qed.

Lemma loops_to_play_more (l : Z) :
  1 < l -> loops_to_play (l - 1) = (loops_to_play l - 1)%nat.
Proof. unfold loops_to_play. lia. Qed.

Lemma loops_to_play_S (l : Z) :
  loops_to_play l = S (loops_to_play l - 1).
Proof. unfold loops_to_play. lia. Qed.

(** The frame switch of an undisturbed playback: what it reports as
    resolved or printed is the head of what remained to be played. *)
Lemma switch_frame_plays (P : Platform) (a : Anim) (now : Z) :
  steady P a -> animInProgress a = true ->
  steady P (fst (switch_frame P a now))
  /\ remaining a
     = played (snd (switch_frame P a now))
       ++ remaining (fst (switch_frame P a now))
  /\ mem (fst (switch_frame P a now)) = mem a.
Proof.
  intros Hs Hp.
  destruct a as [tlu ca fa tsf tf nl tag ip na nfa nnl ntag intr cp sp m].
  unfold steady in Hs. cbn in Hs, Hp. subst ip.
  destruct Hs as (Hi & (c & Hc & Hf & HN) & Hq & Hl & Hfin). subst.
  unfold switch_frame. cbn.
  destruct (_ >? _) eqn:Egt.
  2:{ cbn. split; [|split; reflexivity].
      unfold steady; cbn. repeat split; eauto; lia. }
  rewrite (to_int_id P (tf + 1)) by lia.
  unfold remaining. cbn.
  destruct (Z.gtb_spec (tf + 1) (NumOfFrames (m c))) as [Hlast | Hmore].
  - replace (nl <? 0) with false by (symmetry; apply Z.ltb_ge; lia).
    cbn [andb].
    rewrite (frames_from_cons c tf) by lia.
    rewrite (frames_from_nil c (tf + 1)) by lia.
    destruct (Z.gtb_spec nl 1) as [Hloop | Hdone]; cbn [andb].
    + cbn. rewrite (to_int_id P (nl - 1)) by lia.
      split; [|split; [|reflexivity]].
      * unfold steady; cbn. repeat split; auto; lia.
      * unfold playback. rewrite loops_to_play_more by lia. reflexivity.
    + rewrite loops_to_play_last by lia. unfold finish_or_report. cbn.
      destruct fa as [f|]; cbn.
      * split; [|split; [|reflexivity]].
        -- unfold steady; cbn. cbn in Hfin. pose proof (INT_MAX_ge P).
           repeat split; eauto; try lia.
           exists f. repeat split; lia.
        -- change (loops_to_play 1 - 1)%nat with 0%nat.
           unfold passes, ending, pass. cbn. reflexivity.
      * split; [|split; [|reflexivity]].
        -- unfold steady; cbn. repeat split; auto; lia.
        -- unfold ending. cbn. reflexivity.
  - cbn. split; [|split; [|reflexivity]].
    + unfold steady; cbn. repeat split; auto; try lia.
      exists c. repeat split; lia.
    + rewrite (frames_from_cons c tf) by lia. reflexivity.
Qed.

(** Starting what is queued neither plays nor prints anything in an
    undisturbed playback. *)
Lemma start_next_anim_plays (P : Platform) (a : Anim) (now : Z) :
  steady P a ->
  steady P (fst (start_next_anim a now))
  /\ remaining (fst (start_next_anim a now)) = remaining a
  /\ played (snd (start_next_anim a now)) = []
  /\ mem (fst (start_next_anim a now)) = mem a.
Proof.
  intros Hs.
  destruct a as [tlu ca fa tsf tf nl tag ip na nfa nnl ntag intr cp sp m].
  unfold steady in Hs. cbn in Hs. destruct Hs as (Hi & Hs). subst intr.
  unfold start_next_anim. cbn.
  destruct ip.
  - destruct Hs as (Hc & Hq & Hl & Hfin). subst na. cbn.
    split; [|split; [|split]]; try reflexivity.
    unfold steady; cbn. auto.
  - destruct na as [c|]; cbn.
    + destruct Hs as (Hc & Hl & Hfin).
      split; [|split; [|split; reflexivity]].
      * unfold steady; cbn. repeat split; auto; try lia.
        exists c. repeat split; lia.
      * unfold remaining, playback. cbn.
        replace (passes (loops_to_play nnl) (pass m c))
          with (pass m c ++ passes (loops_to_play nnl - 1) (pass m c))
          by (rewrite <- passes_S, <- loops_to_play_S; reflexivity).
        rewrite <- app_assoc. reflexivity.
    + split; [|split; [|split]]; try reflexivity.
      unfold steady; cbn. auto.
Qed.

(** One call of [loop_Animation] in an undisturbed playback: the state
    stays steady, the arrays are not written, and what the call plays is
    the head of what remained. *)
Lemma update_current_anim_plays (P : Platform) (a : Anim) (now : Z) :
  steady P a ->
  steady P (fst (update_current_anim P a now))
  /\ remaining a
     = played (snd (update_current_anim P a now))
       ++ remaining (fst (update_current_anim P a now))
  /\ mem (fst (update_current_anim P a now)) = mem a.
Proof.
  intros Hs. rewrite update_current_anim_eq.
  destruct (animInProgress a) eqn:Hp; [|cbn; auto].
  cbv zeta.
  destruct (switch_frame_plays P a now Hs Hp) as (Hs2 & Hr2 & Hm2).
  destruct (switch_frame P a now) as [a2 e2]. cbn [fst snd] in *.
  destruct (animInProgress a2) eqn:Hp2; [|cbn [fst snd]; auto].
  destruct (tween_servos_plays P a2 now) as (He3 & Hr3 & Hs3 & Hm3).
  destruct (tween_servos P a2 now) as [a3 e3]. cbn [fst snd] in *.
  rewrite played_app, He3, app_nil_r, Hr3.
  split; [auto|]. split; congruence.
Qed.

Lemma loop_Animation_plays (P : Platform) (a : Anim) (now : Z) :
  steady P a ->
  steady P (fst (loop_Animation P a now))
  /\ remaining a
     = played (snd (loop_Animation P a now))
       ++ remaining (fst (loop_Animation P a now))
  /\ mem (fst (loop_Animation P a now)) = mem a.
Proof.
  intros Hs.
  destruct (Z_lt_le_dec now
              (to_long (timeAtLastAnimUpdate a + millisBetweenAnimUpdate)))
    as [Hskip | Hrun].
  - rewrite loop_Animation_skipped by exact Hskip. auto.
  - rewrite loop_Animation_runs by exact Hrun. cbv zeta.
    assert (Hs0 : steady P (set_timeAtLastAnimUpdate now a)) by exact Hs.
    destruct (start_next_anim_plays P _ now Hs0) as (Hs1 & Hr1 & He1 & Hm1).
    change (remaining (set_timeAtLastAnimUpdate now a)) with (remaining a)
      in Hr1.
    change (mem (set_timeAtLastAnimUpdate now a)) with (mem a) in Hm1.
    destruct (start_next_anim (set_timeAtLastAnimUpdate now a) now)
      as [a1 e1].
    cbn [fst snd] in *.
    destruct (update_current_anim_plays P a1 now Hs1) as (Hs2 & Hr2 & Hm2).
    destruct (update_current_anim P a1 now) as [a2 e2]. cbn [fst snd] in *.
    rewrite played_app, He1. cbn [app].
    split; [auto|]. split; congruence.
Qed.

(** Any number of calls: what they play is a prefix of what remained, and
    what remains afterwards is the rest. *)
Lemma run_ticks_plays (P : Platform) (times : list Z) :
  forall a, steady P a ->
  steady P (fst (run_ticks P a times))
  /\ remaining a
     = played (snd (run_ticks P a times))
       ++ remaining (fst (run_ticks P a times))
  /\ mem (fst (run_ticks P a times)) = mem a.
Proof.
  induction times as [|now rest IH]; intros a Hs.
  - cbn. auto.
  - cbn [run_ticks].
    destruct (loop_Animation_plays P a now Hs) as (Hs1 & Hr1 & Hm1).
    destruct (loop_Animation P a now) as [a1 e1]. cbn [fst snd] in *.
    destruct (IH a1 Hs1) as (Hs2 & Hr2 & Hm2).
    destruct (run_ticks P a1 rest) as [a2 e2]. cbn [fst snd] in *.
    rewrite played_app, <- app_assoc, <- Hr2.
    split; [auto|]. split; congruence.
Qed.

(* ------------------------------------------------------------------ *)
(** ** An undisturbed playback comes to its end *)

Arguments work_left : simpl never.
Arguments ticks_left : simpl never.
Arguments ticks_per_frame : simpl never.

Lemma all_anims_complete (n : AnimName) : In n all_anims.
Proof. destruct n; simpl; tauto. Qed.

Lemma tween_time_bound (m : AnimName -> AnimData) (D : Z) (n : AnimName)
    (k : Z) :
  tween_times_within m D = true -> 0 <= D ->
  cell (m n) k TWEEN_TIME_VALUE <= D.
Proof.
  intros H HD. unfold tween_times_within in H.
  rewrite forallb_forall in H. specialize (H n (all_anims_complete n)).
  rewrite forallb_forall in H. unfold cell, TWEEN_TIME_VALUE.
  change (Z.to_nat 0) with O.
  destruct (Nat.lt_ge_cases (Z.to_nat k) (List.length (m n))) as [Hin | Hout].
  - apply Z.leb_le. apply H. apply nth_In. exact Hin.
  - rewrite (nth_overflow (m n)) by exact Hout. simpl. exact HD.
Qed.

Lemma elapsed_no_wrap (P : Platform) (x : Z) :
  0 <= x <= INT_MAX P -> to_int P (to_long x) = x.
Proof.
  intros H.
  assert (INT_MAX P <= 2147483647).
  { unfold INT_MAX. pose proof (int_bits_le_32 P). pose proof (int_bits_pos P).
    assert (2 ^ (int_bits P - 1) <= 2 ^ 31) by (apply Z.pow_le_mono_r; lia).
    change (2 ^ 31) with 2147483648 in *. lia. }
  rewrite to_long_id by lia. apply to_int_id. lia.
Qed.

(** What the frame switch does to a steady state in progress: nothing
    within the tween time; after it, something is played, and the time of
    this call is the start of whatever keyframe comes next. *)
Lemma switch_frame_cases (P : Platform) (a : Anim) (now : Z) :
  steady P a -> animInProgress a = true ->
  (to_int P (to_long (now - timeAtStartOfFrame a))
     <= cell (deref a (currAnim a)) (targetFrame a) TWEEN_TIME_VALUE
   /\ switch_frame P a now = (a, []))
  \/ (to_int P (to_long (now - timeAtStartOfFrame a))
        > cell (deref a (currAnim a)) (targetFrame a) TWEEN_TIME_VALUE
      /\ played (snd (switch_frame P a now)) <> []
      /\ timeAtStartOfFrame (fst (switch_frame P a now)) = now
      /\ timeAtLastAnimUpdate (fst (switch_frame P a now))
         = timeAtLastAnimUpdate a).
Proof.
  intros Hs Hp.
  destruct (Z_le_gt_dec (to_int P (to_long (now - timeAtStartOfFrame a)))
              (cell (deref a (currAnim a)) (targetFrame a) TWEEN_TIME_VALUE))
    as [Hle | Hgt].
  - left. split; [exact Hle | apply switch_frame_wait; exact Hle].
  - right. split; [exact Hgt|].
    destruct a as [tlu ca fa tsf tf nl tag ip na nfa nnl ntag intr cp sp m].
    unfold steady in Hs. cbn in Hs, Hp, Hgt. subst ip.
    destruct Hs as (Hi & (c & Hc & Hf & HN) & Hq & Hl & Hfin). subst.
    unfold switch_frame. cbn.
    replace (_ >? _) with true
      by (symmetry; rewrite Z.gtb_ltb; apply Z.ltb_lt; cbn in Hgt; lia).
    destruct (_ >? _); [|cbn; repeat split; discriminate].
    destruct ((nl <? 0) && true); [cbn; repeat split; discriminate|].
    destruct ((nl <? 0) && false); [|destruct ((nl >? 1) && true)];
      try (cbn; repeat split; discriminate);
      unfold finish_or_report; cbn; destruct fa; cbn;
      repeat split; discriminate.
Qed.

Lemma start_next_anim_in_progress (P : Platform) (a : Anim) (now : Z) :
  steady P a -> animInProgress a = true -> start_next_anim a now = (a, []).
Proof.
  intros (_ & Hs) Hp. rewrite Hp in Hs. destruct Hs as (_ & Hq & _).
  unfold start_next_anim. rewrite Hq. reflexivity.
Qed.

Lemma work_left_in_progress (a : Anim) :
  animInProgress a = true ->
  work_left a = 2 * Z.of_nat (List.length (remaining a)).
Proof. intros H. unfold work_left. rewrite H. lia. Qed.

Lemma work_left_bound (a : Anim) :
  2 * Z.of_nat (List.length (remaining a)) <= work_left a
  <= 2 * Z.of_nat (List.length (remaining a)) + 1.
Proof.
  unfold work_left. destruct (animInProgress a); [lia|].
  destruct (is_null (nextAnim a)); lia.
Qed.

Lemma start_next_anim_promotes (P : Platform) (a : Anim) (now : Z)
    (c : AnimName) :
  steady P a -> animInProgress a = false -> nextAnim a = Some c ->
  animInProgress (fst (start_next_anim a now)) = true
  /\ timeAtStartOfFrame (fst (start_next_anim a now)) = now
  /\ timeAtLastAnimUpdate (fst (start_next_anim a now))
     = timeAtLastAnimUpdate a.
Proof.
  intros (Hi & _) Hp Hq. unfold start_next_anim.
  rewrite Hp, Hq, Hi. cbn. auto.
Qed.

Lemma scaled_le (k x y : Z) : 0 <= k -> x <= y -> k * x <= k * y.
Proof. intros. apply Z.mul_le_mono_nonneg_l; assumption. Qed.

Section Paced.

(** The calls come at most [G] milliseconds apart, keyframes take at most
    [D], and a keyframe's time plus one gap fits in an [int]. *)
Variable P : Platform.
Variables D G : Z.
Hypothesis tween_time_nonneg : 0 <= D.
Hypothesis gap_fits : D + G <= INT_MAX P.

Lemma ticks_per_frame_ge : 2 <= ticks_per_frame D.
Proof.
  unfold ticks_per_frame, millisBetweenAnimUpdate.
  pose proof (Z.div_pos D 20 tween_time_nonneg ltac:(lia)). lia.
Qed.

(** The update of an animation in progress either waits within the
    keyframe or gets work done. *)
Lemma update_progress (a : Anim) (now : Z) :
  steady P a -> animInProgress a = true ->
  tween_times_within (mem a) D = true ->
  timeAtLastAnimUpdate a = now ->
  0 <= now - timeAtStartOfFrame a <= D + G ->
  let a' := fst (update_current_anim P a now) in
  timed D a' /\ timeAtLastAnimUpdate a' = now
  /\ ((work_left a' = work_left a /\ animInProgress a' = true
       /\ timeAtStartOfFrame a' = timeAtStartOfFrame a)
      \/ (work_left a' + 1 <= work_left a
          /\ (animInProgress a' = true -> timeAtStartOfFrame a' = now))).
Proof.
  pose proof tween_time_nonneg as HD. pose proof gap_fits as HG.
  intros Hs Hp Hm Hlu He. cbv zeta.
  rewrite update_current_anim_eq, Hp. cbv zeta.
  assert (Hel : to_int P (to_long (now - timeAtStartOfFrame a))
                = now - timeAtStartOfFrame a)
    by (apply elapsed_no_wrap; lia).
  destruct (switch_frame_cases P a now Hs Hp)
    as [(Hwait & Esw) | (Hgo & Hpl & Htsf & Htlu)].
  - rewrite Esw. cbn [fst snd]. rewrite Hp. cbn [fst snd tween_servos].
    split; [|split; [exact Hlu | left; auto]].
    intros _. cbn. rewrite Hlu. rewrite Hel in Hwait.
    assert (cell (deref a (currAnim a)) (targetFrame a) TWEEN_TIME_VALUE <= D).
    { destruct (currAnim a) as [c|]; cbn [deref].
      - apply tween_time_bound; assumption.
      - unfold cell. destruct (Z.to_nat (targetFrame a)); simpl; lia. }
    lia.
  - destruct (switch_frame_plays P a now Hs Hp) as (Hs2 & Hr2 & Hm2).
    destruct (switch_frame P a now) as [a2 e2]. cbn [fst snd] in *.
    assert (Hlen : (List.length (remaining a2) + 1
                    <= List.length (remaining a))%nat).
    { rewrite Hr2, length_app. destruct (played e2) eqn:E; [congruence|].
      simpl. lia. }
    pose proof (work_left_in_progress a Hp) as Hw.
    pose proof (work_left_bound a2) as Hw2.
    destruct (animInProgress a2) eqn:Hp2; cbn [fst snd tween_servos].
    + split; [|split; [cbn; congruence|right]].
      * intros _. cbn. rewrite Htsf, Htlu, Hlu. lia.
      * split; [|intros _; exact Htsf].
        change (work_left (set_currPos _ a2)) with (work_left a2).
        rewrite (work_left_in_progress a2 Hp2). lia.
    + split; [|split; [congruence|right]].
      * intros H. congruence.
      * split; [lia | intros H; congruence].
Qed.




Lemma ticks_left_pos (a : Anim) :
  timed D a -> remaining a <> [] -> 1 <= ticks_left D a.
Proof.
  pose proof tween_time_nonneg as HD.
  intros Ht Hr. unfold ticks_left.
  pose proof ticks_per_frame_ge as HK.
  pose proof (work_left_bound a) as Hw.
  assert (Hlen : (1 <= List.length (remaining a))%nat)
    by (destruct (remaining a); [congruence | simpl; lia]).
  pose proof (scaled_le (ticks_per_frame D) 2 (work_left a)
                ltac:(lia) ltac:(lia)) as Hm.
  destruct (animInProgress a) eqn:Hp; [|lia].
  specialize (Ht Hp).
  assert ((timeAtLastAnimUpdate a - timeAtStartOfFrame a)
            / millisBetweenAnimUpdate <= ticks_per_frame D - 2).
  { unfold ticks_per_frame, millisBetweenAnimUpdate.
    pose proof (Z.div_le_mono
                  (timeAtLastAnimUpdate a - timeAtStartOfFrame a) D 20
                  ltac:(lia) ltac:(lia)). lia. }
  lia.
Qed.

(** A call that comes in time brings the end of the playback nearer. *)
Lemma loop_Animation_progress (a : Anim) (now : Z) :
  steady P a -> timed D a ->
  tween_times_within (mem a) D = true ->
  0 <= timeAtLastAnimUpdate a ->
  timeAtLastAnimUpdate a + millisBetweenAnimUpdate <= now ->
  now <= timeAtLastAnimUpdate a + G ->
  now <= 2147483647 ->
  let a' := fst (loop_Animation P a now) in
  timed D a' /\ timeAtLastAnimUpdate a' = now
  /\ (remaining a = [] \/ ticks_left D a' + 1 <= ticks_left D a).
Proof.
  pose proof tween_time_nonneg as HD. pose proof gap_fits as HG.
  intros Hs Ht Hm Hlu Hmin Hmax Hlong. cbv zeta.
  pose proof ticks_per_frame_ge as HK.
  assert (Hrun : to_long (timeAtLastAnimUpdate a + millisBetweenAnimUpdate)
                 <= now).
  { rewrite to_long_id; [exact Hmin|].
    unfold millisBetweenAnimUpdate in *. lia. }
  rewrite loop_Animation_runs by exact Hrun. cbv zeta. cbn [fst].
  assert (Hs0 : steady P (set_timeAtLastAnimUpdate now a)) by exact Hs.
  destruct (animInProgress a) eqn:Hp.
  - rewrite (start_next_anim_in_progress P _ now Hs0 Hp). cbn [fst].
    specialize (Ht Hp).
    destruct (update_progress (set_timeAtLastAnimUpdate now a) now
                Hs0 Hp Hm eq_refl)
      as (Ht' & Hlu' & Hcase).
    { cbn. unfold millisBetweenAnimUpdate in *. lia. }
    split; [exact Ht'|]. split; [exact Hlu'|]. right.
    set (a' := fst (update_current_anim P (set_timeAtLastAnimUpdate now a) now))
      in *.
    change (work_left (set_timeAtLastAnimUpdate now a)) with (work_left a)
      in Hcase.
    change (timeAtStartOfFrame (set_timeAtLastAnimUpdate now a))
      with (timeAtStartOfFrame a) in Hcase.
    unfold ticks_left. rewrite Hp.
    assert (He : (timeAtLastAnimUpdate a - timeAtStartOfFrame a)
                   / millisBetweenAnimUpdate <= ticks_per_frame D - 2).
    { unfold ticks_per_frame, millisBetweenAnimUpdate.
      pose proof (Z.div_le_mono
                    (timeAtLastAnimUpdate a - timeAtStartOfFrame a) D 20
                    ltac:(lia) ltac:(lia)). lia. }
    destruct Hcase as [(Hw & Hp' & Htsf) | (Hw & Htsf)].
    + rewrite Hp', Hw, Htsf, Hlu'.
      unfold millisBetweenAnimUpdate in *.
      assert ((timeAtLastAnimUpdate a - timeAtStartOfFrame a) / 20 + 1
              <= (now - timeAtStartOfFrame a) / 20).
      { rewrite <- (Z.div_add _ 1 20) by lia.
        apply Z.div_le_mono; lia. }
      lia.
    + pose proof (scaled_le (ticks_per_frame D) (work_left a')
                    (work_left a - 1) ltac:(lia) ltac:(lia)) as Hsc.
      rewrite Z.mul_sub_distr_l in Hsc.
      destruct (animInProgress a') eqn:Hp'.
      * rewrite (Htsf eq_refl), Hlu', Z.sub_diag.
        change (0 / millisBetweenAnimUpdate) with 0. lia.
      * lia.
  - destruct (nextAnim a) as [c|] eqn:Hq.
    + destruct (start_next_anim_promotes P _ now c Hs0 Hp Hq)
        as (Hp1 & Htsf1 & Hlu1).
      destruct (start_next_anim_plays P _ now Hs0) as (Hs1 & Hr1 & _ & Hm1).
      set (a1 := fst (start_next_anim (set_timeAtLastAnimUpdate now a) now))
        in *.
      cbn in Hlu1.
      destruct (update_progress a1 now Hs1 Hp1)
        as (Ht' & Hlu' & Hcase); auto.
      { rewrite Hm1. exact Hm. }
      { rewrite Htsf1, Z.sub_diag. pose proof (INT_MAX_ge P).
        unfold millisBetweenAnimUpdate in *. lia. }
      split; [exact Ht'|]. split; [exact Hlu'|]. right.
      set (a' := fst (update_current_anim P a1 now)) in *.
      assert (Hw1 : work_left a1 = work_left a - 1).
      { rewrite (work_left_in_progress a1 Hp1), Hr1.
        change (remaining (set_timeAtLastAnimUpdate now a))
          with (remaining a).
        unfold work_left. rewrite Hp, Hq. cbn. lia. }
      unfold ticks_left. rewrite Hp.
      destruct Hcase as [(Hw & Hp' & Htsf) | (Hw & Htsf)].
      * rewrite Hp', Hw, Hw1, Htsf, Htsf1, Hlu', Z.sub_diag.
        change (0 / millisBetweenAnimUpdate) with 0.
        rewrite Z.mul_sub_distr_l. lia.
      * pose proof (scaled_le (ticks_per_frame D) (work_left a')
                      (work_left a - 2) ltac:(lia) ltac:(lia)) as Hsc.
        rewrite Z.mul_sub_distr_l in Hsc.
        destruct (animInProgress a') eqn:Hp'.
        -- rewrite (Htsf eq_refl), Hlu', Z.sub_diag.
           change (0 / millisBetweenAnimUpdate) with 0. lia.
        -- lia.
    + assert (E1 : start_next_anim (set_timeAtLastAnimUpdate now a) now
                   = (set_timeAtLastAnimUpdate now a, [])).
      { unfold start_next_anim. cbn. rewrite Hq. reflexivity. }
      rewrite E1. cbn [fst]. rewrite update_current_anim_eq. cbn.
      rewrite Hp. cbn.
      split; [intros H; cbn in H; congruence|]. split; [reflexivity|].
      left. unfold remaining. rewrite Hp, Hq. reflexivity.
Qed.

(** Enough calls that come in time play all that remained. *)
Lemma run_ticks_completes (times : list Z) :
  forall a,
  steady P a -> timed D a ->
  tween_times_within (mem a) D = true ->
  0 <= timeAtLastAnimUpdate a ->
  paced G (timeAtLastAnimUpdate a) times = true ->
  ticks_left D a <= Z.of_nat (List.length times) ->
  played (snd (run_ticks P a times)) = remaining a.
Proof.
  induction times as [|t rest IH]; intros a Hs Ht Hm Hlu Hpace Hn.
  - cbn. destruct (remaining a) eqn:Hr; [reflexivity|].
    assert (1 <= ticks_left D a)
      by (apply ticks_left_pos; auto; rewrite Hr; discriminate).
    cbn in Hn. lia.
  - cbn [paced] in Hpace.
    apply andb_prop in Hpace. destruct Hpace as [Hpace Hrest].
    apply andb_prop in Hpace. destruct Hpace as [Hpace Hlong].
    apply andb_prop in Hpace. destruct Hpace as [Hmin Hmax].
    apply Z.leb_le in Hmin, Hmax, Hlong.
    destruct (loop_Animation_progress a t Hs Ht Hm Hlu Hmin Hmax Hlong)
      as (Ht1 & Hlu1 & Hcase).
    destruct (run_ticks_plays P (t :: rest) a Hs) as (_ & Hall & _).
    destruct Hcase as [Hnil | Hless].
    + rewrite Hnil in Hall. symmetry in Hall.
      apply app_eq_nil in Hall. rewrite Hnil. tauto.
    + clear Hall. cbn [run_ticks].
      destruct (loop_Animation_plays P a t Hs) as (Hs1 & Hr1 & Hm1).
      destruct (loop_Animation P a t) as [a1 e1]. cbn [fst snd] in *.
      specialize (IH a1 Hs1 Ht1).
      rewrite Hm1, Hlu1 in IH.
      assert (Ht0 : 0 <= t) by (unfold millisBetweenAnimUpdate in Hmin; lia).
      specialize (IH Hm Ht0 Hrest).
      destruct (run_ticks P a1 rest) as [a2 e2]. cbn [fst snd] in *.
      rewrite played_app, Hr1, IH; [reflexivity|].
      cbn [List.length] in Hn. lia.
Qed.

End Paced.

(* ------------------------------------------------------------------ *)
(** ** Playing a queued command *)

(** Right after a command was queued on an idle sequencer: the state is
    steady and what remains to be played is the command's playback. *)
Lemma queued_is_steady (P : Platform) (a : Anim) (c : AnimName)
    (finish : option AnimName) (n : Z) (tag : option Tag) :
  animInProgress a = false -> interruptInProgressAnim a = false ->
  1 <= NumOfFrames (mem a c) < INT_MAX P ->
  playable P (mem a) finish ->
  0 <= n <= INT_MAX P ->
  let q := PlayAnimNumTimes (Some c) finish n tag a in
  steady P q
  /\ remaining q = playback (mem a) c finish n (tag_of tag)
  /\ (forall D, timed D q)
  /\ (forall D, ticks_left D q
                = ticks_per_frame D
                  * (2 * Z.of_nat (List.length (remaining q)) + 1))
  /\ mem q = mem a
  /\ timeAtLastAnimUpdate q = timeAtLastAnimUpdate a.
Proof.
  intros Hp Hi Hc Hf Hn. cbv zeta.
  destruct a as [tlu ca fa tsf tf nl tg ip na nfa nnl ntag intr cp sp m].
  cbn in Hp, Hi, Hc, Hf. subst ip intr.
  destruct tag as [t|]; cbn.
  all: split; [unfold steady; cbn; auto|].
  all: split; [reflexivity|].
  all: split; [intros D H; cbn in H; discriminate H|].
  all: split; [intros D; unfold ticks_left, work_left; cbn; lia|].
  all: split; reflexivity.
Qed.

(** C4.  An animation queued with loop count 2 and a finish animation on
    an idle sequencer, with nothing else queued afterwards: whatever the
    times of the calls of [loop_Animation], what is played and printed is
    a prefix of: the animation's keyframes in order, the same again, the
    finish animation's keyframes, the completion line; and the whole of
    it once the sequencer is idle again.  If the calls come regularly (at
    least one update period and at most [G] ms apart, keyframes taking at
    most [D] ms, [D + G] within [int]) and there are enough of them, the
    whole of it is played. *)
Theorem loop_twice_then_finish (P : Platform) (a : Anim) (c f : AnimName)
    (tag : option Tag) :
  animInProgress a = false -> interruptInProgressAnim a = false ->
  1 <= NumOfFrames (mem a c) < INT_MAX P ->
  1 <= NumOfFrames (mem a f) < INT_MAX P ->
  let queued := PlayAnimNumTimes (Some c) (Some f) 2 tag a in
  let expected := pass (mem a) c ++ pass (mem a) c ++ pass (mem a) f
                  ++ [Line (complete_line (tag_of tag))] in
  (forall times,
     let final := fst (run_ticks P queued times) in
     exists rest,
       expected = played (snd (run_ticks P queued times)) ++ rest
       /\ (animInProgress final = false -> nextAnim final = None ->
           rest = []))
  /\ (forall D G times,
        0 <= D -> D + G <= INT_MAX P ->
        tween_times_within (mem a) D = true ->
        0 <= timeAtLastAnimUpdate a ->
        paced G (timeAtLastAnimUpdate a) times = true ->
        ticks_per_frame D * (2 * Z.of_nat (List.length expected) + 1)
          <= Z.of_nat (List.length times) ->
        played (snd (run_ticks P queued times)) = expected).
Proof.
  intros Hp Hi Hc Hf. cbv zeta.
  pose proof (INT_MAX_ge P) as HM.
  destruct (queued_is_steady P a c (Some f) 2 tag Hp Hi Hc Hf ltac:(lia))
    as (Hs & Hr & Ht & Hk & Hm & Hlu).
  assert (He : playback (mem a) c (Some f) 2 (tag_of tag)
               = pass (mem a) c ++ pass (mem a) c ++ pass (mem a) f
                 ++ [Line (complete_line (tag_of tag))]).
  { unfold playback, ending. change (loops_to_play 2) with 2%nat.
    unfold passes. cbn [repeat List.concat]. rewrite app_nil_r, <- app_assoc.
    reflexivity. }
  rewrite He in Hr. split.
  - intros times.
    destruct (run_ticks_plays P times _ Hs) as (_ & Hall & _).
    eexists. split; [rewrite <- Hr; exact Hall|].
    intros H1 H2. unfold remaining. rewrite H1, H2. reflexivity.
  - intros D G times HD HG Hw H0 Hpace Hn.
    rewrite <- Hr. apply (run_ticks_completes P D G); auto.
    + rewrite Hm. exact Hw.
    + rewrite Hlu. exact H0.
    + rewrite Hlu. exact Hpace.
    + rewrite Hk, Hr. exact Hn.
Qed.

(** The claim on a board: walk forward twice after boot, with calls every
    20 ms. *)
Lemma loop_twice_then_finish_witness :
  let a := setup_Animation uno 0 in
  let tag := Some ("F"%char, "W"%char) in
  let queued := PlayAnimNumTimes (Some walkForwardAnim) (Some walkEndAnim)
                  2 tag a in
  let expected := pass (mem a) walkForwardAnim ++ pass (mem a) walkForwardAnim
                  ++ pass (mem a) walkEndAnim ++ [Line "<FW>"] in
  animInProgress a = false /\ interruptInProgressAnim a = false
  /\ 1 <= NumOfFrames (mem a walkForwardAnim) < INT_MAX uno
  /\ 1 <= NumOfFrames (mem a walkEndAnim) < INT_MAX uno
  /\ 0 <= 500 /\ 500 + 20 <= INT_MAX uno
  /\ tween_times_within (mem a) 500 = true
  /\ 0 <= timeAtLastAnimUpdate a
  /\ paced 20 (timeAtLastAnimUpdate a) (ticks_every 20 1053 0) = true
  /\ ticks_per_frame 500 * (2 * Z.of_nat (List.length expected) + 1)
     <= Z.of_nat (List.length (ticks_every 20 1053 0))
  /\ played (snd (run_ticks uno queued (ticks_every 20 1053 0))) = expected.
Proof.
  cbv zeta.
  assert (H1 : 1 <= NumOfFrames (mem (setup_Animation uno 0) walkForwardAnim)
               < INT_MAX uno) by (vm_compute; split; [discriminate | reflexivity]).
  assert (H2 : 1 <= NumOfFrames (mem (setup_Animation uno 0) walkEndAnim)
               < INT_MAX uno) by (vm_compute; split; [discriminate | reflexivity]).
  assert (H3 : 500 + 20 <= INT_MAX uno) by (vm_compute; discriminate).
  assert (H4 : ticks_per_frame 500
               * (2 * Z.of_nat
                        (List.length
                           (pass (mem (setup_Animation uno 0)) walkForwardAnim
                            ++ pass (mem (setup_Animation uno 0)) walkForwardAnim
                            ++ pass (mem (setup_Animation uno 0)) walkEndAnim
                            ++ [Line "<FW>"])) + 1)
               <= Z.of_nat (List.length (ticks_every 20 1053 0)))
    by (vm_compute; discriminate).
  assert (H5 : paced 20 (timeAtLastAnimUpdate (setup_Animation uno 0))
                 (ticks_every 20 1053 0) = true) by (vm_compute; reflexivity).
  assert (H6 : tween_times_within (mem (setup_Animation uno 0)) 500 = true)
    by (vm_compute; reflexivity).
  do 10 (split; [first [assumption | lia | reflexivity]|]).
  exact (proj2 (loop_twice_then_finish uno (setup_Animation uno 0)
                  walkForwardAnim walkEndAnim (Some ("F"%char, "W"%char))
                  eq_refl eq_refl H1 H2)
           500 20 (ticks_every 20 1053 0) ltac:(lia) H3 H6 ltac:(reflexivity)
           H5 H4).
Defined.

(* ------------------------------------------------------------------ *)
(** ** What [loop_Animation] prints, and when *)

Lemma finish_or_report_mem (a : Anim) (now : Z) :
  mem (fst (finish_or_report a now)) = mem a.
Proof. unfold finish_or_report. destruct (negb _); reflexivity. Qed.

Lemma switch_frame_mem (P : Platform) (a : Anim) (now : Z) :
  mem (fst (switch_frame P a now)) = mem a.
Proof.
  unfold switch_frame.
  repeat match goal with
         | |- context [if ?b then _ else _] => destruct b
         | |- context [let '(_, _) := finish_or_report ?x ?t in _] =>
             let H := fresh in
             pose proof (finish_or_report_mem x t) as H;
             destruct (finish_or_report x t); cbn [fst] in H; cbn [fst];
             rewrite H
         end; reflexivity.
Qed.

Lemma start_next_anim_mem (a : Anim) (now : Z) :
  mem (fst (start_next_anim a now)) = mem a.
Proof.
  unfold start_next_anim.
  destruct (_ && _); [|reflexivity].
  destruct (interruptInProgressAnim a); reflexivity.
Qed.

Lemma update_current_anim_mem (P : Platform) (a : Anim) (now : Z) :
  mem (fst (update_current_anim P a now)) = mem a.
Proof.
  rewrite update_current_anim_eq.
  destruct (animInProgress a); [|reflexivity].
  cbv zeta. pose proof (switch_frame_mem P a now) as H2.
  destruct (switch_frame P a now) as [a2 e2]. cbn [fst snd] in *.
  destruct (animInProgress a2); cbn; congruence.
Qed.

(** [loop_Animation] never writes to the arrays. *)
Lemma loop_Animation_mem (P : Platform) (a : Anim) (now : Z) :
  mem (fst (loop_Animation P a now)) = mem a.
Proof.
  unfold loop_Animation. destruct (_ >? _); [reflexivity|].
  pose proof (start_next_anim_mem (set_timeAtLastAnimUpdate now a) now) as H1.
  destruct (start_next_anim _ now) as [a1 e1]. cbn [fst] in H1.
  pose proof (update_current_anim_mem P a1 now) as H2.
  destruct (update_current_anim P a1 now) as [a2 e2]. cbn [fst] in *.
  rewrite H2, H1. reflexivity.
Qed.

Lemma complete_line_inj (t u : Tag) : complete_line t = complete_line u -> t = u.
Proof.
  destruct t as [t0 t1], u as [u0 u1]. unfold complete_line. cbn.
  intros H. injection H as -> ->. reflexivity.
Qed.

Lemma complete_not_interrupted (t u : Tag) :
  complete_line t <> interrupted_line u.
Proof.
  destruct t as [t0 t1], u as [u0 u1]. unfold complete_line, interrupted_line.
  cbn. intros H. injection H as _ _ H. discriminate H.
Qed.

(** The only line starting an animation can print is the report of an
    interrupt. *)
Lemma start_next_anim_prints (a : Anim) (now : Z) (s : string) :
  In (Println s) (snd (start_next_anim a now)) ->
  s = interrupted_line (animCompleteStr a).
Proof.
  unfold start_next_anim. destruct (_ && _); [|intros []].
  destruct (interruptInProgressAnim a); cbn; [|intros []].
  intros [H | []]. congruence.
Qed.

(** A line printed by the frame switch is the completion line of the
    animation that has just ended, and nothing is in progress then. *)
Lemma switch_frame_prints (P : Platform) (a : Anim) (now : Z) (s : string) :
  In (Println s) (snd (switch_frame P a now)) ->
  animInProgress (fst (switch_frame P a now)) = false
  /\ s = complete_line (animCompleteStr (fst (switch_frame P a now))).
Proof.
  unfold switch_frame, finish_or_report.
  repeat match goal with
         | |- context [if ?b then _ else _] => destruct b
         end; cbn; intros H;
    repeat match goal with
           | H : _ \/ _ |- _ => destruct H as [H | H]
           | H : False |- _ => destruct H
           | H : Resolved _ _ _ = Println _ |- _ => discriminate H
           | H : Println _ = Println _ |- _ => injection H as <-
           end; auto.
Qed.

(** A completion line among what a call of [loop_Animation] printed: the
    sequencer is idle after the call and [animCompleteStr] holds the tag
    just reported. *)
Lemma update_current_anim_prints (P : Platform) (a : Anim) (now : Z)
    (s : string) :
  In (Println s) (snd (update_current_anim P a now)) ->
  animInProgress (fst (update_current_anim P a now)) = false
  /\ s = complete_line (animCompleteStr (fst (update_current_anim P a now))).
Proof.
  rewrite update_current_anim_eq.
  destruct (animInProgress a); [|intros []].
  cbv zeta. pose proof (switch_frame_prints P a now s) as H2.
  destruct (switch_frame P a now) as [a2 e2]. cbn [fst snd] in *.
  destruct (animInProgress a2) eqn:Hp2; cbn [fst snd tween_servos].
  - intros H. apply in_app_or in H. destruct H as [H | H].
    + apply H2 in H. destruct H. discriminate.
    + destruct H as [H | []]. discriminate H.
  - intros H. destruct (H2 H) as [_ E]. auto.
Qed.

Lemma loop_Animation_reports (P : Platform) (a : Anim) (now : Z) (t : Tag) :
  In (Println (complete_line t)) (snd (loop_Animation P a now)) ->
  animInProgress (fst (loop_Animation P a now)) = false
  /\ animCompleteStr (fst (loop_Animation P a now)) = t.
Proof.
  unfold loop_Animation. destruct (_ >? _); [intros []|].
  pose proof (start_next_anim_prints (set_timeAtLastAnimUpdate now a) now
                (complete_line t)) as H1.
  destruct (start_next_anim _ now) as [a1 e1]. cbn [fst snd] in H1.
  pose proof (update_current_anim_prints P a1 now (complete_line t)) as H2.
  destruct (update_current_anim P a1 now) as [a2 e2]. cbn [fst snd] in *.
  intros H. apply in_app_or in H. destruct H as [H | H].
  - apply H1 in H. apply complete_not_interrupted in H. destruct H.
  - destruct (H2 H) as [Hp E]. apply complete_line_inj in E. auto.
Qed.

(** C3.  [StopAnimImmediate] called while an animation is in progress:
    the next call of [loop_Animation] that is not skipped
    (a) prints exactly one line, ["<prevTag,-1>"], [prevTag] being the
    tag of the animation in progress;
    (b) makes the stand-straight animation the current one, with the servo
    positions of that moment as the origin of the interpolation (and
    interpolates from them in the same call);
    (c) leaves a state from which, whatever the times of the later calls,
    nothing is played or printed but the stand-straight keyframe and the
    stop command's own completion line, in this order, each at most
    once; and both are, if the calls come regularly and there are enough
    of them. *)
Theorem stop_immediate_interrupts (P : Platform) (a : Anim) (now : Z)
    (tag : option Tag) :
  animInProgress a = true ->
  mem a standStraightAnim = standStraightAnim_data P ->
  to_long (timeAtLastAnimUpdate a + millisBetweenAnimUpdate) <= now ->
  let r := loop_Animation P (StopAnimImmediate tag a) now in
  let stop := [Frame standStraightAnim 1;
               Line (complete_line (tag_of tag))] in
  lines (snd r) = [interrupted_line (animCompleteStr a)]
  /\ (currAnim (fst r) = Some standStraightAnim
      /\ targetFrame (fst r) = 1
      /\ timeAtStartOfFrame (fst r) = now
      /\ startPos (fst r) = currPos a
      /\ snd r = [Println (interrupted_line (animCompleteStr a));
                  Tweened (Some standStraightAnim) 1 0 300
                    (towards_centre P (currPos a) 0)])
  /\ (forall times, exists rest,
        stop = played (snd (run_ticks P (fst r) times)) ++ rest)
  /\ (forall D G times,
        0 <= D -> D + G <= INT_MAX P ->
        tween_times_within (mem a) D = true ->
        0 <= now -> paced G now times = true ->
        ticks_per_frame D * 4 <= Z.of_nat (List.length times) ->
        played (snd (run_ticks P (fst r) times)) = stop).
Proof.
  intros Hp Hmem Hrun. cbv zeta.
  rewrite (stop_immediate_tick P a now tag Hmem Hrun). cbn [fst snd lines].
  split; [reflexivity|]. split; [repeat split; reflexivity|].
  match goal with
  | |- context [run_ticks P ?s _] => set (s1 := s)
  end.
  assert (Hs : steady P s1).
  { unfold steady, s1. cbn. pose proof (INT_MAX_ge P).
    split; [reflexivity|]. split; [|repeat split; auto; lia].
    exists standStraightAnim. rewrite Hmem.
    change (NumOfFrames (standStraightAnim_data P)) with 1.
    repeat split; lia. }
  assert (Hr : remaining s1
               = [Frame standStraightAnim 1;
                  Line (complete_line (tag_of tag))]).
  { unfold remaining, s1. cbn. rewrite Hmem.
    change (NumOfFrames (standStraightAnim_data P)) with 1.
    reflexivity. }
  split.
  - intros times.
    destruct (run_ticks_plays P times s1 Hs) as (_ & Hall & _).
    exists (remaining (fst (run_ticks P s1 times))).
    rewrite <- Hr. exact Hall.
  - intros D G times HD HG Hw H0 Hpace Hn.
    rewrite <- Hr. apply (run_ticks_completes P D G); auto.
    + intros _. unfold s1. cbn. lia.
    + unfold ticks_left, work_left. rewrite Hr. unfold s1. cbn.
      rewrite Z.sub_diag. change (0 / millisBetweenAnimUpdate) with 0. lia.
Qed.

(** The claim on a board: walking forward is interrupted in its first
    keyframe, 40 ms after it started. *)
Lemma stop_immediate_interrupts_witness :
  let a := walking_forward in
  let r := loop_Animation uno
             (StopAnimImmediate (Some ("S"%char, "I"%char)) a) 80 in
  animInProgress a = true
  /\ mem a standStraightAnim = standStraightAnim_data uno
  /\ to_long (timeAtLastAnimUpdate a + millisBetweenAnimUpdate) <= 80
  /\ lines (snd r) = ["<FW,-1>"%string]
  /\ startPos (fst r) = currPos a
  /\ currPos a = {| LeftHip := 1580; LeftFoot := 1390;
                    RightHip := 1500; RightFoot := 1445 |}
  /\ startPos a = centre_pose
  /\ played (snd (run_ticks uno (fst r) [100; 200; 300; 400; 500]))
     = [Frame standStraightAnim 1; Line "<SI>"].
Proof.
  cbv zeta.
  split; [reflexivity|]. split; [reflexivity|].
  split; [vm_compute; discriminate|].
  pose proof (stop_immediate_interrupts uno walking_forward 80
                (Some ("S"%char, "I"%char)) eq_refl eq_refl
                ltac:(vm_compute; discriminate))
    as (H1 & (_ & _ & _ & H2 & _) & _ & _).
  split; [exact H1|]. split; [exact H2|].
  split; [|split]; vm_compute; reflexivity.
Defined.

(* ------------------------------------------------------------------ *)
(** ** Joints a keyframe leaves out *)

Lemma resolve_frame_joint (d : AnimData) (f : Z) (pos : Joints) (j : Joint) :
  joint_value j (resolve_frame d f pos)
  = if cell d f (joint_column j) >=? 0 then cell d f (joint_column j)
    else joint_value j pos.
Proof.
  unfold resolve_frame.
  destruct j; cbn [joint_column joint_value];
    destruct (cell d f LEFT_HIP_VALUE >=? 0),
             (cell d f LEFT_FOOT_VALUE >=? 0),
             (cell d f RIGHT_HIP_VALUE >=? 0),
             (cell d f RIGHT_FOOT_VALUE >=? 0); reflexivity.
Qed.

Lemma tween_servos_joint (P : Platform) (a : Anim) (now : Z) (j : Joint) :
  joint_value j (currPos (fst (tween_servos P a now)))
  = tween_joint P (deref a (currAnim a)) (targetFrame a) (joint_column j)
      (to_long (now - timeAtStartOfFrame a))
      (joint_value j (startPos a)) (joint_value j (currPos a)).
Proof. destruct j; reflexivity. Qed.

Lemma absent_test (x : Z) : x < 0 -> (x >=? 0) = false.
Proof. intros H. rewrite Z.geb_leb. apply Z.leb_gt. exact H. Qed.

Lemma present_test (x : Z) : 0 <= x -> (x >=? 0) = true.
Proof. intros H. rewrite Z.geb_leb. apply Z.leb_le. exact H. Qed.

(** When the frame switch fires, the servo variables hold the resolved
    keyframe, and so does the origin of the next interpolation. *)
Lemma switch_frame_fires (P : Platform) (a : Anim) (now : Z) :
  to_int P (to_long (now - timeAtStartOfFrame a))
    > cell (deref a (currAnim a)) (targetFrame a) TWEEN_TIME_VALUE ->
  currPos (fst (switch_frame P a now))
  = resolve_frame (deref a (currAnim a)) (targetFrame a) (currPos a)
  /\ startPos (fst (switch_frame P a now))
     = resolve_frame (deref a (currAnim a)) (targetFrame a) (currPos a)
  /\ exists rest,
       snd (switch_frame P a now)
       = Resolved (currAnim a) (targetFrame a)
           (resolve_frame (deref a (currAnim a)) (targetFrame a) (currPos a))
         :: rest.
Proof.
  intros Hgt. unfold switch_frame, finish_or_report.
  replace (_ >? _) with true
    by (symmetry; rewrite Z.gtb_ltb; apply Z.ltb_lt; lia).
  repeat match goal with
         | |- context [if ?b then _ else _] => destruct b
         end; cbn; repeat split; eauto.
Qed.

(** C8.  While keyframe [f] of the current animation is the target and
    its value for joint [j] is absent (negative) and its value for joint
    [k] is present: the frame switch and the interpolation leave [j]
    where it is, so does a whole call of [loop_Animation] that stays
    within the keyframe, and at the keyframe's end the position reported
    to the servos and the origin of the next interpolation have [j] still
    there; joint [k] is interpolated from its origin towards its value
    and is at that value when the keyframe ends. *)
Theorem absent_joint_is_held (P : Platform) (a : Anim) (now : Z)
    (j k : Joint) :
  let d := deref a (currAnim a) in
  let f := targetFrame a in
  let elapsed := to_int P (to_long (now - timeAtStartOfFrame a)) in
  cell d f (joint_column j) < 0 ->
  0 <= cell d f (joint_column k) ->
  (* the absent joint *)
  joint_value j (currPos (fst (switch_frame P a now))) = joint_value j (currPos a)
  /\ joint_value j (currPos (fst (tween_servos P a now)))
     = joint_value j (currPos a)
  /\ (animInProgress a = true -> nextAnim a = None ->
      elapsed <= cell d f TWEEN_TIME_VALUE ->
      joint_value j (currPos (fst (loop_Animation P a now)))
      = joint_value j (currPos a))
  /\ (elapsed > cell d f TWEEN_TIME_VALUE ->
      joint_value j (startPos (fst (switch_frame P a now)))
      = joint_value j (currPos a)
      /\ exists pos rest,
           snd (switch_frame P a now) = Resolved (currAnim a) f pos :: rest
           /\ joint_value j pos = joint_value j (currPos a))
  (* a present joint *)
  /\ joint_value k (currPos (fst (tween_servos P a now)))
     = tween P (joint_value k (startPos a)) (cell d f (joint_column k))
         (to_long (now - timeAtStartOfFrame a)) (cell d f TWEEN_TIME_VALUE)
  /\ (elapsed > cell d f TWEEN_TIME_VALUE ->
      joint_value k (currPos (fst (switch_frame P a now)))
      = cell d f (joint_column k)).
Proof.
  cbv zeta. intros Hj Hk.
  assert (Hsw : joint_value j (currPos (fst (switch_frame P a now)))
                = joint_value j (currPos a)).
  { destruct (Z_le_gt_dec
                (to_int P (to_long (now - timeAtStartOfFrame a)))
                (cell (deref a (currAnim a)) (targetFrame a) TWEEN_TIME_VALUE))
      as [Hle | Hgt].
    - rewrite switch_frame_wait by exact Hle. reflexivity.
    - destruct (switch_frame_fires P a now Hgt) as (-> & _ & _).
      rewrite resolve_frame_joint, absent_test by exact Hj. reflexivity. }
  assert (Htw : joint_value j (currPos (fst (tween_servos P a now)))
                = joint_value j (currPos a)).
  { rewrite tween_servos_joint. unfold tween_joint.
    rewrite absent_test by exact Hj. reflexivity. }
  split; [exact Hsw|]. split; [exact Htw|]. split; [|split; [|split]].
  - intros Hp Hq Hle. unfold loop_Animation.
    destruct (_ >? _); [reflexivity|].
    assert (E1 : start_next_anim (set_timeAtLastAnimUpdate now a) now
                 = (set_timeAtLastAnimUpdate now a, []))
      by (unfold start_next_anim; cbn; rewrite Hq; reflexivity).
    rewrite E1, update_current_anim_eq. cbn [animInProgress set_timeAtLastAnimUpdate].
    rewrite Hp. cbv zeta.
    rewrite switch_frame_wait by exact Hle. cbn [fst snd].
    cbn [animInProgress set_timeAtLastAnimUpdate]. rewrite Hp.
    exact Htw.
  - intros Hgt.
    destruct (switch_frame_fires P a now Hgt) as (_ & -> & rest & ->).
    rewrite resolve_frame_joint, absent_test by exact Hj.
    split; [reflexivity|]. do 2 eexists. split; [reflexivity|].
    rewrite resolve_frame_joint, absent_test by exact Hj. reflexivity.
  - rewrite tween_servos_joint. unfold tween_joint.
    rewrite present_test by exact Hk. reflexivity.
  - intros Hgt. destruct (switch_frame_fires P a now Hgt) as (-> & _ & _).
    rewrite resolve_frame_joint, present_test by exact Hk. reflexivity.
Qed.

(** The claim on a board: ["<SV,200,100,2000,0,0>"] asks for a left foot
    value below zero, which the sequencer takes as absent; 40 ms into the
    keyframe the left foot is where it was and the left hip is on its
    way. *)
Lemma absent_joint_is_held_witness :
  let a := foot_left_out in
  let d := deref a (currAnim a) in
  let f := targetFrame a in
  cell d f (joint_column LeftFootJoint) < 0
  /\ 0 <= cell d f (joint_column LeftHipJoint)
  /\ animInProgress a = true /\ nextAnim a = None
  /\ to_int uno (to_long (60 - timeAtStartOfFrame a))
     <= cell d f TWEEN_TIME_VALUE
  /\ joint_value LeftFootJoint (currPos (fst (loop_Animation uno a 60)))
     = joint_value LeftFootJoint (currPos a)
  /\ joint_value LeftFootJoint (currPos a) = 1410
  /\ joint_value LeftHipJoint (currPos (fst (tween_servos uno a 60))) = 1600.
Proof.
  cbv zeta.
  assert (H1 : cell (deref foot_left_out (currAnim foot_left_out))
                 (targetFrame foot_left_out) (joint_column LeftFootJoint) < 0)
    by (vm_compute; reflexivity).
  assert (H2 : 0 <= cell (deref foot_left_out (currAnim foot_left_out))
                      (targetFrame foot_left_out) (joint_column LeftHipJoint))
    by (vm_compute; discriminate).
  assert (H5 : to_int uno (to_long (60 - timeAtStartOfFrame foot_left_out))
               <= cell (deref foot_left_out (currAnim foot_left_out))
                    (targetFrame foot_left_out) TWEEN_TIME_VALUE)
    by (vm_compute; discriminate).
  pose proof (absent_joint_is_held uno foot_left_out 60 LeftFootJoint
                LeftHipJoint H1 H2) as (_ & _ & H3 & _ & H4 & _).
  split; [exact H1|]. split; [exact H2|].
  split; [reflexivity|]. split; [reflexivity|].
  split; [exact H5|].
  split; [exact (H3 eq_refl eq_refl H5)|].
  split; [reflexivity|].
  rewrite H4. vm_compute. reflexivity.
Defined.

(* ------------------------------------------------------------------ *)
(** ** A keyframe with tween time 0 *)

(** A target keyframe with tween time 0 is resolved by the next call of
    [loop_Animation] that is not skipped, provided the time since the
    keyframe became the target still fits in an [int]. *)
Lemma zero_tween_resolves_next_tick (P : Platform) (a : Anim) (now : Z) :
  animInProgress a = true ->
  cell (deref a (currAnim a)) (targetFrame a) TWEEN_TIME_VALUE = 0 ->
  0 < now - timeAtStartOfFrame a <= INT_MAX P ->
  exists rest,
    snd (switch_frame P a now)
    = Resolved (currAnim a) (targetFrame a)
        (resolve_frame (deref a (currAnim a)) (targetFrame a) (currPos a))
      :: rest.
Proof.
  intros Hp Hz He. apply switch_frame_fires.
  rewrite Hz, elapsed_no_wrap by lia. lia.
Qed.

(** Starting what is queued on an idle sequencer, no interrupt pending. *)
Lemma start_next_anim_idle (a : Anim) (now : Z) (c : AnimName) :
  animInProgress a = false -> interruptInProgressAnim a = false ->
  nextAnim a = Some c ->
  start_next_anim a now =
  ({| timeAtLastAnimUpdate := timeAtLastAnimUpdate a;
      currAnim := Some c; finishAnim := nextFinishAnim a;
      timeAtStartOfFrame := now; targetFrame := 1;
      animNumLoops := nextAnimNumLoops a;
      animCompleteStr := nextAnimCompleteStr a;
      animInProgress := true;
      nextAnim := None; nextFinishAnim := None;
      nextAnimNumLoops := nextAnimNumLoops a;
      nextAnimCompleteStr := no_tag;
      interruptInProgressAnim := false;
      currPos := currPos a; startPos := startPos a; mem := mem a |}, []).
Proof.
  intros Hp Hi Hq. destruct a. cbn in Hp, Hi, Hq. subst. reflexivity.
Qed.

Lemma start_next_anim_nothing_queued (a : Anim) (now : Z) :
  nextAnim a = None -> start_next_anim a now = (a, []).
Proof. intros H. unfold start_next_anim. rewrite H. reflexivity. Qed.

(** The last keyframe of a last pass with no finish animation: once its
    tween time is over, the frame switch resolves it and prints the
    completion. *)
Lemma switch_frame_last (P : Platform) (a : Anim) (now : Z) (c : AnimName) :
  currAnim a = Some c -> finishAnim a = None ->
  0 <= animNumLoops a <= 1 ->
  targetFrame a = NumOfFrames (mem a c) ->
  -1 <= NumOfFrames (mem a c) < INT_MAX P ->
  to_int P (to_long (now - timeAtStartOfFrame a))
    > cell (mem a c) (targetFrame a) TWEEN_TIME_VALUE ->
  snd (switch_frame P a now)
  = [Resolved (Some c) (targetFrame a)
       (resolve_frame (mem a c) (targetFrame a) (currPos a));
     Println (complete_line (animCompleteStr a))]
  /\ animInProgress (fst (switch_frame P a now)) = false.
Proof.
  intros Hc Hf Hl Ht HN Hgt.
  destruct a as [tlu ca fa tsf tf nl tag ip na nfa nnl ntag intr cp sp m].
  cbn in *. subst ca fa tf.
  unfold switch_frame. cbn.
  replace (_ >? _) with true
    by (symmetry; rewrite Z.gtb_ltb; apply Z.ltb_lt; lia).
  rewrite (to_int_id P (NumOfFrames (m c) + 1)) by lia.
  replace (NumOfFrames (m c) + 1 >? NumOfFrames (m c)) with true
    by (symmetry; rewrite Z.gtb_ltb; apply Z.ltb_lt; lia).
  replace (nl <? 0) with false by (symmetry; apply Z.ltb_ge; lia).
  replace (nl >? 1) with false
    by (symmetry; rewrite Z.gtb_ltb; apply Z.ltb_ge; lia).
  cbn. split; reflexivity.
Qed.

(** C6 (the sketch at the failing input).  After boot, [SetServos] with
    tween time 0 (the command ["<SV,0,0,0,0,0>"]): the call of
    [loop_Animation] that starts the keyframe interpolates towards it in
    the same call, dividing the elapsed time 0 by the tween time 0; the
    keyframe is resolved and the completion printed by the call after
    that.  The same is seen from the serial input on a 16-bit and on a
    32-bit board. *)
Theorem zero_tween_time_divides_by_zero :
  (forall P : Platform,
     let queued := SetServos P 0 0 0 0 0 (Some ("S"%char, "V"%char))
                     (setup_Animation P 0) in
     exists pos,
       snd (loop_Animation P queued 20)
       = [Tweened (Some setServosAnim1) 1 0 0 pos]
       /\ lines (snd (loop_Animation P (fst (loop_Animation P queued 20)) 40))
          = ["<SV>"%string])
  /\ (let inputs := map (fun c => (Some c, 0))
                      (list_ascii_of_string "<SV,0,0,0,0,0>")
                    ++ [(None, 20); (None, 40)] in
      snd (run uno (fst (setup uno 0)) inputs)
      = [Tweened (Some setServosAnim1) 1 0 0 centre_pose;
         Resolved (Some setServosAnim1) 1 centre_pose;
         Println "<SV>"]
      /\ snd (run due (fst (setup due 0)) inputs)
         = [Tweened (Some setServosAnim1) 1 0 0 centre_pose;
            Resolved (Some setServosAnim1) 1 centre_pose;
            Println "<SV>"]).
Proof.
  split; [|split; vm_compute; reflexivity].
  intros P. cbv zeta.
  set (q := SetServos P 0 0 0 0 0 (Some ("S"%char, "V"%char))
              (setup_Animation P 0)).
  assert (Hm : cell (mem q setServosAnim1) 1 TWEEN_TIME_VALUE = 0)
    by reflexivity.
  assert (Hn : NumOfFrames (mem q setServosAnim1) = 1) by reflexivity.
  rewrite loop_Animation_runs by (vm_compute; discriminate).
  cbv zeta.
  rewrite (start_next_anim_idle (set_timeAtLastAnimUpdate 20 q) 20
             setServosAnim1 eq_refl eq_refl eq_refl).
  cbn [fst snd]. rewrite update_current_anim_eq. cbn [animInProgress].
  cbv zeta. rewrite switch_frame_wait.
  2:{ cbn [timeAtStartOfFrame currAnim targetFrame deref mem
           set_timeAtLastAnimUpdate].
      rewrite no_time_elapsed, Hm. lia. }
  cbn [fst snd animInProgress]. unfold tween_servos.
  cbn [fst snd timeAtStartOfFrame currAnim targetFrame deref mem startPos
       currPos set_currPos timeAtLastAnimUpdate finishAnim animNumLoops
       animCompleteStr animInProgress nextAnim nextFinishAnim
       nextAnimNumLoops nextAnimCompleteStr interruptInProgressAnim app
       set_timeAtLastAnimUpdate].
  eexists. split.
  { rewrite Hm. change (to_long (20 - 20)) with 0. reflexivity. }
  rewrite loop_Animation_runs by (vm_compute; discriminate).
  cbv zeta.
  rewrite start_next_anim_nothing_queued by reflexivity.
  cbn [fst snd]. rewrite update_current_anim_eq. cbn [animInProgress].
  cbv zeta.
  match goal with
  | |- context [switch_frame P ?s 40] =>
      destruct (switch_frame_last P s 40 setServosAnim1) as [He Hp];
      try reflexivity
  end.
  all: cbn [timeAtStartOfFrame currAnim targetFrame deref mem startPos
       currPos set_currPos timeAtLastAnimUpdate finishAnim animNumLoops
       animCompleteStr animInProgress nextAnim nextFinishAnim
       nextAnimNumLoops nextAnimCompleteStr interruptInProgressAnim
       set_timeAtLastAnimUpdate].
  - cbn. lia.
  - rewrite Hn. pose proof (INT_MAX_ge P). lia.
  - rewrite Hm.
    rewrite (elapsed_no_wrap P (40 - 20)) by (pose proof (INT_MAX_ge P); lia).
    lia.
  - rewrite Hp, He. reflexivity.
Qed.

(* ------------------------------------------------------------------ *)
(** ** Loop counts 0 and 1 behave alike *)

Lemma loops_alike_refl (x : Z) : loops_alike x x.
Proof. left. reflexivity. Qed.

Lemma loops_alike_tests (x y : Z) :
  loops_alike x y ->
  (y <? 0) = (x <? 0) /\ (y >? 1) = (x >? 1)
  /\ ((x >? 1) = true -> y = x).
Proof.
  intros [-> | [Hx Hy]]; [auto|].
  rewrite !Z.gtb_ltb.
  destruct (Z.ltb_spec y 0), (Z.ltb_spec x 0), (Z.ltb_spec 1 y),
    (Z.ltb_spec 1 x); try lia; repeat split; auto; discriminate.
Qed.

Lemma alike_refl (a : Anim) : alike a a.
Proof. unfold alike. repeat split; auto using loops_alike_refl. Qed.

Ltac alike_records a b H :=
  destruct a, b; unfold alike in H; cbn in H;
  decompose [and] H; clear H; subst.

Ltac alike_done :=
  unfold alike; cbn; repeat split; auto using loops_alike_refl.

Lemma alike_PlayAnimNumTimes (a b : Anim) (c f : option AnimName) (n m : Z)
    (t : option Tag) :
  alike a b -> loops_alike n m ->
  alike (PlayAnimNumTimes c f n t a) (PlayAnimNumTimes c f m t b).
Proof.
  intros H Hn. alike_records a b H. destruct t; alike_done.
Qed.

Lemma alike_SetServos (P : Platform) (a b : Anim) (t lh lf rh rf : Z)
    (tag : option Tag) :
  alike a b -> alike (SetServos P t lh lf rh rf tag a)
                 (SetServos P t lh lf rh rf tag b).
Proof.
  intros H. alike_records a b H. destruct tag; alike_done.
Qed.

Lemma alike_StopAnimImmediate (a b : Anim) (t : option Tag) :
  alike a b -> alike (StopAnimImmediate t a) (StopAnimImmediate t b).
Proof.
  intros H. alike_records a b H. destruct t; alike_done.
Qed.

Lemma alike_handle_command (P : Platform) (c : Command) (a b : Anim) :
  alike a b ->
  alike (fst (handle_command P c a)) (fst (handle_command P c b))
  /\ snd (handle_command P c a) = snd (handle_command P c b).
Proof.
  intros H. unfold handle_command.
  repeat match goal with
         | |- context [if is_cmd ?c ?x ?y then _ else _] =>
             destruct (is_cmd c x y)
         end; cbn [fst snd]; (split; [|reflexivity]);
    try exact H;
    try (apply alike_PlayAnimNumTimes; [exact H | apply loops_alike_refl]).
  - apply alike_SetServos. exact H.
  - apply alike_StopAnimImmediate. exact H.
Qed.

Lemma alike_start_next_anim (a b : Anim) (now : Z) :
  alike a b ->
  alike (fst (start_next_anim a now)) (fst (start_next_anim b now))
  /\ snd (start_next_anim a now) = snd (start_next_anim b now).
Proof.
  intros H. alike_records a b H. unfold start_next_anim. cbn.
  destruct (_ && _); [|split; [alike_done | reflexivity]].
  match goal with
  | |- context [if ?i then _ else _] => destruct i
  end; cbn; (split; [alike_done | reflexivity]).
Qed.

Lemma alike_switch_frame (P : Platform) (a b : Anim) (now : Z) :
  alike a b ->
  alike (fst (switch_frame P a now)) (fst (switch_frame P b now))
  /\ snd (switch_frame P a now) = snd (switch_frame P b now).
Proof.
  intros H.
  destruct a as [tlu ca fa tsf tf nl tag ip na nfa nnl ntag intr cp sp m],
           b as [tlu' ca' fa' tsf' tf' nl' tag' ip' na' nfa' nnl' ntag' intr'
                 cp' sp' m'].
  unfold alike in H. cbn in H.
  destruct H as (? & ? & ? & ? & ? & Hl & ? & ? & ? & ? & Hnl & ? & ? & ? & ?
                 & ?).
  subst.
  destruct (loops_alike_tests nl nl' Hl) as (E1 & E2 & E3).
  unfold switch_frame, finish_or_report, deref. cbn. rewrite E1, E2.
  destruct (to_int P (to_long (now - tsf')) >? _);
    [|split; [alike_done | reflexivity]].
  destruct (to_int P (tf' + 1) >? _); [|split; [alike_done | reflexivity]].
  match goal with
  | |- context [(?x <? 0) && _] => destruct (x <? 0)
  end; cbn [andb].
  - match goal with
    | |- context [is_null ?n] => destruct (is_null n)
    end; cbn [negb].
    + cbn. split; [alike_done | reflexivity].
    + match goal with
      | |- context [is_null ?n] => destruct (is_null n)
      end; cbn; (split; [alike_done | reflexivity]).
  - match goal with
    | |- context [(?x >? 1) && _] => destruct (x >? 1) eqn:E
    end; cbn [andb].
    + rewrite (E3 eq_refl).
      match goal with
      | |- context [is_null ?n] => destruct (is_null n)
      end; cbn [negb].
      * cbn. split; [alike_done | reflexivity].
      * match goal with
        | |- context [is_null ?n] => destruct (is_null n)
        end; cbn; (split; [alike_done | reflexivity]).
    + match goal with
      | |- context [is_null ?n] => destruct (is_null n)
      end; cbn; (split; [alike_done | reflexivity]).
Qed.

Lemma alike_tween_servos (P : Platform) (a b : Anim) (now : Z) :
  alike a b ->
  alike (fst (tween_servos P a now)) (fst (tween_servos P b now))
  /\ snd (tween_servos P a now) = snd (tween_servos P b now).
Proof.
  intros H. alike_records a b H. unfold tween_servos, deref. cbn.
  split; [alike_done | reflexivity].
Qed.

Lemma alike_in_progress (a b : Anim) :
  alike a b -> animInProgress a = animInProgress b.
Proof. intros H. unfold alike in H. tauto. Qed.

Lemma alike_update_current_anim (P : Platform) (a b : Anim) (now : Z) :
  alike a b ->
  alike (fst (update_current_anim P a now)) (fst (update_current_anim P b now))
  /\ snd (update_current_anim P a now) = snd (update_current_anim P b now).
Proof.
  intros H. rewrite !update_current_anim_eq.
  rewrite <- (alike_in_progress a b H).
  destruct (animInProgress a); [|split; [exact H | reflexivity]].
  cbv zeta. destruct (alike_switch_frame P a b now H) as [H2 E2].
  rewrite <- (alike_in_progress _ _ H2), <- E2.
  destruct (animInProgress (fst (switch_frame P a now)));
    [|split; [exact H2 | exact E2]].
  destruct (alike_tween_servos P _ _ now H2) as [H3 E3].
  cbn [fst snd]. rewrite <- E3. split; [exact H3 | reflexivity].
Qed.

Lemma alike_loop_Animation (P : Platform) (a b : Anim) (now : Z) :
  alike a b ->
  alike (fst (loop_Animation P a now)) (fst (loop_Animation P b now))
  /\ snd (loop_Animation P a now) = snd (loop_Animation P b now).
Proof.
  intros H. unfold loop_Animation.
  replace (timeAtLastAnimUpdate b) with (timeAtLastAnimUpdate a)
    by (unfold alike in H; tauto).
  destruct (_ >? _); [split; [exact H | reflexivity]|].
  assert (H0 : alike (set_timeAtLastAnimUpdate now a)
                 (set_timeAtLastAnimUpdate now b))
    by (alike_records a b H; alike_done).
  destruct (alike_start_next_anim _ _ now H0) as [H1 E1].
  destruct (start_next_anim (set_timeAtLastAnimUpdate now a) now) as [a1 e1],
           (start_next_anim (set_timeAtLastAnimUpdate now b) now) as [b1 f1].
  cbn [fst snd] in *. subst f1.
  destruct (alike_update_current_anim P a1 b1 now H1) as [H2 E2].
  destruct (update_current_anim P a1 now) as [a2 e2],
           (update_current_anim P b1 now) as [b2 f2].
  cbn [fst snd] in *. subst f2. split; [exact H2 | reflexivity].
Qed.

Lemma alike_loop (P : Platform) (p : Parser) (a b : Anim)
    (avail : option ascii) (now : Z) :
  alike a b ->
  parser (fst (loop P {| parser := p; anim := a |} avail now))
  = parser (fst (loop P {| parser := p; anim := b |} avail now))
  /\ alike (anim (fst (loop P {| parser := p; anim := a |} avail now)))
       (anim (fst (loop P {| parser := p; anim := b |} avail now)))
  /\ snd (loop P {| parser := p; anim := a |} avail now)
     = snd (loop P {| parser := p; anim := b |} avail now).
Proof.
  intros H. unfold loop, loop_Parser. cbn [parser anim].
  destruct avail as [c|].
  - destruct (parser_step P p c) as [q [cmd|]].
    + destruct (alike_handle_command P cmd a b H) as [H1 E1].
      destruct (handle_command P cmd a) as [a1 e1],
               (handle_command P cmd b) as [b1 f1].
      cbn [fst snd parser anim] in *. subst f1.
      destruct (alike_loop_Animation P a1 b1 now H1) as [H2 E2].
      destruct (loop_Animation P a1 now) as [a2 e2],
               (loop_Animation P b1 now) as [b2 f2].
      cbn [fst snd parser anim] in *. subst f2. auto.
    + cbn [parser anim].
      destruct (alike_loop_Animation P a b now H) as [H2 E2].
      destruct (loop_Animation P a now) as [a2 e2],
               (loop_Animation P b now) as [b2 f2].
      cbn [fst snd parser anim] in *. subst f2. auto.
  - cbn [parser anim].
    destruct (alike_loop_Animation P a b now H) as [H2 E2].
    destruct (loop_Animation P a now) as [a2 e2],
             (loop_Animation P b now) as [b2 f2].
    cbn [fst snd parser anim] in *. subst f2. auto.
Qed.

(** Whatever arrives later, two states that are alike print, play and
    move the servos alike. *)
Lemma alike_run (P : Platform) (inputs : list (option ascii * Z)) :
  forall (p : Parser) (a b : Anim),
  alike a b ->
  snd (run P {| parser := p; anim := a |} inputs)
  = snd (run P {| parser := p; anim := b |} inputs).
Proof.
  induction inputs as [|[avail now] rest IH]; intros p a b H; [reflexivity|].
  cbn [run].
  destruct (alike_loop P p a b avail now H) as (Hp & Ha & He).
  destruct (loop P {| parser := p; anim := a |} avail now) as [[p1 a1] e1],
           (loop P {| parser := p; anim := b |} avail now) as [[p2 b1] f1].
  cbn [fst snd parser anim] in *. subst p2 f1.
  specialize (IH p1 a1 b1 Ha).
  destruct (run P {| parser := p1; anim := a1 |} rest) as [r1 e2],
           (run P {| parser := p1; anim := b1 |} rest) as [r2 f2].
  cbn [snd] in IH. subst f2. reflexivity.
Qed.

(** A command without parameters is handed over with all parameters 0. *)
Lemma bare_command_fed (P : Platform) (l0 l1 : ascii) :
  is_upper l0 = true -> is_upper l1 = true ->
  dispatches P (String "<" (String l0 (String l1 ">")))
  = [command_with l0 l1 []].
Proof.
  intros H0 H1.
  destruct (command_fed P setup_Parser
              {| letter0 := l0; letter1 := l1; params := [] |} eq_refl)
    as (q & Hq & _).
  - unfold wf_command. cbn. rewrite H0, H1. reflexivity.
  - change (dispatches P (String "<" (String l0 (String l1 ">"))))
      with (snd (feed P setup_Parser
                   (render_command
                      {| letter0 := l0; letter1 := l1; params := [] |}))).
    rewrite Hq. reflexivity.
Qed.

(** C7.  An animation queued with loop count 0 on an idle sequencer
    behaves as the same animation queued with loop count 1: whatever
    arrives afterwards (bytes, calls of [loop_Animation] at any times),
    the sketch prints the same lines and moves the servos the same way.
    With nothing else queued, what is played is a prefix of: one pass of
    the animation, the finish animation if there is one, the completion
    line; all of it once the sequencer is idle again, and all of it if
    the calls come regularly and there are enough of them.  A command
    sent without a count reaches the handler with count 0, and the
    handler queues the animation with that count. *)
Theorem zero_loops_play_once (P : Platform) (a : Anim) (c : AnimName)
    (finish : option AnimName) (tag : option Tag) :
  animInProgress a = false -> interruptInProgressAnim a = false ->
  1 <= NumOfFrames (mem a c) < INT_MAX P ->
  playable P (mem a) finish ->
  let zero := PlayAnimNumTimes (Some c) finish 0 tag a in
  let one := PlayAnimNumTimes (Some c) finish 1 tag a in
  let expected := pass (mem a) c ++ ending (mem a) finish (tag_of tag) in
  (forall p inputs,
     snd (run P {| parser := p; anim := zero |} inputs)
     = snd (run P {| parser := p; anim := one |} inputs))
  /\ (forall times,
        let final := fst (run_ticks P zero times) in
        exists rest,
          expected = played (snd (run_ticks P zero times)) ++ rest
          /\ (animInProgress final = false -> nextAnim final = None ->
              rest = []))
  /\ (forall D G times,
        0 <= D -> D + G <= INT_MAX P ->
        tween_times_within (mem a) D = true ->
        0 <= timeAtLastAnimUpdate a ->
        paced G (timeAtLastAnimUpdate a) times = true ->
        ticks_per_frame D * (2 * Z.of_nat (List.length expected) + 1)
          <= Z.of_nat (List.length times) ->
        played (snd (run_ticks P zero times)) = expected)
  /\ (forall l0 l1, is_upper l0 = true -> is_upper l1 = true ->
        map numTimes_of
          (dispatches P (String "<" (String l0 (String l1 ">")))) = [0])
  /\ (forall cmd b, is_cmd cmd "F" "W" = true -> param1 cmd = 0 ->
        fst (handle_command P cmd b)
        = PlayAnimNumTimes (Some walkForwardAnim) (Some walkEndAnim) 0
            (Some ("F"%char, "W"%char)) b).
Proof.
  intros Hp Hi Hc Hf. cbv zeta.
  pose proof (INT_MAX_ge P) as HM.
  destruct (queued_is_steady P a c finish 0 tag Hp Hi Hc Hf ltac:(lia))
    as (Hs & Hr & Ht & Hk & Hm & Hlu).
  assert (He : playback (mem a) c finish 0 (tag_of tag)
               = pass (mem a) c ++ ending (mem a) finish (tag_of tag)).
  { unfold playback. change (loops_to_play 0) with 1%nat.
    unfold passes. cbn [repeat List.concat]. rewrite app_nil_r.
    reflexivity. }
  rewrite He in Hr.
  split; [|split; [|split; [|split]]].
  - intros p inputs. apply alike_run.
    apply alike_PlayAnimNumTimes; [apply alike_refl|].
    right. lia.
  - intros times.
    destruct (run_ticks_plays P times _ Hs) as (_ & Hall & _).
    eexists. split; [rewrite <- Hr; exact Hall|].
    intros H1 H2. unfold remaining. rewrite H1, H2. reflexivity.
  - intros D G times HD HG Hw H0 Hpace Hn.
    rewrite <- Hr. apply (run_ticks_completes P D G); auto.
    + rewrite Hm. exact Hw.
    + rewrite Hlu. exact H0.
    + rewrite Hlu. exact Hpace.
    + rewrite Hk, Hr. exact Hn.
  - intros l0 l1 H0 H1. rewrite bare_command_fed by assumption. reflexivity.
  - intros cmd b Hcmd Hz. unfold handle_command.
    assert (Hl0 : cmd0 cmd = "F"%char /\ cmd1 cmd = "W"%char).
    { unfold is_cmd in Hcmd. apply andb_prop in Hcmd.
      destruct Hcmd as [H0 H1].
      apply Ascii.eqb_eq in H0, H1. auto. }
    destruct Hl0 as [E0 E1]. unfold is_cmd, numTimes_of.
    rewrite E0, E1, Hz. reflexivity.
Qed.

(** The claim on a board: turn left with count 0 after boot, calls every
    20 ms. *)
Lemma zero_loops_play_once_witness :
  let a := setup_Animation uno 0 in
  let tag := Some ("L"%char, "T"%char) in
  let zero := PlayAnimNumTimes (Some turnLeftAnim) None 0 tag a in
  let one := PlayAnimNumTimes (Some turnLeftAnim) None 1 tag a in
  let expected := pass (mem a) turnLeftAnim ++ [Line "<LT>"] in
  animInProgress a = false /\ interruptInProgressAnim a = false
  /\ 1 <= NumOfFrames (mem a turnLeftAnim) < INT_MAX uno
  /\ playable uno (mem a) None
  /\ 0 <= 500 /\ 500 + 20 <= INT_MAX uno
  /\ tween_times_within (mem a) 500 = true
  /\ 0 <= timeAtLastAnimUpdate a
  /\ paced 20 (timeAtLastAnimUpdate a) (ticks_every 20 405 0) = true
  /\ ticks_per_frame 500 * (2 * Z.of_nat (List.length expected) + 1)
     <= Z.of_nat (List.length (ticks_every 20 405 0))
  /\ played (snd (run_ticks uno zero (ticks_every 20 405 0))) = expected
  /\ played (snd (run_ticks uno one (ticks_every 20 405 0))) = expected.
Proof.
  cbv zeta.
  assert (H1 : 1 <= NumOfFrames (mem (setup_Animation uno 0) turnLeftAnim)
               < INT_MAX uno) by (vm_compute; split; [discriminate | reflexivity]).
  assert (H3 : 500 + 20 <= INT_MAX uno) by (vm_compute; discriminate).
  assert (H4 : ticks_per_frame 500
               * (2 * Z.of_nat
                        (List.length
                           (pass (mem (setup_Animation uno 0)) turnLeftAnim
                            ++ [Line "<LT>"])) + 1)
               <= Z.of_nat (List.length (ticks_every 20 405 0)))
    by (vm_compute; discriminate).
  assert (H5 : paced 20 (timeAtLastAnimUpdate (setup_Animation uno 0))
                 (ticks_every 20 405 0) = true) by (vm_compute; reflexivity).
  assert (H6 : tween_times_within (mem (setup_Animation uno 0)) 500 = true)
    by (vm_compute; reflexivity).
  do 10 (split; [first [assumption | exact I | lia | reflexivity]|]).
  split; [|vm_compute; reflexivity].
  exact (proj1 (proj2 (proj2 (zero_loops_play_once uno (setup_Animation uno 0)
                  turnLeftAnim None (Some ("L"%char, "T"%char))
                  eq_refl eq_refl H1 I)))
           500 20 (ticks_every 20 405 0) ltac:(lia) H3 H6 ltac:(reflexivity)
           H5 H4).
Defined.

(* ------------------------------------------------------------------ *)
(** ** Every state the sketch reaches is sound

    This is what the hypotheses on the stand-straight table above rest on,
    and why [currAnim] is never dereferenced while null. *)

Lemma sound_setup (P : Platform) (now : Z) : sound P (setup_Animation P now).
Proof. split; [reflexivity | discriminate]. Qed.

Lemma sound_PlayAnimNumTimes (P : Platform) (a : Anim)
    (c f : option AnimName) (n : Z) (t : option Tag) :
  sound P a -> sound P (PlayAnimNumTimes c f n t a).
Proof. intros H. destruct t; exact H. Qed.

Lemma sound_SetServos (P : Platform) (a : Anim) (t lh lf rh rf : Z)
    (tag : option Tag) :
  sound P a -> sound P (SetServos P t lh lf rh rf tag a).
Proof.
  intros [Hm Hc]. split.
  - intros n Hn. rewrite <- (Hm n Hn).
    assert (Hb : n <> tweenServoData a).
    { intros ->. unfold tweenServoData in Hn.
      destruct (negb _); discriminate Hn. }
    destruct tag; cbn; unfold store, tweenServoData in *; cbn;
      destruct (AnimName_eq_dec n _); congruence.
  - destruct tag; exact Hc.
Qed.

Lemma sound_handle_command (P : Platform) (c : Command) (a : Anim) :
  sound P a -> sound P (fst (handle_command P c a)).
Proof.
  intros H. unfold handle_command.
  repeat match goal with
         | |- context [if is_cmd ?c ?x ?y then _ else _] =>
             destruct (is_cmd c x y)
         end; cbn [fst];
    try exact H; try (apply sound_PlayAnimNumTimes; exact H).
  apply sound_SetServos. exact H.
Qed.

Lemma sound_start_next_anim (P : Platform) (a : Anim) (now : Z) :
  sound P a -> sound P (fst (start_next_anim a now)).
Proof.
  intros [Hm Hc]. split.
  - intros n Hn. rewrite start_next_anim_mem. auto.
  - unfold start_next_anim. destruct (nextAnim a) as [c|] eqn:Hq; cbn.
    + destruct (negb (animInProgress a) || interruptInProgressAnim a);
        [|exact Hc].
      destruct (interruptInProgressAnim a); cbn; rewrite Hq; discriminate.
    + exact Hc.
Qed.

Lemma sound_switch_frame (P : Platform) (a : Anim) (now : Z) :
  sound P a -> animInProgress a = true ->
  sound P (fst (switch_frame P a now)).
Proof.
  intros [Hm Hc] Hp. split.
  - intros n Hn. rewrite switch_frame_mem. auto.
  - specialize (Hc Hp). unfold switch_frame, finish_or_report.
    repeat match goal with
           | |- context [if ?b then _ else _] => destruct b eqn:?
           end; cbn; intros Hx; try discriminate Hx; try exact Hc.
    all: destruct (finishAnim a) eqn:Ef; cbn in *; try congruence.
    all: match goal with
         | H : negb (is_null _) = true |- _ =>
             rewrite Ef in H; discriminate H
         end.
Qed.

Lemma sound_loop_Animation (P : Platform) (a : Anim) (now : Z) :
  sound P a -> sound P (fst (loop_Animation P a now)).
Proof.
  intros H. unfold loop_Animation. destruct (_ >? _); [exact H|].
  assert (H0 : sound P (set_timeAtLastAnimUpdate now a)) by exact H.
  pose proof (sound_start_next_anim P _ now H0) as H1.
  destruct (start_next_anim _ now) as [a1 e1]. cbn [fst] in H1.
  rewrite update_current_anim_eq.
  destruct (animInProgress a1) eqn:Hp; [|exact H1].
  cbv zeta. pose proof (sound_switch_frame P a1 now H1 Hp) as H2.
  destruct (switch_frame P a1 now) as [a2 e2]. cbn [fst snd] in *.
  destruct (animInProgress a2); [|exact H2]. exact H2.
Qed.

(** From boot on, whatever arrives. *)
Lemma sound_run (P : Platform) (inputs : list (option ascii * Z)) :
  forall r, sound P (anim r) -> sound P (anim (fst (run P r inputs))).
Proof.
  induction inputs as [|[avail now] rest IH]; intros r H; [exact H|].
  cbn [run]. unfold loop, loop_Parser.
  assert (H1 : sound P
                 (anim (fst (match avail with
                             | Some c =>
                                 let '(p, done) := parser_step P (parser r) c in
                                 match done with
                                 | Some cmd =>
                                     let '(a, ev) :=
                                       handle_command P cmd (anim r) in
                                     ({| parser := p; anim := a |}, ev)
                                 | None =>
                                     ({| parser := p; anim := anim r |}, [])
                                 end
                             | None => (r, [])
                             end)))).
  { destruct avail as [c|]; [|exact H].
    destruct (parser_step P (parser r) c) as [p [cmd|]]; [|exact H].
    pose proof (sound_handle_command P cmd (anim r) H) as H'.
    destruct (handle_command P cmd (anim r)). exact H'. }
  destruct (match avail with Some _ => _ | None => _ end) as [r1 e1].
  cbn [fst] in H1.
  pose proof (sound_loop_Animation P (anim r1) now H1) as H2.
  destruct (loop_Animation P (anim r1) now) as [a2 e2]. cbn [fst] in H2.
  specialize (IH {| parser := parser r1; anim := a2 |} H2).
  destruct (run P {| parser := parser r1; anim := a2 |} rest). exact IH.
Qed.

(* ------------------------------------------------------------------ *)
(** ** The parser on arbitrary input *)

Lemma char_range_upper (c : ascii) :
  (char_val c <? char_val "A") = false ->
  (char_val c >? char_val "Z") = false -> is_upper c = true.
Proof.
  destruct c as [[] [] [] [] [] [] [] []]; vm_compute; intros H1 H2;
    try discriminate H1; try discriminate H2; reflexivity.
Qed.

Lemma char_range_digit (c : ascii) :
  (char_val c <? char_val "0") = false ->
  (char_val c >? char_val "9") = false -> is_digit c = true.
Proof.
  destruct c as [[] [] [] [] [] [] [] []]; vm_compute; intros H1 H2;
    try discriminate H1; try discriminate H2; reflexivity.
Qed.

(** The states as numbers, for case analysis. *)
Lemma parser_states (st : Z) :
  PARSER_WAITING <= st <= PARSER_PARAM5 ->
  st = 0 \/ st = 1 \/ st = 2 \/ st = 3 \/ st = 4 \/ st = 5 \/ st = 6.
Proof. unfold PARSER_WAITING, PARSER_PARAM5. lia. Qed.

Ltac by_state H :=
  destruct (parser_states _ H) as [E|[E|[E|[E|[E|[E|E]]]]]].

Ltac split_ifs :=
  repeat match goal with
         | |- context [if ?b then _ else _] => destruct b eqn:?
         end.

Ltac bool_facts :=
  repeat match goal with
         | H : (_ || _) = false |- _ =>
             apply orb_false_elim in H; destruct H
         | H : (_ && _) = true |- _ => apply andb_prop in H; destruct H
         | H : (_ =? _) = true |- _ => apply Z.eqb_eq in H
         | H : (_ =? _) = false |- _ => apply Z.eqb_neq in H
         | H : (_ >=? _) = false |- _ =>
             rewrite Z.geb_leb in H; apply Z.leb_nle in H
         | H : (_ >=? _) = true |- _ =>
             rewrite Z.geb_leb in H; apply Z.leb_le in H
         | H : (?c =? END_CHAR)%char = true |- _ => apply Ascii.eqb_eq in H
         end.

Lemma parse_char_good (P : Platform) (p : Parser) (c : ascii) :
  parser_in_range p -> letters_read p ->
  let q := parse_char P p c in
  (parser_in_range q /\ letters_read q)
  \/ (currParserState q = PARSER_EXECUTE
      /\ 0 <= currCmdIndex q <= CMD_LENGTH
      /\ 0 <= currParamIndex q <= MAX_PARAM_LENGTH
      /\ code_is_upper (command_of q) /\ c = END_CHAR).
Proof.
  intros (Hst & Hci & Hpi) [Hl1 Hl2].
  destruct p as [st c0 c1 ci v1 v2 v3 v4 v5 pidx neg].
  unfold parser_in_range, letters_read, code_is_upper in *.
  cbn [currParserState currCmd0 currCmd1 currCmdIndex currParamIndex] in *.
  assert (E1 : to_int P (ci + 1) = ci + 1)
    by (apply to_int_small; unfold CMD_LENGTH in *; lia).
  assert (E2 : to_int P (pidx + 1) = pidx + 1)
    by (apply to_int_small; unfold MAX_PARAM_LENGTH in *; lia).
  by_state Hst; subst st;
    unfold parse_char, param_state; cbn;
    repeat (match goal with
            | |- context [if ?b then _ else _] => destruct b eqn:?
            end; cbn).
  all: rewrite ?E1, ?E2.
  all: unfold PARSER_WAITING, PARSER_COMMAND, PARSER_PARAM1, PARSER_PARAM2,
         PARSER_PARAM3, PARSER_PARAM4, PARSER_PARAM5,
         PARSER_EXECUTE, CMD_LENGTH, MAX_PARAM_LENGTH in *.
  all: bool_facts.
  all: try match goal with
           | H1 : (char_val ?x <? _) = false,
             H2 : (char_val ?x >? _) = false |- _ =>
               pose proof (char_range_upper x H1 H2)
           end.
  all: try (destruct (Hl1 eq_refl) as [Ha Hb]).
  all: try (destruct (Hl2 ltac:(lia)) as [Ha Hb]).
  all: first
         [ left; repeat split; intros;
           first [ lia | assumption
                 | match goal with H : _ -> ?G |- ?G => apply H; lia end ]
         | right; repeat split; intros;
           first [ lia | assumption
                 | match goal with H : _ -> ?G |- ?G => apply H; lia end ] ].
Qed.

Lemma parser_step_good (P : Platform) (p : Parser) (c : ascii) :
  parser_in_range p -> letters_read p ->
  parser_in_range (fst (parser_step P p c))
  /\ letters_read (fst (parser_step P p c))
  /\ (forall d, snd (parser_step P p c) = Some d ->
      code_is_upper d /\ c = END_CHAR).
Proof.
  intros Hr Hl. unfold parser_step.
  destruct (parse_char_good P p c Hr Hl)
    as [[(Hst & Hci & Hpi) Hq] | (Hst & Hci & Hpi & Hup & Hc)].
  - replace (currParserState _ =? PARSER_EXECUTE) with false.
    + cbn [fst snd].
      split; [exact (conj Hst (conj Hci Hpi))|].
      split; [exact Hq | intros d Hd; discriminate Hd].
    + symmetry. apply Z.eqb_neq.
      unfold PARSER_PARAM5, PARSER_EXECUTE in *. lia.
  - rewrite Hst, Z.eqb_refl. cbn [fst snd].
    unfold parser_in_range, letters_read.
    destruct (parse_char P p c); cbn in *.
    unfold PARSER_WAITING, PARSER_COMMAND, PARSER_PARAM1, PARSER_PARAM5.
    split; [lia|]. split; [split; intros; lia|].
    intros d Hd; injection Hd as <-. split; [exact Hup | exact Hc].
Qed.

Lemma setup_Parser_good : parser_in_range setup_Parser /\ letters_read setup_Parser.
Proof.
  unfold parser_in_range, letters_read; cbn.
  unfold PARSER_WAITING, PARSER_COMMAND, PARSER_PARAM1, PARSER_PARAM5,
    CMD_LENGTH, MAX_PARAM_LENGTH.
  repeat split; intros; lia.
Qed.

Lemma feed_good (P : Platform) (s : list ascii) :
  forall p, parser_in_range p -> letters_read p ->
  parser_in_range (fst (feed P p s))
  /\ letters_read (fst (feed P p s))
  /\ Forall code_is_upper (snd (feed P p s))
  /\ (List.length (snd (feed P p s)) <= count_occ ascii_dec s END_CHAR)%nat.
Proof.
  induction s as [|c s IH]; intros p Hr Hl.
  - cbn. split; [assumption|]. split; [assumption|].
    split; [constructor | lia].
  - cbn [feed].
    destruct (parser_step_good P p c Hr Hl) as (Hr' & Hl' & Hd).
    destruct (parser_step P p c) as [q d]. cbn [fst snd] in *.
    destruct (IH q Hr' Hl') as (A & B & C & D).
    destruct (feed P q s) as [r ds]. cbn [fst snd] in *.
    split; [assumption|]. split; [assumption|]. split.
    + destruct d as [d|]; [|assumption].
      constructor; [apply (Hd d eq_refl) | assumption].
    + destruct d as [d|].
      * destruct (Hd d eq_refl) as [_ ->].
        rewrite count_occ_cons_eq by reflexivity. cbn [List.length]. lia.
      * destruct (ascii_dec c END_CHAR) as [E|E].
        -- rewrite count_occ_cons_eq by auto. lia.
        -- rewrite count_occ_cons_neq by auto. lia.
Qed.

(** X1: whatever bytes arrive, the state stays one of the seven states the
    parser rests in and the two counters stay within the sizes they index:
    the letter count within [0, CMD_LENGTH], the parameter character count
    within [0, MAX_PARAM_LENGTH]; the store [currCmd[currCmdIndex] = c] is
    only ever executed with index 0 or 1, inside the three-byte array. *)
Theorem parser_counters_stay_in_range (P : Platform) (s : list ascii) :
  parser_in_range (parser_after P s)
  /\ forall c, stores_letter (parser_after P s) c = true ->
       currCmdIndex (parser_after P s) = 0
       \/ currCmdIndex (parser_after P s) = 1.
Proof.
  destruct setup_Parser_good as [Hr Hl].
  destruct (feed_good P s setup_Parser Hr Hl) as (A & _).
  split; [exact A|]. intros c Hc.
  destruct A as (_ & Hci & _). unfold stores_letter in Hc.
  unfold parser_after in *.
  bool_facts.
  match goal with H : negb _ = true |- _ => apply negb_true_iff in H end.
  bool_facts. unfold CMD_LENGTH in *. lia.
Qed.

(** X2: every command handed over has a code of two upper-case letters,
    whatever bytes arrive. *)
Theorem handed_over_codes_are_upper_case (P : Platform) (s : list ascii) :
  Forall code_is_upper (handed_over P s).
Proof.
  destruct setup_Parser_good as [Hr Hl].
  apply (feed_good P s setup_Parser Hr Hl).
Qed.

Lemma parser_step_starts (P : Platform) (p : Parser) (c : ascii) :
  (List.length (match snd (parser_step P p c) with
                | Some d => [d] | None => [] end)
   + under_way (fst (parser_step P p c))
   <= under_way p + (if ascii_dec c START_CHAR then 1 else 0))%nat.
Proof.
  unfold parser_step, under_way.
  destruct (currParserState p =? PARSER_WAITING) eqn:Ew.
  - unfold parse_char. rewrite Ew.
    destruct (ascii_dec c START_CHAR) as [->|Hc].
    + cbn. lia.
    + apply Ascii.eqb_neq in Hc. rewrite Hc.
      apply Z.eqb_eq in Ew. rewrite Ew. cbn. rewrite Ew. cbn. lia.
  - destruct (currParserState (parse_char P p c) =? PARSER_EXECUTE);
      cbn [fst snd List.length].
    + destruct (parse_char P p c); cbn. lia.
    + destruct (currParserState (parse_char P p c) =? PARSER_WAITING); lia.
Qed.

Lemma feed_starts (P : Platform) (s : list ascii) :
  forall p,
  (List.length (snd (feed P p s)) + under_way (fst (feed P p s))
   <= under_way p + count_occ ascii_dec s START_CHAR)%nat.
Proof.
  induction s as [|c s IH]; intros p.
  - cbn. lia.
  - cbn [feed]. pose proof (parser_step_starts P p c) as H.
    destruct (parser_step P p c) as [q d]. cbn [fst snd] in H.
    specialize (IH q). destruct (feed P q s) as [r ds]. cbn [fst snd] in *.
    destruct (ascii_dec c START_CHAR) as [E|E].
    + rewrite count_occ_cons_eq by auto.
      destruct d; cbn [List.length] in *; lia.
    + rewrite count_occ_cons_neq by auto.
      destruct d; cbn [List.length] in *; lia.
Qed.

(** X3: a command is handed over only by an end marker, and each one uses
    up a start marker of its own: the commands handed over are at most as
    many as the ['<'] and at most as many as the ['>'] received.  A byte
    other than ['>'] never reaches the command handler: it leaves the
    sequencer as it is and prints nothing. *)
Theorem hand_over_needs_both_markers (P : Platform) (s : list ascii) :
  (List.length (handed_over P s) <= count_occ ascii_dec s START_CHAR)%nat
  /\ (List.length (handed_over P s) <= count_occ ascii_dec s END_CHAR)%nat
  /\ forall (c : ascii) (a : Anim),
       c <> END_CHAR ->
       snd (parser_step P (parser_after P s) c) = None
       /\ anim (fst (loop_Parser P {| parser := parser_after P s; anim := a |}
                       (Some c))) = a
       /\ snd (loop_Parser P {| parser := parser_after P s; anim := a |}
                 (Some c)) = [].
Proof.
  destruct setup_Parser_good as [Hr Hl].
  destruct (feed_good P s setup_Parser Hr Hl) as (A & B & _ & D).
  split; [|split; [exact D|]].
  - pose proof (feed_starts P s setup_Parser) as H.
    unfold handed_over.
    change (under_way setup_Parser) with 0%nat in H. lia.
  - intros c a Hc. unfold loop_Parser, parser_after. cbn [parser anim].
    destruct (parser_step_good P _ c A B) as (_ & _ & Hd).
    destruct (parser_step P (fst (feed P setup_Parser s)) c) as [q [d|]].
    + destruct (Hd d eq_refl) as [_ E]. contradiction.
    + repeat split.
Qed.

Lemma pow10_bound (k v : Z) :
  0 <= k <= 6 -> 0 <= v < 10 ^ k ->
  v <= 999999 /\ (k <= 5 -> v <= 99999).
Proof.
  intros Hk Hv.
  assert (k = 0 \/ k = 1 \/ k = 2 \/ k = 3 \/ k = 4 \/ k = 5 \/ k = 6)
    as [E|[E|[E|[E|[E|[E|E]]]]]] by lia; subst k;
    simpl in Hv; lia.
Qed.

Lemma pow10_step (k v d : Z) :
  0 <= k -> 0 <= v < 10 ^ k -> 0 <= d <= 9 ->
  0 <= v * 10 + d < 10 ^ (k + 1).
Proof.
  intros Hk Hv Hd. rewrite Z.pow_add_r, Z.pow_1_r by lia. lia.
Qed.

Ltac bool_facts' :=
  bool_facts;
  repeat match goal with
         | H : (_ <? _) = false |- _ => apply Z.ltb_ge in H
         | H : (_ <? _) = true |- _ => apply Z.ltb_lt in H
         | H : (_ >? _) = false |- _ =>
             rewrite Z.gtb_ltb in H; apply Z.ltb_ge in H
         | H : (_ >? _) = true |- _ =>
             rewrite Z.gtb_ltb in H; apply Z.ltb_lt in H
         end.

Lemma parse_char_params (P : Platform) (p : Parser) (c : ascii) :
  999999 <= INT_MAX P ->
  parser_in_range p -> params_read p ->
  let q := parse_char P p c in
  params_read q
  /\ (currParserState q = PARSER_EXECUTE -> params_in_range (command_of q)).
Proof.
  intros HP (Hst & Hci & Hpi) Hv.
  destruct p as [st c0 c1 ci v1 v2 v3 v4 v5 pidx neg].
  unfold parser_in_range, params_read, params_in_range, in_param_range,
    digits_read in *.
  cbn [currParserState currCmd0 currCmd1 currCmdIndex currParamIndex
       currParamNegative currParam1Val currParam2Val currParam3Val
       currParam4Val currParam5Val] in *.
  destruct Hv as (H1 & H2 & H3 & H4 & H5 & H6).
  assert (E1 : to_int P (ci + 1) = ci + 1)
    by (apply to_int_small; unfold CMD_LENGTH in *; lia).
  assert (E2 : to_int P (pidx + 1) = pidx + 1)
    by (apply to_int_small; unfold MAX_PARAM_LENGTH in *; lia).
  unfold PARSER_WAITING, PARSER_COMMAND, PARSER_PARAM1, PARSER_PARAM2,
    PARSER_PARAM3, PARSER_PARAM4, PARSER_PARAM5,
    PARSER_EXECUTE, CMD_LENGTH, MAX_PARAM_LENGTH in *.
  destruct neg; by_state Hst; subst st.
  all: try (specialize (H1 eq_refl)); try (specialize (H2 eq_refl));
    try (specialize (H3 eq_refl)); try (specialize (H4 eq_refl));
    try (specialize (H5 eq_refl)); try (specialize (H6 eq_refl)).
  all: repeat match goal with H : _ = _ -> _ |- _ => clear H end.
  all: repeat match goal with H : _ /\ _ |- _ => destruct H end.
  all: subst.
  all: unfold parse_char, param_state; cbn -[Z.mul Z.add Z.sub Z.pow];
    repeat (match goal with
            | |- context [if ?b then _ else _] => destruct b eqn:?
            end; cbn -[Z.mul Z.add Z.sub Z.pow]).
  all: rewrite ?E1, ?E2, ?to_int_add_l, ?to_int_add_r, ?to_int_mul_l.
  all: unfold PARSER_WAITING, PARSER_COMMAND, PARSER_PARAM1, PARSER_PARAM2,
         PARSER_PARAM3, PARSER_PARAM4, PARSER_PARAM5,
         PARSER_EXECUTE, CMD_LENGTH, MAX_PARAM_LENGTH in *.
  all: bool_facts'.
  all: change (char_val "0") with 48 in *; change (char_val "9") with 57 in *.
  all: try match goal with
           | Ha : 0 <= ?v, Hb : ?v < 10 ^ ?k |- _ =>
               pose proof (pow10_bound k v ltac:(lia) (conj Ha Hb));
               try (pose proof (pow10_step k v (char_val c - 48)
                                  ltac:(lia) (conj Ha Hb) ltac:(lia)))
           end.
  all: change (10 ^ (0 - 0)) with 1.
  all: try change (10 ^ (1 - 1)) with 1.
  all: try match goal with
           | Hz : ?x = 0, Hb : _ < 10 ^ (?x - 0) |- _ =>
               rewrite Hz in Hb; change (10 ^ (0 - 0)) with 1 in Hb
           end.
  all: repeat match goal with
              | |- context [10 ^ (?x + 1 - 1)] =>
                  replace (x + 1 - 1) with (x - 1 + 1) by lia
              | |- context [10 ^ (?x + 1 - 0)] =>
                  replace (x + 1 - 0) with (x - 0 + 1) by lia
              end.
  all: rewrite ?to_int_id by lia.
  all: repeat split; intros; lia.
Qed.

Lemma setup_Parser_params : params_read setup_Parser.
Proof.
  unfold params_read; cbn.
  unfold PARSER_WAITING, PARSER_COMMAND, PARSER_PARAM1, PARSER_PARAM2,
    PARSER_PARAM3, PARSER_PARAM4, PARSER_PARAM5.
  repeat split; intros; lia.
Qed.

Lemma feed_params (P : Platform) (s : list ascii) :
  999999 <= INT_MAX P ->
  forall p, parser_in_range p -> letters_read p -> params_read p ->
  Forall params_in_range (snd (feed P p s)).
Proof.
  intros HP. induction s as [|c s IH]; intros p Hr Hl Hv.
  - constructor.
  - cbn [feed].
    destruct (parser_step_good P p c Hr Hl) as (Hr' & Hl' & _).
    destruct (parse_char_params P p c HP Hr Hv) as [Hv' Hex].
    unfold parser_step in *.
    destruct (currParserState (parse_char P p c) =? PARSER_EXECUTE) eqn:E.
    + cbn [fst snd] in *.
      assert (Hw : params_read
                     (set_currParserState PARSER_WAITING (parse_char P p c))).
      { unfold params_read. cbn.
        unfold PARSER_WAITING, PARSER_COMMAND, PARSER_PARAM1, PARSER_PARAM2,
          PARSER_PARAM3, PARSER_PARAM4, PARSER_PARAM5.
        repeat split; intros; lia. }
      specialize (IH _ Hr' Hl' Hw).
      destruct (feed P _ s) as [r ds]. cbn [snd] in *.
      constructor; [|exact IH]. apply Hex. apply Z.eqb_eq. exact E.
    + cbn [fst snd] in *. specialize (IH _ Hr' Hl' Hv').
      destruct (feed P _ s) as [r ds]. exact IH.
Qed.

(** X4: on a board whose [int] holds 999999 (a 32-bit [int]), every
    parameter of every command handed over lies between -99999 and 999999,
    whatever bytes arrive: a parameter has at most six characters, the
    sign included, and one that was left out is 0. *)
Theorem handed_over_params_are_in_range (P : Platform) (s : list ascii) :
  999999 <= INT_MAX P ->
  Forall params_in_range (handed_over P s).
Proof.
  intros HP. destruct setup_Parser_good as [Hr Hl].
  exact (feed_params P s HP setup_Parser Hr Hl setup_Parser_params).
Qed.

Lemma handed_over_params_are_in_range_witness :
  999999 <= INT_MAX due
  /\ Forall params_in_range
       (handed_over due (list_ascii_of_string "<SV,999999,-99999,7,>x<FW,-12>")).
Proof.
  split; [vm_compute; discriminate|].
  apply (handed_over_params_are_in_range due); vm_compute; discriminate.
Defined.

(* ------------------------------------------------------------------ *)
(** ** Command texts the parser takes, and where it gives up *)

Lemma param_fed_any (P : Platform) (i : nat) l0 l1 ci vals (p : ParamText) :
  (i < 5)%nat -> List.length vals = 5%nat -> nth i vals 0 = 0 ->
  accepted_param p = true ->
  feed P (parser_at (2 + Z.of_nat i) l0 l1 ci vals 0 false) (render_param p)
  = (parser_at (2 + Z.of_nat i) l0 l1 ci
       (list_set vals i (to_int P (decimal_value (digits p))))
       (Z.of_nat (param_length p)) (negative p), []).
Proof.
  intros Hi Hlen Hz Hwf.
  unfold accepted_param in Hwf.
  apply andb_prop in Hwf. destruct Hwf as [Hdig Hmax].
  apply Z.leb_le in Hmax.
  assert (Hz' : nth i vals 0 = to_int P 0)
    by (rewrite Hz; symmetry; apply to_int_small; lia).
  unfold render_param, param_length, decimal_value in *.
  destruct (negative p).
  - cbn [app feed]. unfold parser_step. rewrite minus_step by auto.
    replace (currParserState _ =? PARSER_EXECUTE) with false
      by (five_slots i vals; reflexivity).
    rewrite (digits_fed P i l0 l1 ci true (digits p) vals 1 0); auto; try lia.
    replace (1 + Z.of_nat (List.length (digits p)))
      with (Z.of_nat (1 + List.length (digits p))) by (clear; lia).
    reflexivity.
  - cbn [app].
    rewrite (digits_fed P i l0 l1 ci false (digits p) vals 0 0); auto; try lia.
Qed.

(** Parameters, each closed by a separator: the values land in the
    variables one after the other. *)
Lemma closed_params_fed (P : Platform) l0 l1 ci (ps : list ParamText) :
  forall (done : list Z) (n : nat),
  (List.length done + n = 5)%nat -> (List.length ps < n)%nat ->
  forallb accepted_param ps = true ->
  feed P
    (parser_at (2 + Z.of_nat (List.length done)) l0 l1 ci
       (done ++ repeat 0 n) 0 false)
    (flat_map (fun p => render_param p ++ [SEP_CHAR]) ps)
  = (parser_at (2 + Z.of_nat (List.length done + List.length ps)) l0 l1 ci
       ((done ++ map (param_value P) ps)
        ++ repeat 0 (n - List.length ps)) 0 false, []).
Proof.
  induction ps as [|p ps IH]; intros done n Hn Hps Hall.
  - cbn. rewrite Nat.add_0_r, Nat.sub_0_r, app_nil_r. reflexivity.
  - destruct n as [|n]; [cbn in Hps; lia|].
    cbn in Hall. apply andb_prop in Hall. destruct Hall as [Hp Hall].
    cbn [List.length] in Hps.
    assert (Hlen : List.length (done ++ repeat 0 (S n)) = 5%nat)
      by (rewrite length_app, repeat_length; exact Hn).
    assert (Hi : (List.length done < 4)%nat) by lia.
    assert (Hi5 : (List.length done < 5)%nat) by lia.
    assert (Hz : nth (List.length done) (done ++ repeat 0 (S n)) 0 = 0)
      by (rewrite app_nth2, Nat.sub_diag by lia; reflexivity).
    cbn [flat_map]. rewrite <- app_assoc.
    rewrite feed_app, (param_fed_any P _ l0 l1 ci _ p Hi5 Hlen Hz Hp).
    cbn [fst snd app feed]. unfold parser_step.
    rewrite sep_step by (auto; rewrite list_set_length; exact Hlen).
    replace (currParserState _ =? PARSER_EXECUTE) with false.
    2:{ cbn [currParserState parser_at]. symmetry. apply Z.eqb_neq.
        unfold PARSER_EXECUTE. lia. }
    rewrite list_set_twice, list_set_nth_same by lia.
    rewrite signed_value_to_int, list_set_app_zero.
    change (to_int P (if negative p then - decimal_value (digits p)
                      else decimal_value (digits p)))
      with (param_value P p).
    specialize (IH (done ++ [param_value P p]) n).
    replace (List.length (done ++ [param_value P p]))
      with (S (List.length done)) in IH by (rewrite length_app; simpl; lia).
    rewrite IH; try lia; try assumption.
    cbn [List.length map Nat.sub].
    rewrite <- (app_assoc done [param_value P p]). cbn [app].
    replace (S (List.length done) + List.length ps)%nat
      with (List.length done + S (List.length ps))%nat by lia.
    reflexivity.
Qed.

Lemma params_with_last (ps : list ParamText) (p : ParamText) :
  flat_map (fun q => SEP_CHAR :: render_param q) (ps ++ [p])
  = SEP_CHAR :: flat_map (fun q => render_param q ++ [SEP_CHAR]) ps
      ++ render_param p.
Proof.
  induction ps as [|q ps IH]; cbn [flat_map app].
  - rewrite app_nil_r. reflexivity.
  - rewrite IH. rewrite <- !app_assoc. reflexivity.
Qed.

(** A command text up to the last character of a parameter: the
    parameters before it are in their variables, the last one is being
    read. *)
Lemma open_fed (P : Platform) (p0 : Parser) (l0 l1 : ascii)
    (ps : list ParamText) (p : ParamText) :
  currParserState p0 = PARSER_WAITING ->
  is_upper l0 = true -> is_upper l1 = true ->
  (List.length ps <= 4)%nat ->
  forallb accepted_param ps = true -> accepted_param p = true ->
  feed P p0
    (render_open {| letter0 := l0; letter1 := l1; params := ps ++ [p] |})
  = (parser_at (2 + Z.of_nat (List.length ps)) l0 l1 2
       (list_set (map (param_value P) ps ++ repeat 0 (5 - List.length ps))
          (List.length ps) (to_int P (decimal_value (digits p))))
       (Z.of_nat (param_length p)) (negative p), []).
Proof.
  intros Hst H0 H1 Hlen Hps Hp.
  unfold render_open. cbn [letter0 letter1 params].
  rewrite params_with_last.
  change (START_CHAR :: l0 :: l1 :: SEP_CHAR :: ?x)
    with ([START_CHAR; l0; l1] ++ SEP_CHAR :: x).
  rewrite feed_app, (header_fed P p0 _ _ Hst H0 H1). cbn [fst snd app].
  cbn [feed]. unfold parser_step.
  change (parse_char P
            (parser_at PARSER_COMMAND l0 l1 2
               (repeat 0 5) (currParamIndex p0) (currParamNegative p0))
            SEP_CHAR)
    with (parser_at (2 + Z.of_nat (@List.length Z [])) l0 l1 2
            ([] ++ repeat 0 5) 0 false).
  replace (currParserState _ =? PARSER_EXECUTE) with false by reflexivity.
  rewrite feed_app.
  rewrite (closed_params_fed P l0 l1 2 ps [] 5) by (cbn; auto; lia).
  cbn [fst snd app List.length Nat.add].
  rewrite param_fed_any; auto; try lia.
  - rewrite length_app, length_map, repeat_length. lia.
  - rewrite app_nth2 by (rewrite length_map; lia).
    rewrite length_map, Nat.sub_diag.
    destruct (5 - List.length ps)%nat eqn:E; [lia | reflexivity].
Qed.

Lemma render_command_open (c : CommandText) :
  render_command c = render_open c ++ [END_CHAR].
Proof. reflexivity. Qed.

Lemma accepted_command_fed (P : Platform) (p0 : Parser) (c : CommandText) :
  currParserState p0 = PARSER_WAITING ->
  accepted_command c = true ->
  exists q,
    feed P p0 (render_command c) = (q, [command_value P c])
    /\ currParserState q = PARSER_WAITING.
Proof.
  intros Hst Hwf. unfold accepted_command in Hwf.
  apply andb_prop in Hwf. destruct Hwf as [Hwf Hall].
  apply andb_prop in Hwf. destruct Hwf as [Hwf Hlen].
  apply andb_prop in Hwf. destruct Hwf as [H0 H1].
  apply Nat.leb_le in Hlen.
  destruct c as [l0 l1 pars]. cbn [letter0 letter1 params] in *.
  destruct pars as [|p1 pars'].
  - change (render_command {| letter0 := l0; letter1 := l1; params := [] |})
      with ([START_CHAR; l0; l1] ++ [END_CHAR]).
    rewrite feed_app, (header_fed P p0 _ _ Hst H0 H1). cbn [fst snd app].
    eexists. split; reflexivity.
  - destruct (exists_last (l := p1 :: pars')) as (ps & p & E);
      [discriminate|].
    rewrite E in *. clear E p1 pars'.
    rewrite forallb_app in Hall. apply andb_prop in Hall.
    destruct Hall as [Hps Hp]. cbn in Hp. rewrite andb_true_r in Hp.
    rewrite length_app in Hlen. cbn [List.length] in Hlen.
    rewrite render_command_open, feed_app.
    rewrite open_fed by (auto; lia). cbn [fst snd app feed].
    unfold parser_step.
    assert (Hl5 : List.length
                    (list_set (map (param_value P) ps
                               ++ repeat 0 (5 - List.length ps))
                       (List.length ps)
                       (to_int P (decimal_value (digits p)))) = 5%nat).
    { rewrite list_set_length, length_app, length_map, repeat_length. lia. }
    rewrite end_step by (auto; lia).
    cbn [currParserState parser_at]. rewrite Z.eqb_refl.
    eexists. split; [apply f_equal2; [reflexivity|] | reflexivity].
    rewrite command_of_parser_at, list_set_twice.
    rewrite list_set_nth_same
      by (rewrite length_app, length_map, repeat_length; lia).
    rewrite signed_value_to_int.
    replace (5 - List.length ps)%nat with (S (4 - List.length ps)) by lia.
    cbn [snd].
    rewrite <- (length_map (param_value P) ps) at 2.
    rewrite list_set_app_zero, command_with_zeros.
    unfold command_value. cbn [letter0 letter1 params].
    rewrite map_app. reflexivity.
Qed.

(** X5: the parser takes a parameter without digits, and reads it as 0:
    every command text of two upper-case letters and up to five parameters
    of at most six characters, each an optional ['-'] and digits or
    nothing at all, is handed over as the command it stands for. *)
Theorem parameter_without_digits_reads_as_zero (P : Platform)
    (c : CommandText) :
  accepted_command c = true ->
  handed_over P (render_command c) = [command_value P c].
Proof.
  intros Hc. unfold handed_over.
  destruct (accepted_command_fed P setup_Parser c eq_refl Hc) as (q & Hq & _).
  rewrite Hq. reflexivity.
Qed.

Lemma parameter_without_digits_reads_as_zero_witness :
  let none := {| negative := false; digits := [] |} in
  let minus := {| negative := true; digits := [] |} in
  let c := {| letter0 := "F"; letter1 := "W"; params := [none] |} in
  let d := {| letter0 := "S"; letter1 := "V";
              params := [minus; none; none; none; none] |} in
  (accepted_command c = true
   /\ render_command c = list_ascii_of_string "<FW,>"
   /\ handed_over uno (render_command c)
      = [ {| cmd0 := "F"; cmd1 := "W"; param1 := 0; param2 := 0;
             param3 := 0; param4 := 0; param5 := 0 |} ])
  /\ (accepted_command d = true
      /\ render_command d = list_ascii_of_string "<SV,-,,,,>"
      /\ handed_over uno (render_command d)
         = [ {| cmd0 := "S"; cmd1 := "V"; param1 := 0; param2 := 0;
                param3 := 0; param4 := 0; param5 := 0 |} ]).
Proof.
  cbv zeta. split.
  - split; [reflexivity|]. split; [reflexivity|].
    rewrite (parameter_without_digits_reads_as_zero uno); reflexivity.
  - split; [reflexivity|]. split; [reflexivity|].
    rewrite (parameter_without_digits_reads_as_zero uno); reflexivity.
Defined.

(** Where a parameter state gives up: on a character that neither closes
    the parameter nor continues it. *)
Lemma abort_step (P : Platform) (i : nat) l0 l1 ci vals idx neg c :
  (i < 5)%nat -> List.length vals = 5%nat ->
  i = 4%nat \/ Ascii.eqb c SEP_CHAR = false ->
  Ascii.eqb c END_CHAR = false ->
  (idx =? 0) && Ascii.eqb c "-" = false ->
  (idx >=? MAX_PARAM_LENGTH)
  || (char_val c <? char_val "0") || (char_val c >? char_val "9") = true ->
  parse_char P (parser_at (2 + Z.of_nat i) l0 l1 ci vals idx neg) c
  = parser_at PARSER_WAITING l0 l1 ci vals idx neg.
Proof.
  intros Hi Hlen Hsep Hend Hminus Hbad.
  five_slots i vals;
    unfold parse_char, parser_at, param_state; simpl;
    rewrite Hend, Hminus; simpl in Hbad |- *; rewrite Hbad;
    try reflexivity;
    destruct Hsep as [Hsep|Hsep]; try discriminate Hsep;
    rewrite Hsep; reflexivity.
Qed.

Lemma sep_is_no_digit :
  (char_val SEP_CHAR <? char_val "0") = true
  /\ Ascii.eqb SEP_CHAR END_CHAR = false
  /\ Ascii.eqb SEP_CHAR "-" = false.
Proof. repeat split. Qed.

Lemma aborted_then_noise (P : Platform) (p : Parser) (c : ascii)
    (rest : list ascii) :
  currParserState (parse_char P p c) = PARSER_WAITING ->
  forallb is_noise rest = true ->
  snd (feed P p (c :: rest)) = [].
Proof.
  intros Hw Hn. cbn [feed]. unfold parser_step. rewrite Hw.
  change (PARSER_WAITING =? PARSER_EXECUTE) with false. cbv iota.
  pose proof (feed_noise P rest _ Hw Hn) as E.
  destruct (feed P (parse_char P p c) rest) as [r ds].
  injection E as _ ->. reflexivity.
Qed.

Lemma accepted_command_parts (l0 l1 : ascii) (ps : list ParamText)
    (p : ParamText) :
  accepted_command {| letter0 := l0; letter1 := l1; params := ps ++ [p] |}
  = true ->
  is_upper l0 = true /\ is_upper l1 = true /\ (List.length ps <= 4)%nat
  /\ forallb accepted_param ps = true /\ accepted_param p = true.
Proof.
  intros Hwf. unfold accepted_command in Hwf. cbn [letter0 letter1 params] in *.
  apply andb_prop in Hwf. destruct Hwf as [Hwf Hall].
  apply andb_prop in Hwf. destruct Hwf as [Hwf Hlen].
  apply andb_prop in Hwf. destruct Hwf as [H0 H1].
  apply Nat.leb_le in Hlen. rewrite length_app in Hlen. cbn in Hlen.
  rewrite forallb_app in Hall. apply andb_prop in Hall.
  destruct Hall as [Hps Hp]. cbn in Hp. rewrite andb_true_r in Hp.
  repeat split; auto. lia.
Qed.

Lemma open_vals_length (P : Platform) (ps : list ParamText) (v : Z) :
  (List.length ps <= 4)%nat ->
  List.length
    (list_set (map (param_value P) ps ++ repeat 0 (5 - List.length ps))
       (List.length ps) v) = 5%nat.
Proof.
  intros H. rewrite list_set_length, length_app, length_map, repeat_length. lia.
Qed.

(** X6: a sixth parameter aborts the command: after five parameters a
    separator is a parse error (the fifth parameter state has no separator
    branch), the parser goes back to waiting and, with no start marker in
    what follows, nothing is handed over. *)
Theorem sixth_parameter_aborts (P : Platform) (l0 l1 : ascii)
    (ps : list ParamText) (p : ParamText) (rest : list ascii) :
  accepted_command {| letter0 := l0; letter1 := l1; params := ps ++ [p] |}
  = true ->
  List.length ps = 4%nat ->
  forallb is_noise rest = true ->
  handed_over P
    (render_open {| letter0 := l0; letter1 := l1; params := ps ++ [p] |}
     ++ SEP_CHAR :: rest) = [].
Proof.
  intros Hc Hlen Hrest.
  destruct (accepted_command_parts _ _ _ _ Hc) as (H0 & H1 & Hl & Hps & Hp).
  unfold handed_over. rewrite feed_app.
  rewrite open_fed by (auto; lia). cbn [fst snd app].
  apply aborted_then_noise; [|exact Hrest].
  rewrite abort_step; auto; try lia.
  - apply open_vals_length. lia.
  - apply andb_false_r.
  - change (char_val SEP_CHAR <? char_val "0") with true.
    rewrite orb_true_r. reflexivity.
Qed.

Lemma sixth_parameter_aborts_witness :
  let one := {| negative := false; digits := ["1"%char] |} in
  let c := {| letter0 := "S"; letter1 := "V";
              params := [one; one; one; one] ++ [one] |} in
  accepted_command c = true
  /\ List.length [one; one; one; one] = 4%nat
  /\ forallb is_noise (list_ascii_of_string "1>") = true
  /\ render_open c ++ SEP_CHAR :: list_ascii_of_string "1>"
     = list_ascii_of_string "<SV,1,1,1,1,1,1>"
  /\ handed_over uno (list_ascii_of_string "<SV,1,1,1,1,1,1>") = [].
Proof.
  cbv zeta. repeat (split; [reflexivity|]).
  apply (sixth_parameter_aborts uno "S" "V"
           [ {| negative := false; digits := ["1"%char] |};
             {| negative := false; digits := ["1"%char] |};
             {| negative := false; digits := ["1"%char] |};
             {| negative := false; digits := ["1"%char] |} ]
           {| negative := false; digits := ["1"%char] |}
           (list_ascii_of_string "1>")); reflexivity.
Defined.

(** X7: a parameter stops at six characters, sign included: when a seventh
    character follows that is neither [','] nor ['>'], the command is
    aborted and, with no start marker in what follows, nothing is handed
    over. *)
Theorem seventh_character_aborts (P : Platform) (l0 l1 : ascii)
    (ps : list ParamText) (p : ParamText) (x : ascii) (rest : list ascii) :
  accepted_command {| letter0 := l0; letter1 := l1; params := ps ++ [p] |}
  = true ->
  Z.of_nat (param_length p) = MAX_PARAM_LENGTH ->
  x <> SEP_CHAR -> x <> END_CHAR ->
  forallb is_noise rest = true ->
  handed_over P
    (render_open {| letter0 := l0; letter1 := l1; params := ps ++ [p] |}
     ++ x :: rest) = [].
Proof.
  intros Hc Hlen Hsep Hend Hrest.
  destruct (accepted_command_parts _ _ _ _ Hc) as (H0 & H1 & Hl & Hps & Hp).
  unfold handed_over. rewrite feed_app.
  rewrite open_fed by (auto; lia). cbn [fst snd app].
  apply aborted_then_noise; [|exact Hrest].
  rewrite abort_step; auto; try lia.
  all: try (apply open_vals_length; lia).
  all: try (right; apply Ascii.eqb_neq; exact Hsep).
  all: try (apply Ascii.eqb_neq; exact Hend).
  all: rewrite Hlen; reflexivity.
Qed.

Lemma seventh_character_aborts_witness :
  let long := {| negative := true;
                 digits := list_ascii_of_string "10000" |} in
  let c := {| letter0 := "F"; letter1 := "W"; params := [] ++ [long] |} in
  accepted_command c = true
  /\ Z.of_nat (param_length long) = MAX_PARAM_LENGTH
  /\ "0"%char <> SEP_CHAR /\ "0"%char <> END_CHAR
  /\ forallb is_noise [">"%char] = true
  /\ render_open c ++ ["0"; ">"]%char = list_ascii_of_string "<FW,-100000>"
  /\ handed_over uno (list_ascii_of_string "<FW,-100000>") = [].
Proof.
  cbv zeta. split; [reflexivity|]. split; [reflexivity|].
  split; [discriminate|]. split; [discriminate|].
  split; [reflexivity|]. split; [reflexivity|].
  apply (seventh_character_aborts uno "F" "W" []
           {| negative := true; digits := list_ascii_of_string "10000" |}
           "0"%char [">"%char]);
    try reflexivity; discriminate.
Defined.

(* ------------------------------------------------------------------ *)
(** ** Getting the parser back to waiting *)

Lemma foreign_facts (c : ascii) :
  is_foreign c = true ->
  Ascii.eqb c START_CHAR = false /\ Ascii.eqb c END_CHAR = false
  /\ Ascii.eqb c SEP_CHAR = false /\ Ascii.eqb c "-" = false
  /\ (char_val c <? char_val "A") || (char_val c >? char_val "Z") = true
  /\ (char_val c <? char_val "0") || (char_val c >? char_val "9") = true.
Proof.
  destruct c as [[] [] [] [] [] [] [] []]; vm_compute; intros H;
    try discriminate H; repeat split.
Qed.

Lemma end_marker_waits (P : Platform) (p : Parser) :
  parser_in_range p ->
  currParserState (fst (parser_step P p END_CHAR)) = PARSER_WAITING.
Proof.
  intros (Hst & _).
  destruct p as [st c0 c1 ci v1 v2 v3 v4 v5 pidx neg].
  cbn [currParserState] in Hst.
  by_state Hst; subst st; unfold parser_step, parse_char, param_state; cbn;
    repeat (match goal with
            | |- context [if ?b then _ else _] => destruct b eqn:?
            end; cbn);
    first [ reflexivity | exfalso; cbn in *; discriminate ].
Qed.

Lemma foreign_byte_waits (P : Platform) (p : Parser) (c : ascii) :
  parser_in_range p -> is_foreign c = true ->
  currParserState (fst (parser_step P p c)) = PARSER_WAITING
  /\ snd (parser_step P p c) = None.
Proof.
  intros (Hst & _) Hc.
  destruct (foreign_facts c Hc) as (F1 & F2 & F3 & F4 & F5 & F6).
  change (char_val "A") with 65 in F5. change (char_val "Z") with 90 in F5.
  change (char_val "0") with 48 in F6. change (char_val "9") with 57 in F6.
  destruct p as [st c0 c1 ci v1 v2 v3 v4 v5 pidx neg].
  cbn [currParserState] in Hst.
  by_state Hst; subst st; unfold parser_step, parse_char, param_state; cbn;
    rewrite ?F1, ?F2, ?F3, ?F4, ?andb_false_r; cbn;
    rewrite <- ?orb_assoc, ?F5, ?F6, ?orb_true_r; cbn;
    split; reflexivity.
Qed.

(** X8: the parser can always be brought back to waiting.  Whatever bytes
    came before, after an end marker, or after a byte that belongs to no
    command text (and that byte hands nothing over), the next well-formed
    command text is handed over as the command it stands for. *)
Theorem parser_resynchronises (P : Platform) (s : list ascii)
    (c : CommandText) :
  accepted_command c = true ->
  handed_over P (s ++ END_CHAR :: render_command c)
  = handed_over P (s ++ [END_CHAR]) ++ [command_value P c]
  /\ forall x, is_foreign x = true ->
       handed_over P (s ++ x :: render_command c)
       = handed_over P s ++ [command_value P c].
Proof.
  intros Hc.
  destruct setup_Parser_good as [Hr Hl].
  destruct (feed_good P s setup_Parser Hr Hl) as (A & _).
  unfold handed_over. split.
  - change (END_CHAR :: render_command c)
      with ([END_CHAR] ++ render_command c).
    rewrite app_assoc, feed_app. f_equal.
    rewrite (feed_app P s [END_CHAR]). cbn [fst feed].
    pose proof (end_marker_waits P _ A) as Hw.
    destruct (parser_step P (fst (feed P setup_Parser s)) END_CHAR) as [q d].
    cbn [fst] in *.
    destruct (accepted_command_fed P q c Hw Hc) as (r & Hr' & _).
    rewrite Hr'. reflexivity.
  - intros x Hx. rewrite feed_app. f_equal. cbn [feed].
    destruct (foreign_byte_waits P _ x A Hx) as [Hw Hn].
    destruct (parser_step P (fst (feed P setup_Parser s)) x) as [q d].
    cbn [fst snd] in *. subst d.
    destruct (accepted_command_fed P q c Hw Hc) as (r & Hr' & _).
    rewrite Hr'. reflexivity.
Qed.

Lemma parser_resynchronises_witness :
  let c := {| letter0 := "O"; letter1 := "K"; params := [] |} in
  let ok := {| cmd0 := "O"; cmd1 := "K"; param1 := 0; param2 := 0;
               param3 := 0; param4 := 0; param5 := 0 |} in
  accepted_command c = true
  /\ handed_over uno (list_ascii_of_string "<SV,12" ++ END_CHAR :: render_command c)
     = handed_over uno (list_ascii_of_string "<SV,12>") ++ [ok]
  /\ is_foreign "010"%char = true
  /\ handed_over uno (list_ascii_of_string "<" ++ "010"%char :: render_command c)
     = [ok]
  /\ handed_over uno (list_ascii_of_string "<" ++ render_command c) = [].
Proof.
  cbv zeta. split; [reflexivity|].
  destruct (parser_resynchronises uno (list_ascii_of_string "<SV,12")
              {| letter0 := "O"; letter1 := "K"; params := [] |} eq_refl)
    as [H _].
  split; [exact H|]. split; [reflexivity|].
  destruct (parser_resynchronises uno (list_ascii_of_string "<")
              {| letter0 := "O"; letter1 := "K"; params := [] |} eq_refl)
    as [_ H'].
  split; [exact (H' "010"%char eq_refl) | reflexivity].
Defined.

(* ------------------------------------------------------------------ *)
(** ** Only well-formed command texts are handed over *)

Lemma letters_fed (P : Platform) (p0 : Parser) (letters : list ascii) :
  currParserState p0 = PARSER_WAITING ->
  forallb is_upper letters = true -> (List.length letters <= 2)%nat ->
  feed P p0 (START_CHAR :: letters)
  = (parser_at PARSER_COMMAND (nth 0 letters "-"%char) (nth 1 letters "-"%char)
       (Z.of_nat (List.length letters)) (repeat 0 5)
       (currParamIndex p0) (currParamNegative p0), []).
Proof.
  intros Hst Hup Hlen.
  assert (E1 : to_int P 1 = 1) by (apply to_int_small; lia).
  destruct letters as [|l0 [|l1 [|l2 rest]]]; cbn in Hlen; try lia.
  - cbn [feed]. unfold parser_step, parse_char. rewrite Hst. reflexivity.
  - cbn in Hup. rewrite andb_true_r in Hup.
    destruct (upper_facts l0 Hup) as (A1 & A2 & A3 & A4).
    cbn [feed]. unfold parser_step, parse_char. rewrite Hst. simpl.
    rewrite A1, A2, A3, A4. simpl. rewrite E1. reflexivity.
  - cbn in Hup. rewrite andb_true_r in Hup. apply andb_prop in Hup.
    destruct Hup as [H0 H1]. apply (header_fed P p0 l0 l1 Hst H0 H1).
Qed.

Lemma waiting_stays (P : Platform) (p : Parser) (c : ascii) :
  currParserState p = PARSER_WAITING -> Ascii.eqb c START_CHAR = false ->
  parser_step P p c = (p, None).
Proof.
  intros Hst Hc. unfold parser_step, parse_char. rewrite Hst. simpl.
  rewrite Hc, Hst. reflexivity.
Qed.

Lemma upper_test (c : ascii) :
  (char_val c <? char_val "A") || (char_val c >? char_val "Z")
  = negb (is_upper c).
Proof. destruct c as [[] [] [] [] [] [] [] []]; reflexivity. Qed.

Lemma digit_test (c : ascii) :
  (char_val c <? char_val "0") || (char_val c >? char_val "9")
  = negb (is_digit c).
Proof. destruct c as [[] [] [] [] [] [] [] []]; reflexivity. Qed.

Lemma partial_letters_step (P : Platform) (p0 : Parser) (s : list ascii)
    (c : ascii) :
  currParserState p0 = PARSER_WAITING ->
  forallb is_upper s = true -> (List.length s <= 2)%nat ->
  Ascii.eqb c END_CHAR = false ->
  currParserState (fst (feed P p0 (START_CHAR :: s ++ [c]))) <> PARSER_WAITING ->
  partial_text (s ++ [c]).
Proof.
  intros Hst Hup Hlen Hend Hgo.
  change (START_CHAR :: s ++ [c]) with ((START_CHAR :: s) ++ [c]) in Hgo.
  rewrite feed_app, (letters_fed P p0 s Hst Hup Hlen) in Hgo.
  cbn [fst feed] in Hgo. unfold parser_step, parse_char, parser_at in Hgo.
  cbn [currParserState currCmdIndex] in Hgo.
  change (PARSER_COMMAND =? PARSER_WAITING) with false in Hgo.
  change (PARSER_COMMAND =? PARSER_COMMAND) with true in Hgo.
  cbv iota in Hgo. rewrite Hend in Hgo.
  rewrite <- orb_assoc, upper_test in Hgo.
  destruct (Ascii.eqb c SEP_CHAR) eqn:Hsep.
  - apply Ascii.eqb_eq in Hsep. subst c.
    destruct s as [|l0 [|l1 [|l2 rest]]]; cbn in Hlen; try lia;
      try (exfalso; apply Hgo; reflexivity).
    right. exists l0, l1, [], {| negative := false; digits := [] |}.
    split; [reflexivity|].
    unfold accepted_command. cbn. cbn in Hup. rewrite andb_true_r in Hup.
    rewrite Hup. reflexivity.
  - destruct (is_upper c) eqn:Hc.
    + destruct s as [|l0 [|l1 [|l2 rest]]]; cbn in Hlen; try lia.
      * left. cbn. rewrite Hc. split; [reflexivity | lia].
      * left. cbn in *. rewrite Hc. rewrite andb_true_r in *.
        rewrite Hup. split; [reflexivity | lia].
      * exfalso; apply Hgo; reflexivity.
    + exfalso. apply Hgo. rewrite orb_true_r. reflexivity.
Qed.

Lemma open_abort (P : Platform) (p0 : Parser) (l0 l1 : ascii)
    (ps : list ParamText) (p : ParamText) (c : ascii) :
  currParserState p0 = PARSER_WAITING ->
  accepted_command {| letter0 := l0; letter1 := l1; params := ps ++ [p] |}
  = true ->
  List.length ps = 4%nat \/ Ascii.eqb c SEP_CHAR = false ->
  Ascii.eqb c END_CHAR = false ->
  (Z.of_nat (param_length p) =? 0) && Ascii.eqb c "-" = false ->
  (Z.of_nat (param_length p) >=? MAX_PARAM_LENGTH) || negb (is_digit c)
  = true ->
  currParserState
    (fst (feed P p0
            (render_open
               {| letter0 := l0; letter1 := l1; params := ps ++ [p] |}
             ++ [c]))) = PARSER_WAITING.
Proof.
  intros Hst Hc Hsep Hend Hminus Hbad.
  destruct (accepted_command_parts _ _ _ _ Hc) as (H0 & H1 & Hl & Hps & Hp).
  rewrite feed_app, open_fed by (auto; lia).
  cbn [fst feed]. unfold parser_step.
  rewrite abort_step; auto; try lia.
  all: try (apply open_vals_length; lia).
  rewrite <- orb_assoc, digit_test. exact Hbad.
Qed.

Lemma param_length_zero (p : ParamText) :
  Z.of_nat (param_length p) = 0 -> p = {| negative := false; digits := [] |}.
Proof.
  destruct p as [[] ds]; unfold param_length; cbn; intros H; try lia.
  destruct ds; [reflexivity | cbn in H; lia].
Qed.

Lemma partial_params_step (P : Platform) (p0 : Parser) (l0 l1 : ascii)
    (ps : list ParamText) (p : ParamText) (c : ascii) :
  currParserState p0 = PARSER_WAITING ->
  accepted_command {| letter0 := l0; letter1 := l1; params := ps ++ [p] |}
  = true ->
  Ascii.eqb c END_CHAR = false ->
  currParserState
    (fst (feed P p0
            (render_open
               {| letter0 := l0; letter1 := l1; params := ps ++ [p] |}
             ++ [c]))) <> PARSER_WAITING ->
  partial_text
    ((l0 :: l1 :: flat_map (fun q => SEP_CHAR :: render_param q) (ps ++ [p]))
     ++ [c]).
Proof.
  intros Hst Hc Hend Hgo.
  destruct (accepted_command_parts _ _ _ _ Hc) as (H0 & H1 & Hl & Hps & Hp).
  pose proof (open_abort P p0 l0 l1 ps p c Hst Hc) as Habort.
  right.
  destruct (Ascii.eqb c SEP_CHAR) eqn:Hsep.
  { (* a separator opens the next parameter, if there is room *)
    apply Ascii.eqb_eq in Hsep. subst c.
    destruct (Nat.eq_dec (List.length ps) 4) as [E4|E4].
    - exfalso. apply Hgo, Habort; auto.
      + apply andb_false_r.
      + apply orb_true_r.
    - exists l0, l1, (ps ++ [p]), {| negative := false; digits := [] |}.
      split.
      + cbn [app]. do 2 f_equal.
        rewrite (flat_map_app _ (ps ++ [p])). reflexivity.
      + unfold accepted_command. cbn [letter0 letter1 params].
        rewrite H0, H1, !forallb_app, Hps. cbn. rewrite Hp.
        rewrite !length_app. cbn.
        replace (List.length ps + 1 + 1 <=? 5)%nat with true; [reflexivity|].
        symmetry. apply Nat.leb_le. lia. }
  destruct (Ascii.eqb c "-") eqn:Hm.
  { (* a minus sign, at the start of a parameter only *)
    apply Ascii.eqb_eq in Hm. subst c.
    destruct (Z.eq_dec (Z.of_nat (param_length p)) 0) as [E0|E0].
    - apply param_length_zero in E0. subst p.
      exists l0, l1, ps, {| negative := true; digits := [] |}.
      split.
      + cbn [app]. do 2 f_equal.
        rewrite !flat_map_app. cbn. rewrite <- app_assoc. reflexivity.
      + unfold accepted_command. cbn [letter0 letter1 params].
        rewrite H0, H1, !forallb_app, Hps. cbn.
        rewrite !length_app. cbn.
        replace (List.length ps + 1 <=? 5)%nat with true; [reflexivity|].
        symmetry. apply Nat.leb_le. lia.
    - exfalso. apply Hgo, Habort; auto.
      + apply Z.eqb_neq in E0. rewrite E0. reflexivity.
      + apply orb_true_r. }
  destruct (is_digit c) eqn:Hd.
  { (* a digit, while the parameter is shorter than six characters *)
    destruct (Z_lt_dec (Z.of_nat (param_length p)) MAX_PARAM_LENGTH)
      as [E6|E6].
    - exists l0, l1, ps,
        {| negative := negative p; digits := digits p ++ [c] |}.
      split.
      + cbn [app]. do 2 f_equal.
        rewrite !flat_map_app. cbn. unfold render_param. cbn.
        rewrite !app_nil_r, <- !app_assoc. cbn. rewrite <- app_assoc.
        reflexivity.
      + unfold accepted_command. cbn [letter0 letter1 params].
        rewrite H0, H1, !forallb_app, Hps. cbn.
        unfold accepted_param in *. cbn.
        apply andb_prop in Hp. destruct Hp as [Hda Hla].
        rewrite forallb_app, Hda. cbn. rewrite Hd. cbn.
        rewrite !length_app. cbn.
        replace (List.length ps + 1 <=? 5)%nat with true
          by (symmetry; apply Nat.leb_le; lia).
        cbn. rewrite andb_true_r. apply Z.leb_le.
        unfold param_length in E6. lia.
    - exfalso. apply Hgo, Habort; auto.
      + apply andb_false_r.
      + replace (Z.of_nat (param_length p) >=? MAX_PARAM_LENGTH) with true;
          [reflexivity|].
        symmetry. rewrite Z.geb_leb. apply Z.leb_le. lia. }
  exfalso. apply Hgo, Habort; auto.
  - apply andb_false_r.
  - apply orb_true_r.
Qed.

Lemma feed_single (P : Platform) (p : Parser) (c : ascii) :
  feed P p [c]
  = (fst (parser_step P p c),
     match snd (parser_step P p c) with Some d => [d] | None => [] end).
Proof. cbn [feed]. destruct (parser_step P p c) as [q [d|]]; reflexivity. Qed.

Lemma inner_facts (c : ascii) :
  is_inner c = true ->
  Ascii.eqb c START_CHAR = false /\ Ascii.eqb c END_CHAR = false.
Proof.
  unfold is_inner. intros H. apply andb_prop in H. destruct H as [A B].
  apply negb_true_iff in A, B. split; assumption.
Qed.

(** Between the markers, the parser is still reading only while the text
    so far is well-formed. *)
Lemma still_reading (P : Platform) (p0 : Parser) :
  currParserState p0 = PARSER_WAITING ->
  forall s, forallb is_inner s = true ->
  currParserState (fst (feed P p0 (START_CHAR :: s))) <> PARSER_WAITING ->
  partial_text s.
Proof.
  intros Hst s. induction s as [|c s IH] using rev_ind; intros Hin Hgo.
  - left. split; [reflexivity | cbn; lia].
  - rewrite forallb_app in Hin. apply andb_prop in Hin.
    destruct Hin as [Hs Hc]. cbn in Hc. rewrite andb_true_r in Hc.
    destruct (inner_facts c Hc) as [Hstart Hend].
    destruct (Z.eq_dec (currParserState (fst (feed P p0 (START_CHAR :: s))))
                PARSER_WAITING) as [Hw|Hw].
    + exfalso. apply Hgo.
      change (START_CHAR :: s ++ [c]) with ((START_CHAR :: s) ++ [c]).
      rewrite feed_app, feed_single. cbn [fst].
      rewrite (waiting_stays P _ c Hw Hstart). exact Hw.
    + destruct (IH Hs Hw) as [[Hup Hlen] | (l0 & l1 & ps & p & E & Hacc)].
      * apply (partial_letters_step P p0 s c Hst Hup Hlen Hend Hgo).
      * subst s. apply (partial_params_step P p0 l0 l1 ps p c Hst Hacc Hend).
        exact Hgo.
Qed.

(** X9: nothing but a well-formed command text is handed over.  When the
    bytes between a start marker and the next end marker (no marker among
    them) make the parser hand over a command, they are the text of a
    command of two upper-case letters and at most five parameters of at
    most six characters, each an optional ['-'] and digits, and the
    command handed over is the one the text stands for. *)
Theorem only_command_texts_are_handed_over (P : Platform)
    (body : list ascii) :
  forallb is_inner body = true ->
  handed_over P (START_CHAR :: body ++ [END_CHAR]) <> [] ->
  exists c,
    accepted_command c = true
    /\ START_CHAR :: body ++ [END_CHAR] = render_command c
    /\ handed_over P (START_CHAR :: body ++ [END_CHAR]) = [command_value P c].
Proof.
  intros Hin Hout.
  assert (Hnone : snd (feed P setup_Parser (START_CHAR :: body)) = []).
  { destruct setup_Parser_good as [Hr Hl].
    destruct (feed_good P (START_CHAR :: body) setup_Parser Hr Hl)
      as (_ & _ & _ & Hle).
    assert (Hz : count_occ ascii_dec (START_CHAR :: body) END_CHAR = 0%nat).
    { rewrite count_occ_cons_neq by discriminate.
      apply count_occ_not_In. intros Hi.
      rewrite forallb_forall in Hin. specialize (Hin _ Hi).
      destruct (inner_facts _ Hin) as [_ E]. rewrite Ascii.eqb_refl in E.
      discriminate E. }
    rewrite Hz in Hle.
    destruct (snd (feed P setup_Parser (START_CHAR :: body)));
      [reflexivity | cbn in Hle; lia]. }
  assert (Hsol : forall c,
            accepted_command c = true ->
            START_CHAR :: body ++ [END_CHAR] = render_command c ->
            exists c, accepted_command c = true
              /\ START_CHAR :: body ++ [END_CHAR] = render_command c
              /\ handed_over P (START_CHAR :: body ++ [END_CHAR])
                 = [command_value P c]).
  { intros c Hc E. exists c. split; [exact Hc|]. split; [exact E|].
    rewrite E. unfold handed_over.
    destruct (accepted_command_fed P setup_Parser c eq_refl Hc)
      as (q & Hq & _).
    rewrite Hq. reflexivity. }
  destruct (Z.eq_dec (currParserState
                        (fst (feed P setup_Parser (START_CHAR :: body))))
              PARSER_WAITING) as [Hw|Hw].
  - exfalso. apply Hout. unfold handed_over.
    change (START_CHAR :: body ++ [END_CHAR])
      with ((START_CHAR :: body) ++ [END_CHAR]).
    rewrite feed_app, Hnone, feed_single. cbn [snd app].
    rewrite (waiting_stays P _ END_CHAR Hw eq_refl). reflexivity.
  - destruct (still_reading P setup_Parser eq_refl body Hin Hw)
      as [[Hup Hlen] | (l0 & l1 & ps & p & E & Hacc)].
    + destruct body as [|l0 [|l1 [|l2 rest]]]; cbn in Hlen; try lia.
      * exfalso. apply Hout. reflexivity.
      * exfalso. apply Hout. unfold handed_over.
        change (START_CHAR :: [l0] ++ [END_CHAR])
          with ((START_CHAR :: [l0]) ++ [END_CHAR]).
        rewrite feed_app, (letters_fed P setup_Parser [l0] eq_refl Hup Hlen).
        reflexivity.
      * apply (Hsol {| letter0 := l0; letter1 := l1; params := [] |});
          [|reflexivity].
        cbn in Hup. rewrite andb_true_r in Hup.
        unfold accepted_command. cbn. rewrite Hup. reflexivity.
    + subst body.
      apply (Hsol {| letter0 := l0; letter1 := l1; params := ps ++ [p] |});
        [exact Hacc | reflexivity].
Qed.

Lemma only_command_texts_are_handed_over_witness :
  forallb is_inner (list_ascii_of_string "BX,-3") = true
  /\ handed_over uno (list_ascii_of_string "<BX,-3>") <> []
  /\ exists c,
       accepted_command c = true
       /\ list_ascii_of_string "<BX,-3>" = render_command c
       /\ handed_over uno (list_ascii_of_string "<BX,-3>")
          = [command_value uno c].
Proof.
  split; [reflexivity|]. split; [vm_compute; discriminate|].
  apply (only_command_texts_are_handed_over uno
           (list_ascii_of_string "BX,-3"));
    [reflexivity | vm_compute; discriminate].
Defined.

(* ------------------------------------------------------------------ *)
(** ** What the sequencer keeps true while the sketch runs *)

Lemma initial_tables_shaped (P : Platform) (n : AnimName) :
  well_shaped (initial_mem P n) = true
  /\ 1 <= NumOfFrames (initial_mem P n) <= 14.
Proof.
  destruct n; split; try reflexivity;
    unfold NumOfFrames, cell; cbn; lia.
Qed.

Lemma scratch_is_shaped (d : AnimData) :
  scratch_shaped d -> well_shaped d = true /\ NumOfFrames d = 1.
Proof.
  intros (t & lh & lf & rh & rf & -> & _). split; reflexivity.
Qed.

Lemma kept_tables_shaped (P : Platform) (m : AnimName -> AnimData)
    (n : AnimName) :
  tables_kept P m ->
  well_shaped (m n) = true /\ 1 <= NumOfFrames (m n) <= 14.
Proof.
  intros H. specialize (H n). destruct (is_scratch n).
  - destruct (scratch_is_shaped _ H) as [A B]. rewrite B. split; [exact A|lia].
  - rewrite H. apply initial_tables_shaped.
Qed.

Lemma consistent_setup (P : Platform) (now : Z) :
  consistent P (setup_Animation P now).
Proof.
  unfold consistent; cbn. split; [|split; [|split]].
  - intros n. destruct n; cbn; try reflexivity.
    + exists 0, (LeftHipCentre P), (LeftFootFlat P), (RightHipCentre P),
        (RightFootFlat P). split; [reflexivity | lia].
    + exists 0, (LeftHipCentre P), (LeftFootFlat P), (RightHipCentre P),
        (RightFootFlat P). split; [reflexivity | lia].
  - discriminate.
  - discriminate.
  - intros _ c H. discriminate H.
Qed.

Lemma consistent_PlayAnimNumTimes (P : Platform) (a : Anim) (c : AnimName)
    (f : option AnimName) (n : Z) (t : option Tag) :
  consistent P a -> consistent P (PlayAnimNumTimes (Some c) f n t a).
Proof.
  intros (H1 & H2 & H3 & H4).
  destruct a; destruct t; unfold consistent in *; cbn in *;
    (split; [exact H1 | split; [exact H2 | split; [discriminate | exact H4]]]).
Qed.

Lemma consistent_StopAnimImmediate (P : Platform) (a : Anim)
    (t : option Tag) :
  consistent P a -> consistent P (StopAnimImmediate t a).
Proof.
  intros (H1 & H2 & H3 & H4).
  destruct a; destruct t; unfold consistent in *; cbn in *;
    (split; [exact H1 | split; [exact H2 | split; [discriminate | exact H4]]]).
Qed.

Lemma SetServos_mem (P : Platform) (a : Anim) (t lh lf rh rf : Z)
    (tag : option Tag) :
  scratch_shaped (mem a (tweenServoData a)) ->
  mem (SetServos P t lh lf rh rf tag a)
  = store (mem a) (tweenServoData a)
      [[1; 0; 0; 0; 0];
       [t; LeftHipIn P lh; LeftFootUp P lf; RightHipIn P rh;
        RightFootUp P rf]]
  /\ nextAnim (SetServos P t lh lf rh rf tag a) = Some (tweenServoData a)
  /\ currAnim (SetServos P t lh lf rh rf tag a) = currAnim a
  /\ animInProgress (SetServos P t lh lf rh rf tag a) = animInProgress a
  /\ interruptInProgressAnim (SetServos P t lh lf rh rf tag a)
     = interruptInProgressAnim a
  /\ targetFrame (SetServos P t lh lf rh rf tag a) = targetFrame a
  /\ currPos (SetServos P t lh lf rh rf tag a) = currPos a.
Proof.
  intros (t0 & a1 & a2 & a3 & a4 & E & _).
  destruct a; destruct tag; unfold SetServos; cbn in *;
    unfold tweenServoData in *; cbn in *; rewrite E; repeat split.
Qed.

Lemma tweenServoData_scratch (a : Anim) : is_scratch (tweenServoData a) = true.
Proof. unfold tweenServoData. destruct (negb _); reflexivity. Qed.

Lemma store_same (m : AnimName -> AnimData) (n : AnimName) (d : AnimData) :
  store m n d n = d.
Proof. unfold store. destruct (AnimName_eq_dec n n); congruence. Qed.

Lemma store_other (m : AnimName -> AnimData) (n k : AnimName) (d : AnimData) :
  k <> n -> store m n d k = m k.
Proof. unfold store. destruct (AnimName_eq_dec k n); congruence. Qed.

Lemma consistent_SetServos (P : Platform) (a : Anim) (t lh lf rh rf : Z)
    (tag : option Tag) :
  0 <= t ->
  consistent P a -> consistent P (SetServos P t lh lf rh rf tag a).
Proof.
  intros Ht (H1 & H2 & H3 & H4).
  assert (Hs : scratch_shaped (mem a (tweenServoData a))).
  { specialize (H1 (tweenServoData a)).
    rewrite tweenServoData_scratch in H1. exact H1. }
  destruct (SetServos_mem P a t lh lf rh rf tag Hs)
    as (Em & En & Ec & Ep & Ei & Ef & Epos).
  pose proof (tweenServoData_not_current a) as Hne.
  assert (Hc : forall c, currAnim a = Some c ->
               mem (SetServos P t lh lf rh rf tag a) c = mem a c).
  { intros c E. rewrite Em. apply store_other. congruence. }
  unfold consistent. rewrite Ec, Ep, Ei, Ef, En, Epos.
  split; [|split; [|split]].
  - intros n. rewrite Em.
    destruct (AnimName_eq_dec n (tweenServoData a)) as [->|Hn].
    + rewrite tweenServoData_scratch, store_same.
      eexists _, _, _, _, _. split; [reflexivity | exact Ht].
    + rewrite store_other by exact Hn. apply H1.
  - intros Hp. destruct (H2 Hp) as (c & E & Hf). exists c.
    rewrite (Hc c E). auto.
  - discriminate.
  - intros Hp c E. rewrite (Hc c E). apply H4; assumption.
Qed.

Lemma consistent_handle_command (P : Platform) (c : Command) (a : Anim) :
  consistent P a -> consistent P (fst (handle_command P c a)).
Proof.
  intros H. unfold handle_command.
  set (tweenTime := if param1 c <? 0 then 0 else param1 c).
  assert (Ht : 0 <= tweenTime)
    by (unfold tweenTime; destruct (Z.ltb_spec (param1 c) 0); lia).
  clearbody tweenTime.
  repeat match goal with
         | |- context [if ?b then _ else _] => destruct b
         end; cbn [fst];
    try exact H; try (apply consistent_PlayAnimNumTimes; exact H).
  - apply consistent_SetServos; [exact Ht | exact H].
  - apply consistent_StopAnimImmediate; exact H.
Qed.

Lemma consistent_start_next_anim (P : Platform) (a : Anim) (now : Z) :
  consistent P a ->
  consistent P (fst (start_next_anim a now))
  /\ interruptInProgressAnim (fst (start_next_anim a now)) = false.
Proof.
  intros (H1 & H2 & H3 & H4).
  destruct a as [tl ca fa ts tf nl cs ip na nfa nnl ncs iip cp sp m].
  unfold consistent, start_next_anim in *. cbn in *.
  destruct na as [c|]; cbn.
  - destruct (kept_tables_shaped P m c H1) as [_ Hn].
    destruct ip, iip; cbn.
    + split; [|reflexivity].
      split; [exact H1|]. split; [|split; [discriminate|discriminate]].
      intros _. exists c. split; [reflexivity | lia].
    + split; [|reflexivity].
      split; [exact H1|]. split; [exact H2|]. split; [discriminate|exact H4].
    + split; [|reflexivity].
      split; [exact H1|]. split; [|split; [discriminate|discriminate]].
      intros _. exists c. split; [reflexivity | lia].
    + split; [|reflexivity].
      split; [exact H1|]. split; [|split; [discriminate|discriminate]].
      intros _. exists c. split; [reflexivity | lia].
  - destruct iip.
    + exfalso. apply H3; reflexivity.
    + split; [|reflexivity].
      split; [exact H1|]. split; [exact H2|]. split; [discriminate|exact H4].
Qed.

Lemma consistent_tween_servos (P : Platform) (a : Anim) (now : Z) :
  consistent P a -> animInProgress a = true ->
  consistent P (fst (tween_servos P a now)).
Proof.
  intros (H1 & H2 & H3 & H4) Hp.
  destruct a as [tl ca fa ts tf nl cs ip na nfa nnl ncs iip cp sp m].
  unfold consistent, tween_servos in *. cbn in *. subst ip.
  split; [exact H1|]. split; [exact H2|]. split; [exact H3|discriminate].
Qed.

Lemma consistent_switch_frame (P : Platform) (a : Anim) (now : Z) :
  consistent P a -> animInProgress a = true ->
  consistent P (fst (switch_frame P a now))
  /\ interruptInProgressAnim (fst (switch_frame P a now))
     = interruptInProgressAnim a.
Proof.
  intros (H1 & H2 & H3 & H4) Hp.
  destruct (H2 Hp) as (c & Ec & Hf).
  destruct (kept_tables_shaped P (mem a) c H1) as [_ Hn].
  destruct a as [tl ca fa ts tf nl cs ip na nfa nnl ncs iip cp sp m].
  cbn in *. subst ip ca.
  assert (Et : to_int P (tf + 1) = tf + 1) by (apply to_int_small; lia).
  unfold consistent, switch_frame, finish_or_report. cbn.
  destruct (_ >? _) eqn:Efire; cbn.
  2:{ split; [|reflexivity]. split; [exact H1|]. split; [|split; [exact H3|]].
      - intros _. exists c. split; [reflexivity | exact Hf].
      - discriminate. }
  rewrite Et.
  destruct (tf + 1 >? NumOfFrames (m c)) eqn:Elast; cbn.
  2:{ split; [|reflexivity]. split; [exact H1|]. split; [|split; [exact H3|]].
      - intros _. exists c. split; [reflexivity|].
        rewrite Z.gtb_ltb in Elast. apply Z.ltb_ge in Elast. lia.
      - discriminate. }
  assert (Etf : tf = NumOfFrames (m c)).
  { rewrite Z.gtb_ltb in Elast. apply Z.ltb_lt in Elast. lia. }
  assert (Hpose : forall k, Some c = Some k ->
            at_keyframe (m k) (NumOfFrames (m k))
              (resolve_frame (m c) tf cp)).
  { intros k Ek. injection Ek as <-. intros j Hj.
    rewrite resolve_frame_joint, Etf.
    rewrite (present_test _ Hj). reflexivity. }
  repeat match goal with
         | |- context [if ?b then _ else _] => destruct b eqn:?
         end; cbn.
  all: split; [|reflexivity].
  all: split; [exact H1|].
  all: try (split; [discriminate | split; [discriminate | intros _; exact Hpose]]).
  all: try (split; [discriminate | split; [exact H3 | intros _; exact Hpose]]).
  all: destruct fa as [f|]; cbn in *; try discriminate.
  all: destruct (kept_tables_shaped P m f H1) as [_ Hnf].
  all: split; [intros _; exists f; split; [reflexivity | lia]|].
  all: split; [exact H3 | discriminate].
Qed.

Lemma consistent_set_time (P : Platform) (a : Anim) (now : Z) :
  consistent P a -> consistent P (set_timeAtLastAnimUpdate now a).
Proof. intros H. exact H. Qed.

Lemma consistent_update_current_anim (P : Platform) (a : Anim) (now : Z) :
  consistent P a ->
  consistent P (fst (update_current_anim P a now))
  /\ interruptInProgressAnim (fst (update_current_anim P a now))
     = interruptInProgressAnim a.
Proof.
  intros H. rewrite update_current_anim_eq.
  destruct (animInProgress a) eqn:Hp; [|split; [exact H | reflexivity]].
  cbv zeta. destruct (consistent_switch_frame P a now H Hp) as [H2 Hi].
  destruct (switch_frame P a now) as [a2 e2]. cbn [fst snd] in *.
  destruct (animInProgress a2) eqn:Hp2; [|split; assumption].
  split; [apply consistent_tween_servos; assumption|].
  rewrite <- Hi. destruct a2; reflexivity.
Qed.

Lemma consistent_loop_Animation (P : Platform) (a : Anim) (now : Z) :
  consistent P a ->
  consistent P (fst (loop_Animation P a now))
  /\ (to_long (timeAtLastAnimUpdate a + millisBetweenAnimUpdate) <= now ->
      interruptInProgressAnim (fst (loop_Animation P a now)) = false).
Proof.
  intros H. unfold loop_Animation.
  destruct (_ >? _) eqn:Eskip.
  - split; [exact H|]. intros Hrun.
    rewrite Z.gtb_ltb in Eskip. apply Z.ltb_lt in Eskip. lia.
  - pose proof (consistent_set_time P a now H) as H0.
    destruct (consistent_start_next_anim P _ now H0) as [H1 Hi1].
    destruct (start_next_anim _ now) as [a1 e1]. cbn [fst] in *.
    destruct (consistent_update_current_anim P a1 now H1) as [H2 Hi2].
    destruct (update_current_anim P a1 now) as [a2 e2]. cbn [fst] in *.
    split; [exact H2|]. intros _. rewrite Hi2. exact Hi1.
Qed.

Lemma consistent_loop (P : Platform) (r : Robot) (avail : option ascii)
    (now : Z) :
  consistent P (anim r) -> consistent P (anim (fst (loop P r avail now))).
Proof.
  intros H. unfold loop.
  assert (H1 : consistent P (anim (fst (loop_Parser P r avail)))).
  { unfold loop_Parser. destruct avail as [c|]; [|exact H].
    destruct (parser_step P (parser r) c) as [p [cmd|]]; [|exact H].
    pose proof (consistent_handle_command P cmd (anim r) H) as H'.
    destruct (handle_command P cmd (anim r)). exact H'. }
  destruct (loop_Parser P r avail) as [r1 e1]. cbn [fst] in H1.
  destruct (consistent_loop_Animation P (anim r1) now H1) as [H2 _].
  destruct (loop_Animation P (anim r1) now) as [a2 e2]. exact H2.
Qed.

Lemma consistent_run (P : Platform) (inputs : list (option ascii * Z)) :
  forall r, consistent P (anim r) ->
  consistent P (anim (fst (run P r inputs))).
Proof.
  induction inputs as [|[avail now] rest IH]; intros r H; [exact H|].
  cbn [run]. pose proof (consistent_loop P r avail now H) as H1.
  destruct (loop P r avail now) as [r1 e1]. cbn [fst] in H1.
  specialize (IH r1 H1). destruct (run P r1 rest). exact IH.
Qed.

Lemma reached_consistent (P : Platform) (t0 : Z)
    (inputs : list (option ascii * Z)) :
  consistent P (anim (reached P t0 inputs)).
Proof. apply consistent_run, consistent_setup. Qed.

Lemma shaped_in_array (d : AnimData) (r k : Z) :
  well_shaped d = true -> 0 <= r <= NumOfFrames d -> 0 <= k <= 4 ->
  in_array d r k = true.
Proof.
  unfold well_shaped, in_array. intros H Hr Hk.
  apply andb_prop in H. destruct H as [H Hrows].
  apply andb_prop in H. destruct H as [Hn Hlen].
  apply Z.leb_le in Hn. apply Z.eqb_eq in Hlen.
  assert (Hin : (Z.to_nat r < List.length d)%nat) by lia.
  rewrite forallb_forall in Hrows.
  specialize (Hrows (nth (Z.to_nat r) d []) (nth_In d [] Hin)).
  apply Nat.eqb_eq in Hrows. rewrite Hrows.
  repeat (apply andb_true_intro; split);
    first [apply Z.leb_le; lia | apply Z.ltb_lt; lia].
Qed.

Lemma consistent_reads (P : Platform) (a : Anim) :
  consistent P a -> reads_in_bounds a.
Proof.
  intros (H1 & H2 & _) Hp. destruct (H2 Hp) as (c & Ec & Hf).
  destruct (kept_tables_shaped P (mem a) c H1) as [Hs Hn].
  rewrite Ec. cbn [deref]. split.
  - apply shaped_in_array; [exact Hs | lia | lia].
  - intros k Hk. apply shaped_in_array; [exact Hs | lia | exact Hk].
Qed.

(** X10: every array access of the sequencer stays inside its array, in
    every state the sketch reaches from [setup()], whatever bytes arrive
    and whenever [loop()] is called.  The reads [currAnim[targetFrame][..]]
    and [currAnim[0][0]] of [loop_Animation] are made with [currAnim] not
    null and [targetFrame] a row of the array, both where the frame switch
    reads (after a queued animation was started) and where the
    interpolation reads (after the frame switch); the writes
    [tweenServoData[1][..]] of [SetServos] go to a row the array has. *)
Theorem array_accesses_stay_in_bounds (P : Platform) (t0 : Z)
    (inputs : list (option ascii * Z)) (now : Z) :
  let a := anim (reached P t0 inputs) in
  let started := fst (start_next_anim (set_timeAtLastAnimUpdate now a) now) in
  let switched := fst (switch_frame P started now) in
  (forall n, well_shaped (mem a n) = true)
  /\ reads_in_bounds started
  /\ (animInProgress started = true -> reads_in_bounds switched)
  /\ (forall k, 0 <= k <= 4 ->
        in_array (mem a (tweenServoData a)) 1 k = true).
Proof.
  cbv zeta. pose proof (reached_consistent P t0 inputs) as H.
  set (a := anim (reached P t0 inputs)) in *.
  pose proof (consistent_set_time P a now H) as H0.
  destruct (consistent_start_next_anim P _ now H0) as [H1 _].
  split; [|split; [|split]].
  - intros n. apply (kept_tables_shaped P (mem a) n), H.
  - apply (consistent_reads P), H1.
  - intros Hp. apply (consistent_reads P).
    apply (consistent_switch_frame P _ now H1 Hp).
  - intros k Hk.
    destruct (kept_tables_shaped P (mem a) (tweenServoData a)) as [Hs Hn];
      [apply H|].
    apply shaped_in_array; [exact Hs | lia | exact Hk].
Qed.

(** X11: the predefined animations are never written: in every state the
    sketch reaches they are as initialised.  Only the two scratch
    animations change, and they always hold one keyframe of five values
    with a tween time that is not negative. *)
Theorem animation_tables_are_kept (P : Platform) (t0 : Z)
    (inputs : list (option ascii * Z)) :
  let m := mem (anim (reached P t0 inputs)) in
  (forall n, is_scratch n = false -> m n = initial_mem P n)
  /\ (forall n, is_scratch n = true ->
        NumOfFrames (m n) = 1 /\ List.length (m n) = 2%nat
        /\ List.length (nth 1 (m n) []) = 5%nat
        /\ 0 <= cell (m n) 1 TWEEN_TIME_VALUE).
Proof.
  cbv zeta. destruct (reached_consistent P t0 inputs) as (H1 & _).
  split; intros n Hn; specialize (H1 n); rewrite Hn in H1.
  - exact H1.
  - destruct H1 as (t & lh & lf & rh & rf & -> & Ht).
    repeat split. exact Ht.
Qed.

(** X12: an interrupt request never outlives the next animation update: in
    every state the sketch reaches, [interruptInProgressAnim] is only set
    while something is queued, and any call of [loop_Animation] that is
    not skipped leaves it clear. *)
Theorem interrupt_is_taken_at_next_update (P : Platform) (t0 : Z)
    (inputs : list (option ascii * Z)) (now : Z) :
  let a := anim (reached P t0 inputs) in
  (interruptInProgressAnim a = true -> nextAnim a <> None)
  /\ (to_long (timeAtLastAnimUpdate a + millisBetweenAnimUpdate) <= now ->
      interruptInProgressAnim (fst (loop_Animation P a now)) = false).
Proof.
  cbv zeta. pose proof (reached_consistent P t0 inputs) as H.
  split; [apply H | apply (consistent_loop_Animation P _ now H)].
Qed.

Lemma joints_eq (p q : Joints) :
  (forall j, joint_value j p = joint_value j q) -> p = q.
Proof.
  intros H. destruct p, q.
  pose proof (H LeftHipJoint). pose proof (H LeftFootJoint).
  pose proof (H RightHipJoint). pose proof (H RightFootJoint).
  cbn in *. congruence.
Qed.

(** X13: whenever no animation is in progress, the servos are where the last
    keyframe of the animation played last has put them: every joint that
    keyframe gives a value to is at that value.  In particular, when the
    animation played last is the stand-straight animation (a stop command
    was played to its end), the robot stands in its centre pose. *)
Theorem idle_pose_is_last_keyframe (P : Platform) (t0 : Z)
    (inputs : list (option ascii * Z)) (c : AnimName) :
  let a := anim (reached P t0 inputs) in
  animInProgress a = false -> currAnim a = Some c ->
  (forall j, 0 <= cell (mem a c) (NumOfFrames (mem a c)) (joint_column j) ->
     joint_value j (currPos a)
     = cell (mem a c) (NumOfFrames (mem a c)) (joint_column j))
  /\ (c = standStraightAnim -> currPos a = centre_pose).
Proof.
  cbv zeta. intros Hp Hc.
  destruct (reached_consistent P t0 inputs) as (H1 & _ & _ & H4).
  specialize (H4 Hp c Hc). split; [exact H4|].
  intros ->. specialize (H1 standStraightAnim). cbn in H1.
  rewrite H1 in H4. apply joints_eq. intros j.
  destruct j; (rewrite H4; [reflexivity | vm_compute; discriminate]).
Qed.

Lemma idle_pose_is_last_keyframe_witness :
  let inputs := map (fun c => (Some c, 0)) (list_ascii_of_string "<ST>")
                ++ [(None, 20); (None, 400)] in
  let a := anim (reached uno 0 inputs) in
  animInProgress a = false /\ currAnim a = Some standStraightAnim
  /\ currPos a = centre_pose.
Proof.
  cbv zeta.
  assert (H1 : animInProgress
                 (anim (reached uno 0
                          (map (fun c => (Some c, 0))
                             (list_ascii_of_string "<ST>")
                           ++ [(None, 20); (None, 400)]))) = false)
    by (vm_compute; reflexivity).
  assert (H2 : currAnim
                 (anim (reached uno 0
                          (map (fun c => (Some c, 0))
                             (list_ascii_of_string "<ST>")
                           ++ [(None, 20); (None, 400)])))
               = Some standStraightAnim)
    by (vm_compute; reflexivity).
  split; [exact H1|]. split; [exact H2|].
  apply (idle_pose_is_last_keyframe uno 0 _ standStraightAnim H1 H2).
  reflexivity.
Defined.

Lemma initial_tween_times_positive (P : Platform) (n : AnimName) (f : Z) :
  is_scratch n = false -> 1 <= f <= NumOfFrames (initial_mem P n) ->
  0 < cell (initial_mem P n) f TWEEN_TIME_VALUE.
Proof.
  intros Hn Hf.
  assert (Hc : f = 1 \/ f = 2 \/ f = 3 \/ f = 4 \/ f = 5 \/ f = 6 \/ f = 7
               \/ f = 8 \/ f = 9 \/ f = 10 \/ f = 11 \/ f = 12 \/ f = 13
               \/ f = 14).
  { pose proof (initial_tables_shaped P n) as [_ H]. lia. }
  destruct n; try discriminate Hn; unfold NumOfFrames, cell in *; cbn in Hf;
    repeat (destruct Hc as [Hc|Hc]; [subst f; try lia; reflexivity|]);
    subst f; try lia; reflexivity.
Qed.

Lemma tween_servos_divisor (P : Platform) (a : Anim) (now : Z) :
  consistent P a -> animInProgress a = true ->
  Forall divisor_kept (snd (tween_servos P a now)).
Proof.
  intros (H1 & H2 & _) Hp. destruct (H2 Hp) as (c & Ec & Hf).
  unfold tween_servos. cbn [snd]. constructor; [|constructor].
  rewrite Ec. cbn [divisor_kept deref].
  specialize (H1 c). destruct (is_scratch c) eqn:Hs.
  - destruct H1 as (t & lh & lf & rh & rf & E & Ht).
    rewrite E in *. unfold NumOfFrames, cell in Hf. cbn in Hf.
    replace (targetFrame a) with 1 by lia.
    split; [exact Ht|]. intros _. exists c. split; [reflexivity | exact Hs].
  - rewrite H1 in *.
    pose proof (initial_tween_times_positive P c _ Hs Hf). split; lia.
Qed.

Lemma switch_frame_divisor (P : Platform) (a : Anim) (now : Z) :
  Forall divisor_kept (snd (switch_frame P a now)).
Proof.
  unfold switch_frame, finish_or_report.
  repeat match goal with
         | |- context [if ?b then _ else _] => destruct b
         end; cbn; repeat constructor.
Qed.

Lemma start_next_anim_divisor (a : Anim) (now : Z) :
  Forall divisor_kept (snd (start_next_anim a now)).
Proof.
  unfold start_next_anim.
  repeat match goal with
         | |- context [if ?b then _ else _] => destruct b
         end; cbn; repeat constructor.
Qed.

Lemma loop_Animation_divisor (P : Platform) (a : Anim) (now : Z) :
  consistent P a -> Forall divisor_kept (snd (loop_Animation P a now)).
Proof.
  intros H. unfold loop_Animation.
  destruct (_ >? _); [constructor|].
  pose proof (consistent_set_time P a now H) as H0.
  destruct (consistent_start_next_anim P _ now H0) as [H1 _].
  pose proof (start_next_anim_divisor (set_timeAtLastAnimUpdate now a) now)
    as D1.
  destruct (start_next_anim _ now) as [a1 e1]. cbn [fst snd] in *.
  rewrite update_current_anim_eq.
  destruct (animInProgress a1) eqn:Hp; cbn [snd].
  2:{ rewrite app_nil_r. exact D1. }
  cbv zeta. destruct (consistent_switch_frame P a1 now H1 Hp) as [H2 _].
  pose proof (switch_frame_divisor P a1 now) as D2.
  destruct (switch_frame P a1 now) as [a2 e2]. cbn [fst snd] in *.
  destruct (animInProgress a2) eqn:Hp2; cbn [snd].
  - pose proof (tween_servos_divisor P a2 now H2 Hp2) as D3.
    destruct (tween_servos P a2 now) as [a3 e3]. cbn [fst snd] in *.
    apply Forall_app. split; [exact D1|]. apply Forall_app. split; assumption.
  - apply Forall_app. split; assumption.
Qed.

Lemma handle_command_divisor (P : Platform) (c : Command) (a : Anim) :
  Forall divisor_kept (snd (handle_command P c a)).
Proof.
  unfold handle_command.
  repeat match goal with
         | |- context [if ?b then _ else _] => destruct b
         end; cbn; repeat constructor.
Qed.

Lemma run_divisor (P : Platform) (inputs : list (option ascii * Z)) :
  forall r, consistent P (anim r) ->
  Forall divisor_kept (snd (run P r inputs)).
Proof.
  induction inputs as [|[avail now] rest IH]; intros r H; [constructor|].
  cbn [run]. pose proof (consistent_loop P r avail now H) as H1.
  assert (D : Forall divisor_kept (snd (loop P r avail now))).
  { unfold loop.
    assert (Hc : consistent P (anim (fst (loop_Parser P r avail)))
                 /\ Forall divisor_kept (snd (loop_Parser P r avail))).
    { unfold loop_Parser. destruct avail as [c|]; [|split; [exact H|constructor]].
      destruct (parser_step P (parser r) c) as [p [cmd|]];
        [|split; [exact H|constructor]].
      pose proof (consistent_handle_command P cmd (anim r) H) as H'.
      pose proof (handle_command_divisor P cmd (anim r)) as D'.
      destruct (handle_command P cmd (anim r)). split; assumption. }
    destruct (loop_Parser P r avail) as [r1 e1]. cbn [fst snd] in Hc.
    destruct Hc as [Hc D1].
    pose proof (loop_Animation_divisor P (anim r1) now Hc) as D2.
    destruct (loop_Animation P (anim r1) now) as [a2 e2]. cbn [snd] in *.
    apply Forall_app. split; assumption. }
  destruct (loop P r avail now) as [r1 e1]. cbn [fst snd] in *.
  specialize (IH r1 H1). destruct (run P r1 rest). cbn [snd] in *.
  apply Forall_app. split; assumption.
Qed.

(** X14: the interpolation never divides by a negative tween time, and it
    divides by zero only while it plays a scratch animation, that is one
    set by an [SV] command with time 0: in every run of the sketch from
    [setup()], each interpolation has a divisor that is positive, or zero
    with a scratch animation as the current one.  No predefined animation
    has a keyframe with tween time 0. *)
Theorem zero_divisor_only_from_SetServos (P : Platform) (t0 : Z)
    (inputs : list (option ascii * Z)) :
  Forall divisor_kept (snd (run P (fst (setup P t0)) inputs))
  /\ forall n f, is_scratch n = false ->
       1 <= f <= NumOfFrames (initial_mem P n) ->
       0 < cell (initial_mem P n) f TWEEN_TIME_VALUE.
Proof.
  split.
  - apply run_divisor, consistent_setup.
  - intros n f. apply initial_tween_times_positive.
Qed.

(* ------------------------------------------------------------------ *)
(** ** The command handler *)





(* ------------------------------------------------------------------ *)
(** ** Calls that come too early *)

(** X16: the sequencer advances at most once per update period, however
    fast [loop()] spins: calls of [loop_Animation] made less than
    [millisBetweenAnimUpdate] milliseconds after the last update change
    nothing and send nothing, so that leaving them out of a schedule gives
    the same run. *)
Theorem early_calls_change_nothing (P : Platform) (a : Anim)
    (early rest : list Z) :
  -2147483648 <= timeAtLastAnimUpdate a <= 2147483647 - millisBetweenAnimUpdate ->
  forallb (fun t => t <? timeAtLastAnimUpdate a + millisBetweenAnimUpdate)
    early = true ->
  run_ticks P a early = (a, [])
  /\ run_ticks P a (early ++ rest) = run_ticks P a rest.
Proof.
  intros Hr He.
  assert (H : run_ticks P a early = (a, [])).
  { induction early as [|t early IH]; [reflexivity|].
    cbn in He. apply andb_prop in He. destruct He as [Ht He].
    apply Z.ltb_lt in Ht. cbn [run_ticks].
    rewrite loop_Animation_skipped.
    - rewrite (IH He). reflexivity.
    - rewrite to_long_id; [exact Ht|].
      unfold millisBetweenAnimUpdate in *. lia. }
  split; [exact H|].
  clear H. induction early as [|t early IH]; [reflexivity|].
  cbn in He. apply andb_prop in He. destruct He as [Ht He].
  apply Z.ltb_lt in Ht. cbn [run_ticks app].
  rewrite loop_Animation_skipped.
  - rewrite (IH He). destruct (run_ticks P a rest). reflexivity.
  - rewrite to_long_id; [exact Ht|].
    unfold millisBetweenAnimUpdate in *. lia.
Qed.

Lemma early_calls_change_nothing_witness :
  let a := walking_forward in
  -2147483648 <= timeAtLastAnimUpdate a
    <= 2147483647 - millisBetweenAnimUpdate
  /\ forallb (fun t => t <? timeAtLastAnimUpdate a + millisBetweenAnimUpdate)
       [61; 70; 79] = true
  /\ run_ticks uno a ([61; 70; 79] ++ [80; 100])
     = run_ticks uno a [80; 100].
Proof.
  cbv zeta.
  assert (H1 : -2147483648 <= timeAtLastAnimUpdate walking_forward
               <= 2147483647 - millisBetweenAnimUpdate)
    by (vm_compute; split; discriminate).
  split; [exact H1|]. split; [reflexivity|].
  apply (early_calls_change_nothing uno walking_forward [61; 70; 79]
           [80; 100] H1 eq_refl).
Defined.

(* ------------------------------------------------------------------ *)
(** ** A command sent right after a stop-immediate *)

(** X17: the interrupt requested by [StopAnimImmediate] is taken by
    whatever is in the queue at the next animation update.  When another
    animation is queued before that update, it is that animation which
    starts at once, from the current servo positions, with the
    interrupted line printed for the animation found in
    [animCompleteStr]; the stand-straight animation of the stop is never
    played and its completion string is dropped. *)
Theorem interrupt_passes_to_the_last_command (P : Platform) (a : Anim)
    (now : Z) (stopTag tag : option Tag) (c : AnimName)
    (f : option AnimName) (n : Z) :
  to_long (timeAtLastAnimUpdate a + millisBetweenAnimUpdate) <= now ->
  0 <= cell (mem a c) 1 TWEEN_TIME_VALUE ->
  let q := PlayAnimNumTimes (Some c) f n tag (StopAnimImmediate stopTag a) in
  let r := loop_Animation P q now in
  played (snd r) = [Line (interrupted_line (animCompleteStr a))]
  /\ animInProgress (fst r) = true
  /\ currAnim (fst r) = Some c /\ targetFrame (fst r) = 1
  /\ finishAnim (fst r) = f /\ animNumLoops (fst r) = n
  /\ animCompleteStr (fst r) = tag_of tag
  /\ startPos (fst r) = currPos a
  /\ nextAnim (fst r) = None
  /\ interruptInProgressAnim (fst r) = false.
Proof.
  intros Hrun Ht. cbv zeta.
  rewrite loop_Animation_runs
    by (destruct tag, stopTag; exact Hrun).
  assert (E1 : start_next_anim
                 (set_timeAtLastAnimUpdate now
                    (PlayAnimNumTimes (Some c) f n tag
                       (StopAnimImmediate stopTag a))) now
               = ({| timeAtLastAnimUpdate := now;
                     currAnim := Some c; finishAnim := f;
                     timeAtStartOfFrame := now; targetFrame := 1;
                     animNumLoops := n;
                     animCompleteStr := tag_of tag;
                     animInProgress := true;
                     nextAnim := None; nextFinishAnim := None;
                     nextAnimNumLoops := n;
                     nextAnimCompleteStr := no_tag;
                     interruptInProgressAnim := false;
                     currPos := currPos a;
                     startPos := currPos a;
                     mem := mem a |},
                  [Println (interrupted_line (animCompleteStr a))]))
    by (destruct tag, stopTag; destruct a; unfold start_next_anim; cbn;
        rewrite orb_true_r; reflexivity).
  cbv zeta. rewrite E1. cbn [fst snd].
  rewrite update_current_anim_eq. cbv zeta. cbn [animInProgress].
  rewrite switch_frame_wait.
  2:{ cbn [timeAtStartOfFrame currAnim targetFrame deref mem].
      rewrite no_time_elapsed. exact Ht. }
  cbn [fst snd animInProgress]. unfold tween_servos.
  cbn [fst snd]. repeat split.
Qed.

Lemma interrupt_passes_to_the_last_command_witness :
  let a := walking_forward in
  let q := PlayAnimNumTimes (Some bounceAnim) None 1
             (Some ("B"%char, "X"%char))
             (StopAnimImmediate (Some ("S"%char, "I"%char)) a) in
  to_long (timeAtLastAnimUpdate a + millisBetweenAnimUpdate) <= 80
  /\ 0 <= cell (mem a bounceAnim) 1 TWEEN_TIME_VALUE
  /\ played (snd (loop_Animation uno q 80)) = [Line "<FW,-1>"]
  /\ currAnim (fst (loop_Animation uno q 80)) = Some bounceAnim
  /\ played (snd (run_ticks uno q (ticks_every 20 60 60)))
     = [Line "<FW,-1>"; Frame bounceAnim 1; Frame bounceAnim 2; Line "<BX>"].
Proof.
  cbv zeta.
  assert (H1 : to_long (timeAtLastAnimUpdate walking_forward
                        + millisBetweenAnimUpdate) <= 80)
    by (vm_compute; discriminate).
  assert (H2 : 0 <= cell (mem walking_forward bounceAnim) 1 TWEEN_TIME_VALUE)
    by (vm_compute; discriminate).
  split; [exact H1|]. split; [exact H2|].
  destruct (interrupt_passes_to_the_last_command uno walking_forward 80
              (Some ("S"%char, "I"%char)) (Some ("B"%char, "X"%char))
              bounceAnim None 1 H1 H2) as (A & _ & B & _).
  split; [exact A|]. split; [exact B|]. vm_compute. reflexivity.
Defined.

(* ------------------------------------------------------------------ *)
(** ** Playing one [SetServos] command *)











(* ------------------------------------------------------------------ *)
(** ** A command queued while an animation plays *)













Section Overtaken.

Variable P : Platform.
Variables D G : Z.
Hypothesis tween_time_nonneg : 0 <= D.
Hypothesis gap_fits : D + G <= INT_MAX P.




End Overtaken.




(* ------------------------------------------------------------------ *)
(** ** Stop-immediate while nothing is in progress *)

Lemma handle_command_queues (P : Platform) (c : Command) (a : Anim) :
  fst (handle_command P c a) = a
  \/ nextAnim (fst (handle_command P c a)) <> None.
Proof.
  unfold handle_command. cbv zeta.
  repeat match goal with
         | |- context [if is_cmd c ?x ?y then _ else _] =>
             destruct (is_cmd c x y)
         end; cbn [fst].
  all: try (left; reflexivity).
  all: right; unfold StopAnim, StopAnimImmediate; cbv zeta.
  all: try (destruct a; cbn; discriminate).
Qed.

Lemma last_snoc (pre : list string) (s : string) :
  last (pre ++ [s]) ""%string = s.
Proof. apply last_last. Qed.

(** One call of [loop_Animation] that leaves the sequencer at rest:
    either it found it at rest and printed nothing, or the last line it
    printed is the completion line of the tag it leaves. *)
Lemma rest_loop_Animation (P : Platform) (a : Anim) (now : Z) :
  consistent P a ->
  at_rest (fst (loop_Animation P a now)) ->
  (lines (snd (loop_Animation P a now)) = []
   /\ at_rest a
   /\ animCompleteStr (fst (loop_Animation P a now)) = animCompleteStr a)
  \/ exists pre,
       lines (snd (loop_Animation P a now))
       = pre ++ [complete_line
                   (animCompleteStr (fst (loop_Animation P a now)))].
Proof.
  intros (_ & Hcur & _ & _). unfold at_rest.
  destruct a as [tl ca fa ts tf nl cs ip na nfa nnl ncs iip cp sp m].
  cbn in Hcur.
  unfold loop_Animation. cbn.
  destruct (_ >? now); cbn; [intros [Hp Hq]; left; auto|].
  unfold start_next_anim. cbn.
  destruct na as [x|]; destruct ip; destruct iip; cbn;
    try (destruct (Hcur eq_refl) as (c & -> & _)); clear Hcur;
    unfold update_current_anim, switch_frame, finish_or_report, tween_servos,
      LoopAnim, PlayAnim, PlayAnimNumTimes, deref; cbn.
  all: repeat match goal with
              | |- context [if ?b then _ else _] => destruct b eqn:?; cbn
              end.
  all: intros [Hp Hq]; try discriminate.
  all: try (left; repeat split; reflexivity).
  all: try (right; exists []; reflexivity).
  all: right; exists [interrupted_line cs]; reflexivity.
Qed.

Lemma rest_loop_Parser (P : Platform) (r : Robot) (avail : option ascii) :
  at_rest (anim (fst (loop_Parser P r avail))) ->
  anim (fst (loop_Parser P r avail)) = anim r.
Proof.
  unfold loop_Parser. destruct avail as [c|]; [|reflexivity].
  destruct (parser_step P (parser r) c) as [p [cmd|]]; [|reflexivity].
  pose proof (handle_command_queues P cmd (anim r)) as H.
  destruct (handle_command P cmd (anim r)) as [a ev]. cbn [fst anim] in *.
  intros [_ Hq]. destruct H as [H | H]; [exact H | contradiction].
Qed.

Lemma consistent_loop_Parser (P : Platform) (r : Robot)
    (avail : option ascii) :
  consistent P (anim r) -> consistent P (anim (fst (loop_Parser P r avail))).
Proof.
  intros H. unfold loop_Parser. destruct avail as [c|]; [|exact H].
  destruct (parser_step P (parser r) c) as [p [cmd|]]; [|exact H].
  pose proof (consistent_handle_command P cmd (anim r) H) as H'.
  destruct (handle_command P cmd (anim r)). exact H'.
Qed.

Lemma loop_anim (P : Platform) (r : Robot) (avail : option ascii) (now : Z) :
  anim (fst (loop P r avail now))
  = fst (loop_Animation P (anim (fst (loop_Parser P r avail))) now).
Proof.
  unfold loop. destruct (loop_Parser P r avail) as [r1 e1]. cbn [fst].
  destruct (loop_Animation P (anim r1) now) as [a2 e2]. reflexivity.
Qed.

(** Whenever the sequencer is at rest, the tag it holds is that of the
    completion it reported last. *)
Lemma rest_run (P : Platform) (inputs : list (option ascii * Z)) :
  forall (r : Robot) (printed : list string),
  consistent P (anim r) ->
  (at_rest (anim r) -> reported_last (anim r) printed) ->
  at_rest (anim (fst (run P r inputs))) ->
  reported_last (anim (fst (run P r inputs)))
    (printed ++ sequencer_lines P r inputs).
Proof.
  induction inputs as [|[avail now] rest IH]; intros r printed Hc Hinv.
  - cbn [run fst sequencer_lines]. rewrite app_nil_r. exact Hinv.
  - cbn [run sequencer_lines].
    pose proof (consistent_loop P r avail now Hc) as Hc1.
    pose proof (loop_anim P r avail now) as Ea.
    pose proof (consistent_loop_Parser P r avail Hc) as Hcp.
    pose proof (rest_loop_Parser P r avail) as Hrp.
    pose proof (rest_loop_Animation P
                  (anim (fst (loop_Parser P r avail))) now Hcp) as Hra.
    rewrite <- Ea in Hra.
    destruct (loop P r avail now) as [r1 e1]. cbn [fst] in *.
    specialize (IH r1
                  (printed
                   ++ lines (snd (loop_Animation P
                                    (anim (fst (loop_Parser P r avail)))
                                    now)))
                  Hc1).
    destruct (run P r1 rest) as [r2 e2]. cbn [fst] in *.
    rewrite app_assoc. apply IH.
    intros Hrest. destruct (Hra Hrest) as [(El & Hr0 & Et) | [pre El]].
    + rewrite El, app_nil_r.
      specialize (Hrp Hr0). rewrite Hrp in Hr0.
      specialize (Hinv Hr0).
      unfold reported_last in *. rewrite Et, Hrp. exact Hinv.
    + right. rewrite El, app_assoc. apply last_snoc.
Qed.

Lemma completion_tag_complete (t : Tag) :
  completion_tag (complete_line t) = Some t.
Proof. destruct t. reflexivity. Qed.

Lemma completed_last_snoc (pre : list string) (t : Tag) :
  completed_last (pre ++ [complete_line t]) = t.
Proof.
  unfold completed_last. rewrite fold_left_app. cbn [fold_left].
  rewrite completion_tag_complete. reflexivity.
Qed.

Lemma reported_last_completed (a : Anim) (printed : list string) :
  reported_last a printed ->
  animCompleteStr a = completed_last printed
  /\ (printed <> [] ->
      last printed ""%string = complete_line (animCompleteStr a)).
Proof.
  intros [[-> ->] | H].
  - split; [reflexivity | congruence].
  - split; [|intros _; exact H].
    destruct printed as [|s rest] using rev_ind.
    + cbn in H. destruct (animCompleteStr a). discriminate H.
    + rewrite last_snoc in H. subst s. symmetry. apply completed_last_snoc.
Qed.

(** C10 (as amended).  [StopAnimImmediate] called in a state the sketch
    reaches with no animation in progress: the next call of
    [loop_Animation] that is not skipped prints exactly the interrupt
    report ["<TAG,-1>"], TAG being what [animCompleteStr] holds.  If
    nothing is queued either, TAG is the tag of the animation that
    completed last (["--"] if none has), and unless nothing was printed
    yet that completion line is the last line the sequencer printed: the
    animation already reported as completed is reported once more, as
    interrupted. *)
Theorem stop_immediate_at_rest_reports_again (P : Platform) (t0 : Z)
    (inputs : list (option ascii * Z)) (now : Z) (tag : option Tag) :
  let a := anim (reached P t0 inputs) in
  let printed := sequencer_lines P (fst (setup P t0)) inputs in
  animInProgress a = false ->
  to_long (timeAtLastAnimUpdate a + millisBetweenAnimUpdate) <= now ->
  lines (snd (loop_Animation P (StopAnimImmediate tag a) now))
  = [interrupted_line (animCompleteStr a)]
  /\ (nextAnim a = None ->
      animCompleteStr a = completed_last printed
      /\ (printed <> [] ->
          last printed ""%string = complete_line (animCompleteStr a))).
Proof.
  cbv zeta. intros Hp Hrun.
  pose proof (reached_consistent P t0 inputs) as Hc.
  split.
  - destruct Hc as (Hm & _).
    rewrite (stop_immediate_tick P _ now tag (Hm standStraightAnim) Hrun).
    reflexivity.
  - intros Hq. apply reported_last_completed.
    apply (rest_run P inputs (fst (setup P t0)) []).
    + apply consistent_setup.
    + intros _. left. split; reflexivity.
    + split; assumption.
Qed.

(** The claim after a stop command has run to its end on a board: the
    completion ["<ST>"] was printed, nothing is queued, and the
    stop-immediate that follows makes the sketch print ["<ST,-1>"]. *)
Lemma stop_immediate_at_rest_reports_again_witness :
  animInProgress (anim (reached uno 0 stop_done)) = false
  /\ to_long (timeAtLastAnimUpdate (anim (reached uno 0 stop_done))
              + millisBetweenAnimUpdate) <= 420
  /\ nextAnim (anim (reached uno 0 stop_done)) = None
  /\ sequencer_lines uno (fst (setup uno 0)) stop_done = ["<ST>"%string]
  /\ lines (snd (loop_Animation uno
                   (StopAnimImmediate (Some ("S"%char, "I"%char))
                      (anim (reached uno 0 stop_done))) 420))
     = ["<ST,-1>"%string]
  /\ animCompleteStr (anim (reached uno 0 stop_done))
     = completed_last (sequencer_lines uno (fst (setup uno 0)) stop_done).
Proof.
  assert (H1 : animInProgress (anim (reached uno 0 stop_done)) = false)
    by (vm_compute; reflexivity).
  assert (H2 : to_long (timeAtLastAnimUpdate (anim (reached uno 0 stop_done))
                        + millisBetweenAnimUpdate) <= 420)
    by (vm_compute; discriminate).
  assert (H3 : nextAnim (anim (reached uno 0 stop_done)) = None)
    by (vm_compute; reflexivity).
  split; [exact H1|]. split; [exact H2|]. split; [exact H3|].
  split; [vm_compute; reflexivity|].
  destruct (stop_immediate_at_rest_reports_again uno 0 stop_done 420
              (Some ("S"%char, "I"%char)) H1 H2) as [A B].
  split; [|exact (proj1 (B H3))].
  rewrite A. vm_compute. reflexivity.
Defined.

(** C10 (counterexample).  No animation in progress does not mean that
    the last one was reported: after ["<LT>"] has completed and
    ["<FW,2>"] has ended its first pass, [animInProgress] is false until
    the next update, the only completion printed is ["<LT>"], and the
    stop-immediate makes the sketch print ["<FW,-1>"], for a walk that
    was never reported as completed. *)
Lemma stop_immediate_between_passes_counterexample :
  animInProgress (anim (reached uno 0 between_passes)) = false
  /\ sequencer_lines uno (fst (setup uno 0)) between_passes
     = ["<LT>"%string]
  /\ completed_last (sequencer_lines uno (fst (setup uno 0)) between_passes)
     = ("L"%char, "T"%char)
  /\ lines (snd (loop_Animation uno
                   (StopAnimImmediate (Some ("S"%char, "I"%char))
                      (anim (reached uno 0 between_passes))) 5620))
     = ["<FW,-1>"%string]
  /\ ~ (forall (P : Platform) (t0 : Z) (inputs : list (option ascii * Z))
               (now : Z) (tag : option Tag),
          animInProgress (anim (reached P t0 inputs)) = false ->
          to_long (timeAtLastAnimUpdate (anim (reached P t0 inputs))
                   + millisBetweenAnimUpdate) <= now ->
          lines (snd (loop_Animation P
                        (StopAnimImmediate tag (anim (reached P t0 inputs)))
                        now))
          = [interrupted_line
               (completed_last
                  (sequencer_lines P (fst (setup P t0)) inputs))]).
Proof.
  split; [vm_compute; reflexivity|]. split; [vm_compute; reflexivity|].
  split; [vm_compute; reflexivity|]. split; [vm_compute; reflexivity|].
  intros H.
  specialize (H uno 0 between_passes 5620 (Some ("S"%char, "I"%char))).
  assert (H1 : animInProgress (anim (reached uno 0 between_passes)) = false)
    by (vm_compute; reflexivity).
  assert (H2 : to_long (timeAtLastAnimUpdate
                          (anim (reached uno 0 between_passes))
                        + millisBetweenAnimUpdate) <= 5620)
    by (vm_compute; discriminate).
  specialize (H H1 H2). vm_compute in H. discriminate H.
Qed.
